(** * Sensitive-PII detection and de-identification: the engine of
    [pii_utils.py] and the metrics of [app.py], embedded and verified.

    Python values are modelled as follows.
    - A [str] is a list of characters; a character is a code point below 256
      (the Latin-1 block of Unicode), carried by [ascii].  The character
      predicates below are Python's on that block.
    - An [int] is a [Z] or, where the code only counts, a [nat].
    - A [float] is an IEEE-754 binary64 value, carried by [spec_float] with
      precision 53 and exponent bound 1024.
    - A raised exception is [None] in an [option] result. *)

From Stdlib Require Import ZArith Ascii String SpecFloat Lia.
From stdpp Require Import gmap strings list pretty.
From Stdlib Require Import ZifyNat.

Open Scope nat_scope.

Abbreviation str := (list ascii).

(** String literals of the source. *)
Definition lit (s : string) : str := list_ascii_of_string s.

Definition ord (c : ascii) : nat := nat_of_ascii c.
Definition chr (n : nat) : ascii := ascii_of_nat n.

Module Chars.

Definition in_range (lo hi : nat) (c : ascii) : bool :=
  (lo <=? ord c) && (ord c <=? hi).

(** [[0-9]], which on this block is also the regex class [\d]. *)
Definition is_decimal (c : ascii) : bool := in_range 48 57 c.

(** [c.isdigit()]: the decimal digits and the superscripts 2, 3 and 1. *)
Definition isdigit (c : ascii) : bool :=
  is_decimal c || (ord c =? 178) || (ord c =? 179) || (ord c =? 185).

(** [int(c)] on a one-character string; [None] is [ValueError]. *)
Definition int_of_char (c : ascii) : option nat :=
  if is_decimal c then Some (ord c - 48) else None.

(** [c.isspace()], also the regex class [\s]. *)
Definition isspace (c : ascii) : bool :=
  in_range 9 13 c || in_range 28 32 c || (ord c =? 133) || (ord c =? 160).

Definition is_upper (c : ascii) : bool := in_range 65 90 c.
Definition is_lower (c : ascii) : bool := in_range 97 122 c.

(** The regex class [\w]: [c.isalnum()] or an underscore. *)
Definition is_word (c : ascii) : bool :=
  is_decimal c || is_upper c || is_lower c || (ord c =? 95)
  || (ord c =? 170) || (ord c =? 178) || (ord c =? 179) || (ord c =? 181)
  || (ord c =? 185) || (ord c =? 186) || in_range 188 190 c
  || in_range 192 214 c || in_range 216 246 c || in_range 248 255 c.

(** The character of a decimal digit. *)
Definition digit_char (d : nat) : ascii := chr (48 + d).

End Chars.
Import Chars.

(** [re.sub(cls, repl, s)] for a pattern that is one character class:
    every character of the class is replaced by [repl]. *)
Definition re_sub_class (cls : ascii -> bool) (repl : str) (s : str) : str :=
  flat_map (fun c => if cls c then repl else [c]) s.

(** [mask_char * n] *)
Fixpoint str_mul (s : str) (n : nat) : str :=
  match n with
  | 0 => []
  | S n' => s ++ str_mul s n'
  end.

(** * Validators *)

Module Verhoeff.

Definition d_table : list (list nat) :=
  [[0;1;2;3;4;5;6;7;8;9]; [1;2;3;4;0;6;7;8;9;5]; [2;3;4;0;1;7;8;9;5;6];
   [3;4;0;1;2;8;9;5;6;7]; [4;0;1;2;3;9;5;6;7;8]; [5;9;8;7;6;0;4;3;2;1];
   [6;5;9;8;7;1;0;4;3;2]; [7;6;5;9;8;2;1;0;4;3]; [8;7;6;5;9;3;2;1;0;4];
   [9;8;7;6;5;4;3;2;1;0]].

Definition p_table : list (list nat) :=
  [[0;1;2;3;4;5;6;7;8;9]; [1;5;7;6;2;8;3;0;9;4]; [5;8;0;3;7;9;6;1;4;2];
   [8;9;1;6;0;4;3;5;2;7]; [9;4;5;3;1;2;6;8;7;0]; [4;2;8;6;5;7;9;3;0;1];
   [2;7;9;3;8;0;4;6;1;5]; [7;0;4;6;9;1;3;2;5;8]].

(** [table[i][j]]; [None] is [IndexError]. *)
Definition index2 (table : list (list nat)) (i j : nat) : option nat :=
  row ← table !! i; row !! j.

(** The loop [for i, item in enumerate(reversed(number))], started at
    index [i] with check value [c]. *)
Fixpoint walk (items : str) (i c : nat) : option nat :=
  match items with
  | [] => Some c
  | item :: rest =>
      n ← int_of_char item;
      x ← index2 p_table (i mod 8) n;
      c' ← index2 d_table c x;
      walk rest (S i) c'
  end.

(** The body of the [try] block. *)
Definition try_body (number : str) : option bool :=
  let number := re_sub_class (fun c => negb (is_decimal c)) [] number in
  c ← walk (rev number) 0 0;
  Some (c =? 0).

Definition aadhaar_verhoeff (number : str) : bool :=
  match try_body number with
  | Some b => b
  | None => false          (* except (ValueError, IndexError) *)
  end.

(** The loop of the code on digits: its two tables read as total
    functions [d] and [p] (0 outside the tables), folded over the digits
    from the right.  The tables are those of the code; its permutation
    table is not generated by its second row, as the table of the Verhoeff
    scheme is. *)
Definition d (j k : nat) : nat := nth k (nth j d_table []) 0.
Definition p (i n : nat) : nat := nth n (nth (i mod 8) p_table []) 0.

Fixpoint check_from (i c : nat) (ds : list nat) : nat :=
  match ds with
  | [] => c
  | n :: rest => check_from (S i) (d c (p i n)) rest
  end.

Definition check_value (ds : list nat) : nat := check_from 0 0 (rev ds).

End Verhoeff.

(** The decimal digits of a string, in order. *)
Definition digits_of (s : str) : list nat :=
  omap int_of_char s.

Module Luhn.

(** [[int(c) for c in number if c.isdigit()]]; [None] when an [int(c)]
    raises [ValueError]. *)
Definition digit_list (number : str) : option (list nat) :=
  mapM int_of_char (filter (fun c => isdigit c = true) number).

(** The loop body on the digit [d] at index [i]. *)
Definition step (parity i d : nat) : nat :=
  let d := if i mod 2 =? parity then d * 2 else d in
  let d := if 9 <? d then d - 9 else d in
  d.

(** [for i, d in enumerate(digits)], started at index [i] with [total]. *)
Fixpoint loop (parity : nat) (digits : list nat) (i total : nat) : nat :=
  match digits with
  | [] => total
  | d :: rest => loop parity rest (S i) (total + step parity i d)
  end.

Definition luhn_checksum_ok (number : str) : option bool :=
  digits ← digit_list number;
  if negb ((13 <=? length digits) && (length digits <=? 19)) then Some false
  else
    let parity := length digits mod 2 in
    let total := loop parity digits 0 0 in
    Some (total mod 10 =? 0).

(** The Luhn sum as the specification words it: counting from the right,
    every second digit is doubled, a doubled value above 9 loses 9, and
    all are added. *)
Definition doubled (d : nat) : nat := if 9 <? 2 * d then 2 * d - 9 else 2 * d.

Fixpoint sum_from_right (rds : list nat) : nat :=
  match rds with
  | [] => 0
  | d0 :: [] => d0
  | d0 :: d1 :: rest => d0 + doubled d1 + sum_from_right rest
  end.

Definition luhn_sum (ds : list nat) : nat := sum_from_right (rev ds).

(** The same sum read from the left: a digit is doubled when the number
    of digits from it to the end is even. *)
Fixpoint sum_left (ds : list nat) : nat :=
  match ds with
  | [] => 0
  | d :: rest =>
      (if Nat.even (length ds) then doubled d else d) + sum_left rest
  end.

(** The standard check digit for a payload. *)
Definition check_digit (payload : list nat) : nat :=
  (10 - luhn_sum (payload ++ [0]) mod 10) mod 10.

End Luhn.

(** * The reversible transform of the encrypt strategy *)

Definition XOR_KEY : str := lit "YourSecretKeyForPIIDetection".

(** [chr(ord(c) ^ ord(k))] *)
Definition xor_char (c k : ascii) : ascii :=
  ascii_of_N (N.lxor (N_of_ascii c) (N_of_ascii k)).

(** [zip(text, keystream)], stopping at the shorter. *)
Fixpoint zip {A B : Type} (l : list A) (l' : list B) : list (A * B) :=
  match l, l' with
  | x :: t, y :: t' => (x, y) :: zip t t'
  | _, _ => []
  end.

Definition encrypt_decrypt (text key : str) : str :=
  map (fun ck => xor_char (fst ck) (snd ck))
      (zip text (str_mul key (length text / length key + 1))).

(** [s.encode()]: UTF-8, one byte below 128 and two bytes from 128 to 255.
    Bytes are carried by [ascii] as well. *)
Module Utf8.

Definition encode_char (c : ascii) : list ascii :=
  if ord c <? 128 then [c]
  else [chr (192 + ord c / 64); chr (128 + ord c mod 64)].

Definition encode (s : str) : list ascii := flat_map encode_char s.

(** [bs.decode()], on the byte sequences whose code points stay below
    256; [None] for any other sequence. *)
Fixpoint decode (bs : list ascii) : option str :=
  match bs with
  | [] => Some []
  | b :: rest =>
      if ord b <? 128 then cons b <$> decode rest
      else if (ord b =? 194) || (ord b =? 195) then
        match rest with
        | b2 :: rest' =>
            if in_range 128 191 b2
            then cons (chr ((ord b - 192) * 64 + (ord b2 - 128))) <$> decode rest'
            else None
        | [] => None
        end
      else None
  end.

End Utf8.

(** [base64.b64encode] and [base64.b64decode] (RFC 4648, standard alphabet,
    [=] padding); the encoded text is ASCII, so its [.decode()] is the
    identity on this representation. *)
Module Base64.

Definition alphabet : str :=
  lit "ABCDEFGHIJKLMNOPQRSTUVWXYZabcdefghijklmnopqrstuvwxyz0123456789+/".

Definition pad : ascii := "="%char.

(** A group of six bits, most significant first. *)
Definition sextet : Type := (bool * bool * bool * bool * bool * bool).

Definition bit (b : bool) (w : nat) : nat := if b then w else 0.

Definition sextet_index (x : sextet) : nat :=
  let '(b5, b4, b3, b2, b1, b0) := x in
  bit b5 32 + bit b4 16 + bit b3 8 + bit b2 4 + bit b1 2 + bit b0 1.

Definition index_sextet (n : nat) : sextet :=
  (Nat.testbit n 5, Nat.testbit n 4, Nat.testbit n 3,
   Nat.testbit n 2, Nat.testbit n 1, Nat.testbit n 0).

Definition encode_sextet (x : sextet) : ascii :=
  nth (sextet_index x) alphabet pad.

Fixpoint index_of (c : ascii) (l : str) (i : nat) : option nat :=
  match l with
  | [] => None
  | x :: t => if Ascii.eqb x c then Some i else index_of c t (S i)
  end.

Definition decode_sextet (c : ascii) : option sextet :=
  index_sextet <$> index_of c alphabet 0.

(** Three bytes are four sextets. *)
Definition split3 (a b c : ascii) : sextet * sextet * sextet * sextet :=
  let '(Ascii a0 a1 a2 a3 a4 a5 a6 a7) := a in
  let '(Ascii b0 b1 b2 b3 b4 b5 b6 b7) := b in
  let '(Ascii c0 c1 c2 c3 c4 c5 c6 c7) := c in
  ((a7, a6, a5, a4, a3, a2), (a1, a0, b7, b6, b5, b4),
   (b3, b2, b1, b0, c7, c6), (c5, c4, c3, c2, c1, c0)).

Definition join4 (w x y z : sextet) : ascii * ascii * ascii :=
  let '(a7, a6, a5, a4, a3, a2) := w in
  let '(a1, a0, b7, b6, b5, b4) := x in
  let '(b3, b2, b1, b0, c7, c6) := y in
  let '(c5, c4, c3, c2, c1, c0) := z in
  (Ascii a0 a1 a2 a3 a4 a5 a6 a7, Ascii b0 b1 b2 b3 b4 b5 b6 b7,
   Ascii c0 c1 c2 c3 c4 c5 c6 c7).

Definition zero_byte : ascii := Ascii.zero.

Fixpoint b64encode (bs : list ascii) : str :=
  match bs with
  | [] => []
  | [a] =>
      let '(w, x, _, _) := split3 a zero_byte zero_byte in
      [encode_sextet w; encode_sextet x; pad; pad]
  | [a; b] =>
      let '(w, x, y, _) := split3 a b zero_byte in
      [encode_sextet w; encode_sextet x; encode_sextet y; pad]
  | a :: b :: c :: rest =>
      let '(w, x, y, z) := split3 a b c in
      encode_sextet w :: encode_sextet x :: encode_sextet y
        :: encode_sextet z :: b64encode rest
  end.

Definition zero_sextet : sextet := (false, false, false, false, false, false).

(** [None] is [binascii.Error]. *)
Fixpoint b64decode (s : str) : option (list ascii) :=
  match s with
  | [] => Some []
  | c1 :: c2 :: c3 :: c4 :: rest =>
      w ← decode_sextet c1;
      x ← decode_sextet c2;
      if Ascii.eqb c4 pad then
        match rest with
        | [] =>
            if Ascii.eqb c3 pad then
              let '(a, _, _) := join4 w x zero_sextet zero_sextet in Some [a]
            else
              y ← decode_sextet c3;
              let '(a, b, _) := join4 w x y zero_sextet in Some [a; b]
        | _ :: _ => None
        end
      else
        y ← decode_sextet c3;
        z ← decode_sextet c4;
        let '(a, b, c) := join4 w x y z in
        tl ← b64decode rest;
        Some (a :: b :: c :: tl)
  | _ => None
  end.

End Base64.

(** The encrypt strategy on the matched text, and its inverse as the
    specification words it: base64-decode, then the same XOR again. *)
Definition encrypt_strategy (original_text : str) : str :=
  let encrypted := encrypt_decrypt original_text XOR_KEY in
  Base64.b64encode (Utf8.encode encrypted).

Definition decrypt_strategy (produced : str) : option str :=
  bs ← Base64.b64decode produced;
  encrypted ← Utf8.decode bs;
  Some (encrypt_decrypt encrypted XOR_KEY).

(** * The pseudonymizer and the run context *)

(** [str(n)] for a count. *)
Definition str_of_nat (n : nat) : str := lit (pretty n).

Record EmailPseudonymizer : Type := mkPseudonymizer {
  mapping : gmap str str;
  counter : nat
}.

(** [EmailPseudonymizer()] *)
Definition new_pseudonymizer : EmailPseudonymizer :=
  {| mapping := ∅; counter := 1 |}.

(** [self.pseudonymize(local_part)]: the alias and the instance after the
    call. *)
Definition pseudonymize (self : EmailPseudonymizer) (local_part : str)
  : str * EmailPseudonymizer :=
  let self :=
    match mapping self !! local_part with
    | None =>
        {| mapping := <[local_part := lit "user" ++ str_of_nat (counter self)]>
                        (mapping self);
           counter := counter self + 1 |}
    | Some _ => self
    end in
  (default [] (mapping self !! local_part), self).

(** A sequence of calls on one instance. *)
Fixpoint pseudonymize_all (self : EmailPseudonymizer) (keys : list str)
  : list str * EmailPseudonymizer :=
  match keys with
  | [] => ([], self)
  | k :: rest =>
      let '(a, self) := pseudonymize self k in
      let '(als, self) := pseudonymize_all self rest in
      (a :: als, self)
  end.

(** The distinct keys of a call sequence in first-seen order, and the
    1-based rank of a key among them. *)
Fixpoint first_seen_from (seen keys : list str) : list str :=
  match keys with
  | [] => []
  | k :: rest =>
      if decide (k ∈ seen) then first_seen_from seen rest
      else k :: first_seen_from (seen ++ [k]) rest
  end.

Definition first_seen (keys : list str) : list str := first_seen_from [] keys.

Fixpoint rank_in (k : str) (l : list str) : option nat :=
  match l with
  | [] => None
  | x :: t => if decide (x = k) then Some 1 else S <$> rank_in k t
  end.

(** The [context] argument: [None], a dictionary from names to
    pseudonymizer instances, or a value of another type ([truthy] is its
    truth value). *)
Inductive pyctx : Type :=
| CtxNone
| CtxDict (d : gmap str EmailPseudonymizer)
| CtxOther (truthy : bool).

(** [context and isinstance(context, dict)]: an empty dictionary is false. *)
Definition usable_dict (context : pyctx) : option (gmap str EmailPseudonymizer) :=
  match context with
  | CtxDict d => if decide (d = ∅) then None else Some d
  | _ => None
  end.

(** [context.setdefault(name, EmailPseudonymizer()).pseudonymize(key)]:
    the alias and the dictionary after the call, the stored instance being
    updated in place. *)
Definition pseudonymize_in (name : str) (d : gmap str EmailPseudonymizer)
    (key : str) : str * gmap str EmailPseudonymizer :=
  let anonymizer := default new_pseudonymizer (d !! name) in
  let '(alias, anonymizer) := pseudonymize anonymizer key in
  (alias, <[name := anonymizer]> d).

(** * Regular expressions: the part of Python's [re] the engine uses

    A backtracking matcher with [re]'s leftmost, greedy semantics.  A
    repetition's body is taken to consume at least one character once the
    minimum count is reached, as it does in every pattern of the source:
    where the body can match the empty string, CPython accepts one
    iteration that consumes nothing and this matcher none, so the matches
    found are those of [re] for the patterns whose repetition bodies cannot
    match the empty string ([consuming_reps] below), and the statements
    about the matches of a pattern are made for the patterns of the source
    or under that condition.
    The loops run on fuel that is proved never to run out
    ([rep_iter_fuel_enough], [finditer_fuel_enough]). *)

Module Re.

Inductive regex : Type :=
| Eps
| Cls (p : ascii -> bool)                    (* one character of a class *)
| Seq (r1 r2 : regex)
| Alt (r1 r2 : regex)                        (* r1|r2 *)
| Rep (r : regex) (lo : nat) (hi : option nat) (* greedy r{lo,hi} *)
| Grp (n : nat) (r : regex)                  (* capturing group number n *)
| WordB.                                     (* \b *)

(** The recorded span of each group that took part, latest first. *)
Definition captures : Type := list (nat * (nat * nat)).

Definition word_at (s : str) (i : nat) : bool :=
  match s !! i with
  | Some c => is_word c
  | None => false
  end.

Definition at_boundary (s : str) (i : nat) : bool :=
  let before := match i with 0 => false | S j => word_at s j end in
  negb (eqb before (word_at s i)).

Definition below (hi : option nat) (n : nat) : bool :=
  match hi with
  | None => true
  | Some h => n <? h
  end.

(** The greedy loop of a repetition whose body is matched by [body]:
    with [n] iterations done, try one more if the bound allows, and fall
    back to the continuation [k] when the minimum is reached.  An
    iteration beyond the minimum that consumes nothing is refused. *)
Fixpoint rep_iter {T : Type}
    (body : nat -> captures -> (nat -> captures -> option T) -> option T)
    (lo : nat) (hi : option nat) (k : nat -> captures -> option T)
    (fuel n i : nat) (caps : captures) {struct fuel} : option T :=
  let stop := if lo <=? n then k i caps else None in
  match fuel with
  | 0 => stop
  | S fuel' =>
      if below hi n then
        match body i caps
                (fun j caps' =>
                   if (j =? i) && (lo <=? n) then None
                   else rep_iter body lo hi k fuel' (S n) j caps') with
        | Some x => Some x
        | None => stop
        end
      else stop
  end.

(** [rmatch r s i caps k]: match [r] in [s] from index [i], then continue
    with [k] at the index reached; [None] makes the matcher backtrack. *)
Fixpoint rmatch {T : Type} (r : regex) (s : str) (i : nat) (caps : captures)
    (k : nat -> captures -> option T) {struct r} : option T :=
  match r with
  | Eps => k i caps
  | Cls p =>
      match s !! i with
      | Some c => if p c then k (S i) caps else None
      | None => None
      end
  | Seq r1 r2 => rmatch r1 s i caps (fun j caps' => rmatch r2 s j caps' k)
  | Alt r1 r2 =>
      match rmatch r1 s i caps k with
      | Some x => Some x
      | None => rmatch r2 s i caps k
      end
  | Rep r lo hi =>
      rep_iter (fun j caps' k' => rmatch r s j caps' k') lo hi k
               (lo + length s) 0 i caps
  | Grp n r => rmatch r s i caps (fun j caps' => k j ((n, (i, j)) :: caps'))
  | WordB => if at_boundary s i then k i caps else None
  end.

(** The search of one scan step: the first index from [start] at which
    the pattern matches; with [must_advance], an empty match at [start]
    itself is refused.  [n] counts the indices left after [start]. *)
Fixpoint search (r : regex) (s : str) (n start : nat) (must_advance : bool)
  : option (nat * nat * captures) :=
  match rmatch r s start []
          (fun j caps =>
             if must_advance && (j =? start) then None
             else Some (start, j, caps)) with
  | Some m => Some m
  | None =>
      match n with
      | 0 => None
      | S n' => search r s n' (S start) false
      end
  end.

Fixpoint ngroups (r : regex) : nat :=
  match r with
  | Seq r1 r2 | Alt r1 r2 => Nat.max (ngroups r1) (ngroups r2)
  | Rep r _ _ => ngroups r
  | Grp n r => Nat.max n (ngroups r)
  | _ => 0
  end.

(** A match object. *)
Record Match : Type := mkMatch {
  m_string : str;
  m_start : nat;
  m_end : nat;
  m_caps : captures;
  m_ngroups : nat
}.

(** [s[i:j]] *)
Definition slice (s : str) (i j : nat) : str := take (j - i) (drop i s).

(** [m.group(0)] *)
Definition group0 (m : Match) : str := slice (m_string m) (m_start m) (m_end m).

Fixpoint assoc (n : nat) (caps : captures) : option (nat * nat) :=
  match caps with
  | [] => None
  | (g, span) :: rest => if g =? n then Some span else assoc n rest
  end.

(** [m.group(n)] for [n > 0]: the outer [None] is [IndexError] (no such
    group), the inner [None] is Python's [None] (the group took no part). *)
Definition group (m : Match) (n : nat) : option (option str) :=
  if n <=? m_ngroups m then
    Some (match assoc n (m_caps m) with
          | Some (i, j) => Some (slice (m_string m) i j)
          | None => None
          end)
  else None.

(** The successive non-overlapping matches of a scan from [pos]. *)
Fixpoint scan (r : regex) (s : str) (fuel pos : nat) (must_advance : bool)
  : list Match :=
  match fuel with
  | 0 => []
  | S fuel' =>
      match search r s (length s - pos) pos must_advance with
      | None => []
      | Some (b, e, caps) =>
          mkMatch s b e caps (ngroups r) :: scan r s fuel' e (e =? b)
      end
  end.

Definition finditer (r : regex) (s : str) : list Match :=
  scan r s (2 * length s + 2) 0 false.

(** The replacement loop of [p.sub(repl, s)] over the matches found, for
    a callable [repl] that reads and writes a state [St] and may raise:
    the text between matches is copied, each match is replaced by what
    [repl] returns, called in order of occurrence. *)
Fixpoint replace_from {St : Type} (repl : Match -> St -> option (str * St))
    (s : str) (ms : list Match) (i : nat) (st : St) : option (str * St) :=
  match ms with
  | [] => Some (drop i s, st)
  | m :: rest =>
      '(out, st) ← repl m st;
      '(tail, st) ← replace_from repl s rest (m_end m) st;
      Some (slice s i (m_start m) ++ out ++ tail, st)
  end.

Definition sub {St : Type} (p : regex)
    (repl : Match -> St -> option (str * St)) (s : str) (st : St)
  : option (str * St) :=
  replace_from repl s (finditer p s) 0 st.

(** [p.subn(repl, s)]: the new string and the number of replacements. *)
Definition subn {St : Type} (p : regex)
    (repl : Match -> St -> option (str * St)) (s : str) (st : St)
  : option ((str * nat) * St) :=
  '(out, st) ← sub p repl s st;
  Some ((out, length (finditer p s)), st).

(** Notation of the patterns. *)
Definition chr_of (c : ascii) : regex := Cls (Ascii.eqb c).
Definition one_of (cs : string) : regex :=
  Cls (fun c => existsb (Ascii.eqb c) (lit cs)).
Definition digit : regex := Cls is_decimal.
Definition upper : regex := Cls is_upper.
Definition lower : regex := Cls is_lower.
Definition exactly (n : nat) (r : regex) : regex := Rep r n (Some n).
Definition at_least (n : nat) (r : regex) : regex := Rep r n None.
Definition opt (r : regex) : regex := Rep r 0 (Some 1).
Definition plus (r : regex) : regex := Rep r 1 None.
Fixpoint seqs (rs : list regex) : regex :=
  match rs with
  | [] => Eps
  | [r] => r
  | r :: rest => Seq r (seqs rest)
  end.
Definition text (s : string) : regex := seqs (map chr_of (lit s)).

End Re.
Import Re.

(** [\b[2-9]\d{3}[ -]?\d{4}[ -]?\d{4}\b] *)
Definition AADHAAR_PATTERN : regex :=
  seqs [WordB; Cls (in_range 50 57); exactly 3 digit; opt (one_of " -");
        exactly 4 digit; opt (one_of " -"); exactly 4 digit; WordB].

(** [\b([A-Z]{5}\d{4}[A-Z])\b] *)
Definition PAN_PATTERN : regex :=
  seqs [WordB; Grp 1 (seqs [exactly 5 upper; exactly 4 digit; upper]); WordB].

(** [\b(\d{4}[- ]?\d{4}[- ]?\d{4}[- ]?\d{4})\b] *)
Definition CREDIT_CARD_PATTERN : regex :=
  seqs [WordB;
        Grp 1 (seqs [exactly 4 digit; opt (one_of "- "); exactly 4 digit;
                     opt (one_of "- "); exactly 4 digit; opt (one_of "- ");
                     exactly 4 digit]);
        WordB].

(** [[A-Za-z0-9._%+-]], [[A-Za-z0-9.-]] and [[A-Za-z]] *)
Definition email_local_char (c : ascii) : bool :=
  is_upper c || is_lower c || is_decimal c || existsb (Ascii.eqb c) (lit "._%+-").
Definition email_domain_char (c : ascii) : bool :=
  is_upper c || is_lower c || is_decimal c || existsb (Ascii.eqb c) (lit ".-").
Definition is_letter (c : ascii) : bool := is_upper c || is_lower c.

(** [\b([A-Za-z0-9._%+-]+@([A-Za-z0-9.-]+\.[A-Za-z]{2,}))\b] *)
Definition EMAIL_PATTERN : regex :=
  seqs [WordB;
        Grp 1 (seqs [plus (Cls email_local_char); chr_of "@";
                     Grp 2 (seqs [plus (Cls email_domain_char); chr_of ".";
                                  at_least 2 (Cls is_letter)])]);
        WordB].

(** [\b([A-Z]\d{7})\b] *)
Definition PASSPORT_PATTERN : regex :=
  seqs [WordB; Grp 1 (seqs [upper; exactly 7 digit]); WordB].

(** [\b(([A-Z]{2})-?(\d{13}))\b] *)
Definition DRIVING_LICENSE_PATTERN : regex :=
  seqs [WordB;
        Grp 1 (seqs [Grp 2 (exactly 2 upper); opt (chr_of "-");
                     Grp 3 (exactly 13 digit)]);
        WordB].

(** [\b(?:\+91[\s-]?)?([6-9]\d{9})\b] *)
Definition PHONE_PATTERN : regex :=
  seqs [WordB;
        opt (seqs [text "+91"; opt (Cls (fun c => isspace c || Ascii.eqb c "-"))]);
        Grp 1 (seqs [Cls (in_range 54 57); exactly 9 digit]);
        WordB].

(** [\b([A-Z][a-z]{2,}(?:\s[A-Z][a-z]{2,})+)\b] *)
Definition PERSON_PATTERN : regex :=
  seqs [WordB;
        Grp 1 (seqs [upper; at_least 2 lower;
                     plus (seqs [Cls isspace; upper; at_least 2 lower])]);
        WordB].

(** [\b([A-Z]{3}\d{7})\b] *)
Definition VOTER_ID_PATTERN : regex :=
  seqs [WordB; Grp 1 (seqs [exactly 3 upper; exactly 7 digit]); WordB].

(** [\b(\d{2}[/-]\d{2}[/-]\d{4}|\d{4}[/-]\d{2}[/-]\d{2})\b] *)
Definition DOB_PATTERN : regex :=
  seqs [WordB;
        Grp 1 (Alt (seqs [exactly 2 digit; one_of "/-"; exactly 2 digit;
                          one_of "/-"; exactly 4 digit])
                   (seqs [exactly 4 digit; one_of "/-"; exactly 2 digit;
                          one_of "/-"; exactly 2 digit]));
        WordB].

(** * String helpers of the handlers *)

Definition contains (c : ascii) (s : str) : bool := existsb (Ascii.eqb c) s.

(** [s.rsplit(sep, 1)] unpacked into two names: the text before and after
    the last separator; [None] ([ValueError]) when there is none. *)
Fixpoint rsplit1 (sep : ascii) (s : str) : option (str * str) :=
  match s with
  | [] => None
  | c :: rest =>
      match rsplit1 sep rest with
      | Some (before, after) => Some (c :: before, after)
      | None => if Ascii.eqb c sep then Some ([], rest) else None
      end
  end.

(** [s.split()]: the maximal runs of non-space characters.  [cur] is the
    run being read, reversed. *)
Fixpoint split_from (cur : str) (s : str) : list str :=
  match s with
  | [] => match cur with [] => [] | _ => [rev cur] end
  | c :: rest =>
      if isspace c
      then match cur with
           | [] => split_from [] rest
           | _ => rev cur :: split_from [] rest
           end
      else split_from (c :: cur) rest
  end.

Definition split (s : str) : list str := split_from [] s.

(** [sep.join(parts)] *)
Fixpoint join (sep : str) (parts : list str) : str :=
  match parts with
  | [] => []
  | [x] => x
  | x :: rest => x ++ sep ++ join sep rest
  end.

(** [s[-n:]] for [n > 0] *)
Definition last_n (n : nat) (s : str) : str := drop (length s - n) s.

(** [s.upper()] on the ASCII names the handlers pass as [pii_type]. *)
Definition upper_char (c : ascii) : ascii :=
  if is_lower c then chr (ord c - 32) else c.
Definition str_upper (s : str) : str := map upper_char s.

(** [f"{n:0wd}"] *)
Definition zero_padded (w : nat) (n : N) : str :=
  let s := lit (pretty n) in
  repeat "0"%char (w - length s) ++ s.

(** * The state the handlers act on

    The run context is passed by reference and mutated in place, and the
    synthetic identifiers draw from Python's [random]; both are carried by
    an explicit world: the context object, and an arbitrary sequence of
    raw draws with the number of draws consumed so far. *)

Record World : Type := mkWorld {
  context : pyctx;
  draws : nat -> N;
  cursor : nat
}.

Definition set_context (c : pyctx) (w : World) : World :=
  {| context := c; draws := draws w; cursor := cursor w |}.

(** A computation on a state [St] that may raise. *)
Definition M (St A : Type) : Type := St -> option (A * St).

Definition ret {St A : Type} (a : A) : M St A := fun st => Some (a, st).
Definition raise {St A : Type} : M St A := fun _ => None.
Definition bind {St A B : Type} (m : M St A) (f : A -> M St B) : M St B :=
  fun st => match m st with
            | Some (a, st') => f a st'
            | None => None
            end.

Declare Scope m_scope.
Delimit Scope m_scope with M.
Notation "'let*' x ':=' m 'in' f" := (bind m (fun x => f))
  (at level 10, x pattern, m at level 100, f at level 200) : m_scope.

(** [random.choice(seq)] and [random.randint(a, b)] *)
Definition draw : M World N :=
  fun w => Some (draws w (cursor w),
                 {| context := context w; draws := draws w; cursor := S (cursor w) |}).

Definition random_choice (seq : str) : M World ascii :=
  (let* n := draw in
   ret (nth (N.to_nat (n mod N.of_nat (length seq))) seq "?"%char))%M.

Definition random_randint (a b : N) : M World N :=
  (let* n := draw in ret (a + n mod (b - a + 1))%N)%M.

(** [kwargs] of a handler call. *)
Record kwargs : Type := mkKwargs {
  kw_strategy : option str;
  kw_char : option str
}.

Definition get_strategy (kw : kwargs) : str := default (lit "partial") (kw_strategy kw).
Definition get_char (kw : kwargs) : str := default (lit "*") (kw_char kw).

(** [MaskConfig] *)
Record MaskConfig : Type := mkMaskConfig {
  enabled : bool;
  strategy : str;
  char : str
}.

(** * Masking strategies and category handlers *)

Section Handlers.

(** [hashlib.sha256(data).hexdigest()], from the bytes to the 64 hex
    characters. *)
Variable sha256_hexdigest : list ascii -> str.

Open Scope m_scope.

Definition _apply_mask {St : Type} (m : Match) (strategy mask_char pii_type : str)
    (partial_mask_func : Match -> M St str) : M St str :=
  let original_text := group0 m in
  if decide (strategy = lit "partial") then partial_mask_func m
  else if decide (strategy = lit "full")
  then ret (str_mul mask_char (length original_text))
  else if decide (strategy = lit "hash")
  then ret (sha256_hexdigest (Utf8.encode original_text))
  else if decide (strategy = lit "encrypt")
  then ret (encrypt_strategy original_text)
  else if decide (strategy = lit "redact")
  then ret (lit "[" ++ str_upper pii_type ++ lit "_REDACTED]")
  else ret original_text.

(** The handlers return [(masked_text, count)]. *)
Definition handler : Type :=
  str -> option regex -> kwargs -> M World (str * nat).

(** The validator gate of [mask_aadhaar.repl] on a match. *)
Definition aadhaar_rejects (m : Match) : bool :=
  let raw := re_sub_class (fun c => negb (is_decimal c)) [] (group0 m) in
  negb (length raw =? 12) || negb (Verhoeff.aadhaar_verhoeff raw).

Definition mask_aadhaar : handler := fun text pattern kw w =>
  let count := 0 in
  let repl (m : Match) : M (nat * World) str := fun '(count, w) =>
    let raw := re_sub_class (fun c => negb (is_decimal c)) [] (group0 m) in
    if negb (length raw =? 12) || negb (Verhoeff.aadhaar_verhoeff raw)
    then Some (group0 m, (count, w))
    else
      let count := count + 1 in
      let partial (_ : Match) : M (nat * World) str :=
        ret (take 4 raw ++ lit "-" ++ str_mul (get_char kw) 4 ++ lit "-"
             ++ drop 8 raw) in
      _apply_mask m (get_strategy kw) (get_char kw) (lit "Aadhaar") partial
        (count, w) in
  let p := default AADHAAR_PATTERN pattern in
  match sub p repl text (count, w) with
  | Some (masked_text, (count, w)) => Some ((masked_text, count), w)
  | None => None
  end.

Definition generate_synthetic_pan : M World str :=
  let consonants := lit "BCDFGHJKLMNPQRSTVWXYZ" in
  let vowels := lit "AEIOU" in
  let* c1 := random_choice consonants in
  let* v1 := random_choice vowels in
  let* c2 := random_choice consonants in
  let* v2 := random_choice vowels in
  let* c3 := random_choice consonants in
  let* n := random_randint 0 9999 in
  let* z := random_choice (lit "ABCDEFGHIJKLMNOPQRSTUVWXYZ") in
  ret ([c1; v1; c2; v2; c3] ++ zero_padded 4 n ++ [z]).

Definition anonymize_pan : handler := fun text pattern kw =>
  let repl (m : Match) : M World str :=
    let partial (_ : Match) : M World str := generate_synthetic_pan in
    _apply_mask m (get_strategy kw) (get_char kw) (lit "PAN") partial in
  let p := default PAN_PATTERN pattern in
  subn p repl text.

Definition mask_credit_cards : handler := fun text pattern kw w =>
  let count := 0 in
  let repl (m : Match) : M (nat * World) str := fun '(count, w) =>
    let raw := re_sub_class (fun c => negb (is_decimal c)) [] (group0 m) in
    match Luhn.luhn_checksum_ok raw with
    | None => None
    | Some ok =>
        if negb ok then Some (group0 m, (count, w))
        else
          let count := count + 1 in
          let partial (_ : Match) : M (nat * World) str :=
            let stars := str_mul (get_char kw) 4 in
            ret (stars ++ lit "-" ++ stars ++ lit "-" ++ stars ++ lit "-"
                 ++ last_n 4 raw) in
          _apply_mask m (get_strategy kw) (get_char kw) (lit "Credit Card")
            partial (count, w)
    end in
  let p := default CREDIT_CARD_PATTERN pattern in
  match sub p repl text (count, w) with
  | Some (masked_text, (count, w)) => Some ((masked_text, count), w)
  | None => None
  end.

(** The [partial] of [pseudo_email]. *)
Definition email_partial (m : Match) : M World str := fun w =>
  match group m 1 with
  | None => None                               (* IndexError: no such group *)
  | Some None => None                          (* TypeError: '@' in None *)
  | Some (Some full_email) =>
      if negb (contains "@" full_email)
      then Some (lit "Invalid Email Match: " ++ full_email, w)
      else
        match rsplit1 "@" full_email with
        | None => None
        | Some (local, domain) =>
            match usable_dict (context w) with
            | Some d =>
                let '(alias, d) := pseudonymize_in (lit "email_anonymizer") d local in
                Some (alias ++ lit "@" ++ domain, set_context (CtxDict d) w)
            | None => Some (lit "user@" ++ domain, w)
            end
        end
  end.

Definition pseudo_email : handler := fun text pattern kw =>
  let repl (m : Match) : M World str :=
    _apply_mask m (get_strategy kw) (get_char kw) (lit "Email") email_partial in
  let p := default EMAIL_PATTERN pattern in
  subn p repl text.

Definition mask_passport : handler := fun text pattern kw =>
  let repl (m : Match) : M World str :=
    let partial (m : Match) : M World str :=
      let raw := group0 m in
      match raw with
      | [] => raise                              (* IndexError: raw[0] *)
      | c :: _ => ret (c :: str_mul (get_char kw) (length raw - 1))
      end in
    _apply_mask m (get_strategy kw) (get_char kw) (lit "Passport") partial in
  let p := default PASSPORT_PATTERN pattern in
  subn p repl text.

Definition mask_driving_license : handler := fun text pattern kw =>
  let repl (m : Match) : M World str :=
    let partial (m : Match) : M World str :=
      match group m 2 with
      | None => raise                            (* IndexError: no such group *)
      | Some g =>
          let state_code := default [] g in
          match state_code with
          | [] => ret (group0 m)
          | _ => ret (state_code ++ str_mul (get_char kw) 14)
          end
      end in
    _apply_mask m (get_strategy kw) (get_char kw) (lit "Driving License") partial in
  let p := default DRIVING_LICENSE_PATTERN pattern in
  subn p repl text.

Definition mask_phone : handler := fun text pattern kw =>
  let repl (m : Match) : M World str :=
    let partial (m : Match) : M World str :=
      let raw := last_n 10 (re_sub_class (fun c => negb (is_decimal c)) [] (group0 m)) in
      ret (take 2 raw ++ str_mul (get_char kw) 6 ++ last_n 2 raw) in
    _apply_mask m (get_strategy kw) (get_char kw) (lit "Phone") partial in
  let p := default PHONE_PATTERN pattern in
  subn p repl text.

(** [p[0] + char * (len(p) - 1)] *)
Definition mask_token (mask_char : str) (p : str) : option str :=
  match p with
  | [] => None                                   (* IndexError: p[0] *)
  | c :: _ => Some (c :: str_mul mask_char (length p - 1))
  end.

(** [context.setdefault(name, EmailPseudonymizer())] followed by the
    [pseudonymize] calls of a generator over [keys]. *)
Definition pseudonymize_each_in (name : str) (d : gmap str EmailPseudonymizer)
    (keys : list str) : list str * gmap str EmailPseudonymizer :=
  let anonymizer := default new_pseudonymizer (d !! name) in
  let '(aliases, anonymizer) := pseudonymize_all anonymizer keys in
  (aliases, <[name := anonymizer]> d).

(** The [partial] of [mask_person]. *)
Definition person_partial (kw : kwargs) (m : Match) : M World str := fun w =>
  let parts := split (group0 m) in
  match usable_dict (context w) with
  | Some d =>
      let '(aliases, d) := pseudonymize_each_in (lit "person_anonymizer") d parts in
      Some (join (lit " ") aliases, set_context (CtxDict d) w)
  | None =>
      match mapM (mask_token (get_char kw)) parts with
      | Some masked => Some (join (lit " ") masked, w)
      | None => None
      end
  end.

Definition mask_person : handler := fun text pattern kw =>
  let repl (m : Match) : M World str :=
    _apply_mask m (get_strategy kw) (get_char kw) (lit "Person") (person_partial kw) in
  let p := default PERSON_PATTERN pattern in
  subn p repl text.

Definition generate_synthetic_voter_id : M World str :=
  let letters := lit "ABCDEFGHIJKLMNOPQRSTUVWXYZ" in
  let* a := random_choice letters in
  let* b := random_choice letters in
  let* c := random_choice letters in
  let* n := random_randint 0 9999999 in
  ret ([a; b; c] ++ zero_padded 7 n).

Definition mask_voter_id : handler := fun text pattern kw =>
  let repl (m : Match) : M World str :=
    let partial (_ : Match) : M World str := generate_synthetic_voter_id in
    _apply_mask m (get_strategy kw) (get_char kw) (lit "VoterID") partial in
  let p := default VOTER_ID_PATTERN pattern in
  subn p repl text.

Definition mask_dob : handler := fun text pattern kw =>
  let repl (m : Match) : M World str :=
    let partial (m : Match) : M World str :=
      let raw := group0 m in
      ret (str_mul (get_char kw) (length raw)) in
    _apply_mask m (get_strategy kw) (get_char kw) (lit "DOB") partial in
  let p := default DOB_PATTERN pattern in
  subn p repl text.

Definition PII_HANDLERS : list (str * handler) :=
  [(lit "aadhaar", mask_aadhaar);
   (lit "pan", anonymize_pan);
   (lit "credit_card", mask_credit_cards);
   (lit "email", pseudo_email);
   (lit "passport", mask_passport);
   (lit "driving_license", mask_driving_license);
   (lit "phone", mask_phone);
   (lit "person", mask_person);
   (lit "voter_id", mask_voter_id);
   (lit "dob", mask_dob)].

(** * The record processor *)

(** [{key: 0 for key in PII_HANDLERS}] *)
Definition zero_counts (handlers : list (str * handler)) : gmap str nat :=
  list_to_map (map (fun kh => (fst kh, 0)) handlers).

(** [config.get("enabled")] for
    [config = (mask_configs or {}).get(key, {"enabled": False})]. *)
Definition config_of (mask_configs : option (gmap str MaskConfig)) (key : str)
  : option MaskConfig :=
  default ∅ mask_configs !! key.

Definition is_enabled (mask_configs : option (gmap str MaskConfig)) (key : str)
  : bool :=
  match config_of mask_configs key with
  | Some config => enabled config
  | None => false
  end.

(** The loop [for key, handler in PII_HANDLERS.items()] over a handler
    table, on the current [text] and [counts]. *)
Fixpoint process_loop (todo : list (str * handler))
    (patterns : option (gmap str regex))
    (mask_configs : option (gmap str MaskConfig))
    (text : str) (counts : gmap str nat) : M World (str * gmap str nat) :=
  match todo with
  | [] => ret (text, counts)
  | (key, handler) :: rest =>
      match config_of mask_configs key with
      | Some config =>
          if enabled config then
            let pattern_override := default ∅ patterns !! key in
            let kw := {| kw_strategy := Some (strategy config);
                         kw_char := Some (char config) |} in
            let* result := handler text pattern_override kw in
            let '(text, count) := result in
            match counts !! key with
            | None => raise                      (* KeyError *)
            | Some c =>
                process_loop rest patterns mask_configs text
                  (<[key := c + count]> counts)
            end
          else process_loop rest patterns mask_configs text counts
      | None => process_loop rest patterns mask_configs text counts
      end
  end.

(** [process_text], for a given handler table; the [context] argument is
    the context object of the world. *)
Definition process_text_with (handlers : list (str * handler)) (text : str)
    (patterns : option (gmap str regex))
    (mask_configs : option (gmap str MaskConfig)) : M World (str * gmap str nat) :=
  process_loop handlers patterns mask_configs text (zero_counts handlers).

Definition process_text : str -> option (gmap str regex) ->
    option (gmap str MaskConfig) -> M World (str * gmap str nat) :=
  process_text_with PII_HANDLERS.

(** [detect_and_deidentify_record]; an absent cell is [None]. *)
Fixpoint record_loop (row : list (option str))
    (patterns : option (gmap str regex))
    (mask_configs : option (gmap str MaskConfig))
    (out_row : list str) (total_counts : gmap str nat)
  : M World (list str * gmap str nat) :=
  match row with
  | [] => ret (out_row, total_counts)
  | cell :: rest =>
      let* result := process_text (default [] cell) patterns mask_configs in
      let '(masked_cell, cell_counts) := result in
      record_loop rest patterns mask_configs (out_row ++ [masked_cell])
        (map_imap (fun key n => Some (n + default 0 (cell_counts !! key)))
                  total_counts)
  end.

Definition detect_and_deidentify_record (row : list (option str))
    (patterns : option (gmap str regex))
    (mask_configs : option (gmap str MaskConfig))
  : M World (list str * gmap str nat) :=
  record_loop row patterns mask_configs [] (zero_counts PII_HANDLERS).

End Handlers.

(** * The metrics engine ([Worker._calculate_metrics] of [app.py]) *)

Module Metrics.

Open Scope Z_scope.

Definition float : Type := spec_float.
Definition prec : Z := 53.
Definition emax : Z := 1024.

Definition fadd : float -> float -> float := SFadd prec emax.
Definition fmul : float -> float -> float := SFmul prec emax.
Definition fdiv : float -> float -> float := SFdiv prec emax.

(** The literals [0.0], [0.8], [0.5], and [2] converted to [float]. *)
Definition f0 : float := S754_zero false.
Definition f08 : float := S754_finite false 7205759403792794 (-53).
Definition f05 : float := S754_finite false 4503599627370496 (-53).
Definition f2 : float := S754_finite false 4503599627370496 (-51).
Definition f1_0 : float := S754_finite false 4503599627370496 (-52).

(** An integer as an unrounded binary number. *)
Definition exact (z : Z) : float :=
  match z with
  | Z0 => S754_zero false
  | Zpos m => S754_finite false m 0
  | Zneg m => S754_finite true m 0
  end.

(** [a / b] on integers with [b] not zero, as every call has it: the
    quotient rounded once to the nearest [float]. *)
Definition int_truediv (a b : Z) : float := fdiv (exact a) (exact b).

(** [x > 0] and [x >= y] on floats. *)
Definition fpositive (x : float) : bool := SFltb f0 x.
Definition fge (x y : float) : bool := SFleb y x.

(** [min(a, b)] and [max(a, b)] on integers. *)
Definition py_min (a b : Z) : Z := if b <? a then b else a.
Definition py_max (a b : Z) : Z := if a <? b then b else a.

(** The local variables of one iteration of the loop. *)
Record Locals : Type := mkLocals {
  l_tp : Z;
  l_fp : Z;
  l_fn : Z;
  l_precision : float;
  l_recall : float;
  l_f1 : float;
  l_risk_level : str
}.

Definition risk_of (expected : option Z) (tp fp : Z) (precision : float) : str :=
  match expected with
  | None => lit "N/A"
  | Some _ =>
      if (tp =? 0) && (0 <? fp) then lit "Critical"
      else if (0 <? tp) && (fp =? 0) then lit "Low"
      else if fge precision f08 then lit "Medium"
      else if fge precision f05 then lit "High"
      else lit "Critical"
  end.

Definition locals (found : Z) (expected : option Z) : Locals :=
  let tp := match expected with Some e => py_min found e | None => found end in
  let fp := match expected with Some e => py_max 0 (found - e) | None => 0 end in
  let fn := match expected with Some e => py_max 0 (e - found) | None => 0 end in
  let precision := if 0 <? tp + fp then int_truediv tp (tp + fp) else f0 in
  let recall := if 0 <? tp + fn then int_truediv tp (tp + fn) else f0 in
  let f1 :=
    if fpositive (fadd precision recall)
    then fdiv (fmul f2 (fmul precision recall)) (fadd precision recall)
    else f0 in
  {| l_tp := tp; l_fp := fp; l_fn := fn; l_precision := precision;
     l_recall := recall; l_f1 := f1;
     l_risk_level := risk_of expected tp fp precision |}.

(** The dictionary stored in [metrics[key]]. *)
Record MetricEntry : Type := mkEntry {
  found : Z;
  expected : option Z;
  tp : Z;
  fp : Z;
  precision : float;
  recall : float;
  f1 : float;
  risk : str
}.

Definition entry (found : Z) (expected : option Z) : MetricEntry :=
  let l := locals found expected in
  {| found := found; expected := expected; tp := l_tp l; fp := l_fp l;
     precision := l_precision l; recall := l_recall l; f1 := l_f1 l;
     risk := l_risk_level l |}.

(** [_calculate_metrics], over the keys of a handler table. *)
Definition _calculate_metrics (keys : list str) (matches : gmap str Z)
    (expected_counts : gmap str (option Z)) : gmap str MetricEntry :=
  list_to_map
    (map (fun key =>
            (key, entry (default 0 (matches !! key))
                        (mjoin (expected_counts !! key))))
         keys).



End Metrics.

(** * Specification-level notions used by the theorems *)

Module ReSpec.

(** [n] successive matches of a relation, threading index and captures. *)
Fixpoint iterated (n : nat) (R : nat -> captures -> nat -> captures -> Prop)
    (i : nat) (c : captures) (j : nat) (c' : captures) : Prop :=
  match n with
  | 0 => j = i /\ c' = c
  | S n' => exists m cm, R i c m cm /\ iterated n' R m cm j c'
  end.

(** [denotes r s i c j c']: the text of [s] from index [i] up to [j] is
    in the language of [r], and the groups met on the way extend [c] to
    [c']. *)
Fixpoint denotes (r : regex) (s : str) (i : nat) (c : captures)
    (j : nat) (c' : captures) : Prop :=
  match r with
  | Eps => j = i /\ c' = c
  | Cls p => exists ch, s !! i = Some ch /\ p ch = true /\ j = S i /\ c' = c
  | Seq r1 r2 => exists m cm, denotes r1 s i c m cm /\ denotes r2 s m cm j c'
  | Alt r1 r2 => denotes r1 s i c j c' \/ denotes r2 s i c j c'
  | Rep r lo hi =>
      exists n, lo <= n /\ (forall h, hi = Some h -> n <= h)
                /\ iterated n (denotes r s) i c j c'
  | Grp n r => exists c0, denotes r s i c j c0 /\ c' = (n, (i, j)) :: c0
  | WordB => at_boundary s i = true /\ j = i /\ c' = c
  end.

(** Matches laid out from left to right inside a string, from [i] on. *)
Fixpoint in_order (len : nat) (ms : list Match) (i : nat) : Prop :=
  match ms with
  | [] => True
  | m :: rest =>
      i <= m_start m /\ m_start m <= m_end m /\ m_end m <= len
      /\ in_order len rest (m_end m)
  end.

(** The string obtained from [s] by replacing each match [m] of [ms] by
    [f m] and keeping everything else, from index [i] on. *)
Fixpoint splice_from (f : Match -> str) (s : str) (ms : list Match) (i : nat)
  : str :=
  match ms with
  | [] => drop i s
  | m :: rest => slice s i (m_start m) ++ f m ++ splice_from f s rest (m_end m)
  end.

Definition splice (f : Match -> str) (s : str) (ms : list Match) : str :=
  splice_from f s ms 0.

(** The number of matches that satisfy [acc]. *)
Definition count_if (acc : Match -> bool) (ms : list Match) : nat :=
  length (List.filter acc ms).

(** A body matcher is sound for a relation [R]: whenever it succeeds, it
    has run its continuation at a point that [R] relates to the start. *)
Definition sound_for {T : Type}
    (body : nat -> captures -> (nat -> captures -> option T) -> option T)
    (R : nat -> captures -> nat -> captures -> Prop) : Prop :=
  forall i c k x, body i c k = Some x ->
    exists j c', R i c j c' /\ k j c' = Some x.

(** Two continuations agree from index [i] to the end of a string of
    length [len]. *)
Definition agree_from {T : Type} (len i : nat)
    (k1 k2 : nat -> captures -> option T) : Prop :=
  forall j c, i <= j -> j <= len -> k1 j c = k2 j c.

(** A match object of pattern [r] on string [s]. *)
Definition match_of (r : regex) (s : str) (m : Match) : Prop :=
  m_string m = s /\ m_ngroups m = ngroups r
  /\ denotes r s (m_start m) [] (m_end m) (m_caps m).

End ReSpec.
Import ReSpec.

(** The digits a handler validates: the match with non-digits stripped. *)
Definition raw_digits (m : Match) : str :=
  re_sub_class (fun c => negb (is_decimal c)) [] (group0 m).

(** A match passes the card checksum. *)
Definition card_passes (m : Match) : bool :=
  match Luhn.luhn_checksum_ok (raw_digits m) with
  | Some true => true
  | _ => false
  end.

(** A handler table with the handler of [key] replaced by [h]. *)
Definition override (key : str) (h : handler) (handlers : list (str * handler))
  : list (str * handler) :=
  map (fun kh => if decide (fst kh = key) then (fst kh, h) else kh) handlers.

(** Calls against one context, tagged by category, in the order made; and
    their aliases. *)
Inductive category : Type := Email | Person.

Definition anonymizer_name (c : category) : str :=
  match c with
  | Email => lit "email_anonymizer"
  | Person => lit "person_anonymizer"
  end.

Fixpoint run_calls (d : gmap str EmailPseudonymizer) (calls : list (category * str))
  : list (category * str) * gmap str EmailPseudonymizer :=
  match calls with
  | [] => ([], d)
  | (c, key) :: rest =>
      let '(alias, d) := pseudonymize_in (anonymizer_name c) d key in
      let '(out, d) := run_calls d rest in
      ((c, alias) :: out, d)
  end.

(** The second components of the pairs tagged [c]. *)
Definition of_category (c : category) (l : list (category * str)) : list str :=
  omap (fun x => match c, fst x with
                 | Email, Email | Person, Person => Some (snd x)
                 | _, _ => None
                 end) l.

(** Data of the examples. *)
Module Examples.

Definition partial_star : MaskConfig :=
  {| enabled := true; strategy := lit "partial"; char := lit "*" |}.

Definition off : MaskConfig :=
  {| enabled := false; strategy := lit "partial"; char := lit "*" |}.

Definition category_keys : list str :=
  map lit ["aadhaar"; "pan"; "credit_card"; "email"; "passport";
           "driving_license"; "phone"; "person"; "voter_id"; "dob"]%string.

Definition all_enabled : gmap str MaskConfig :=
  list_to_map (map (fun k => (k, partial_star)) category_keys).

Definition all_disabled : gmap str MaskConfig :=
  list_to_map (map (fun k => (k, off)) category_keys).

Definition no_sha256 : list ascii -> str := fun _ => [].

Definition world_of (c : pyctx) : World :=
  {| context := c; draws := fun _ => 0%N; cursor := 0 |}.

(** The run context as the callers create it: [{}]. *)
Definition fresh_context : pyctx := CtxDict ∅.

(** A context that already holds an entry. *)
Definition seeded_context : pyctx :=
  CtxDict {[ lit "email_anonymizer" := new_pseudonymizer ]}.

Definition cell : str :=
  lit "Contact John Smith at john.smith@example.com, phone +91-9876543210".

Definition two_addresses : str := lit "a@x.com; b@x.com".

Definition partial_kwargs : kwargs :=
  {| kw_strategy := Some (lit "partial"); kw_char := Some (lit "*") |}.

(** A card number that passes Luhn, one that fails it, and a text with no
    card number at all. *)
Definition good_card : str := lit "card 4111 1111 1111 1111.".
Definition bad_card : str := lit "card 4111 1111 1111 1112.".
Definition no_card : str := lit "no card here".

(** Twelve digits that pass Verhoeff, and twelve that fail it. *)
Definition good_aadhaar : str := lit "id 2341 2341 2346".
Definition bad_aadhaar : str := lit "id 2341 2341 2347".

End Examples.

(** * Notions the statements are written with *)

(** The alias with number [n]. *)
Definition alias_of (n : nat) : str := lit "user" ++ str_of_nat n.

(** The state of a pseudonymizer that has met the distinct keys [seen], in
    that order. *)
Definition tracks (self : EmailPseudonymizer) (seen : list str) : Prop :=
  counter self = S (length seen)
  /\ forall k, mapping self !! k = alias_of <$> rank_in k seen.

(** The instance a category uses in a dictionary: the stored one, or a new
    one on first use. *)
Definition anonymizer_of (d : gmap str EmailPseudonymizer) (c : category)
  : EmailPseudonymizer :=
  default new_pseudonymizer (d !! anonymizer_name c).

(** Projections of a handler or processor result. *)
Definition text_of {A B : Type} (r : option ((str * A) * B)) : option str :=
  match r with
  | Some ((t, _), _) => Some t
  | None => None
  end.

Definition count_of {B : Type} (key : string)
    (r : option ((str * gmap str nat) * B)) : option nat :=
  match r with
  | Some ((_, counts), _) => counts !! lit key
  | None => None
  end.

Definition context_of {A : Type} (r : option (A * World)) : option pyctx :=
  match r with
  | Some (_, w) => Some (context w)
  | None => None
  end.

(** The alias recorded for [key] by the instance stored under [name]. *)
Definition alias_in (name key : string) (c : pyctx) : option str :=
  match c with
  | CtxDict d => a ← d !! lit name; mapping a !! lit key
  | _ => None
  end.

(** * The rest of the engine and its callers *)

(** What [_apply_mask] returns for a strategy other than partial: the
    branches below the first. *)
Definition fixed_replacement (sha256_hexdigest : list ascii -> str) (m : Match)
    (strategy mask_char pii_type : str) : str :=
  let original_text := group0 m in
  if decide (strategy = lit "full")
  then str_mul mask_char (length original_text)
  else if decide (strategy = lit "hash")
  then sha256_hexdigest (Utf8.encode original_text)
  else if decide (strategy = lit "encrypt")
  then encrypt_strategy original_text
  else if decide (strategy = lit "redact")
  then lit "[" ++ str_upper pii_type ++ lit "_REDACTED]"
  else original_text.

(** [apply_deidentification(text, strategy, pii_type, **kwargs)]:
    [kw_char] is [kwargs.get("char")]; with [has_context] the caller's
    context object, the one of the world, is passed on, without it a new
    [{}] serves for the call and is dropped afterwards. *)
Definition apply_deidentification (sha256_hexdigest : list ascii -> str)
    (text strategy pii_type : str) (kw_char : option str) (has_context : bool)
  : M World str := fun w =>
  let config := {| enabled := true; strategy := strategy;
                   char := default (lit "*") kw_char |} in
  let mask_configs : gmap str MaskConfig := {[ pii_type := config ]} in
  let w_call := if has_context then w else set_context (CtxDict ∅) w in
  match process_text sha256_hexdigest text None (Some mask_configs) w_call with
  | Some ((masked_text, _), w') =>
      Some (masked_text, if has_context then w' else set_context (context w) w')
  | None => None
  end.

(** The summary of a batch ([web_app.process_file], [Worker.run]). *)
Record Summary : Type := mkSummary {
  rows_processed : nat;
  matches : gmap str nat
}.

(** The loop [for row in input_rows] of [process_file]. *)
Fixpoint rows_loop (sha256_hexdigest : list ascii -> str)
    (input_rows : list (list (option str)))
    (patterns : option (gmap str regex))
    (mask_configs : option (gmap str MaskConfig))
    (deidentified_rows : list (list str)) (summary : Summary)
  : M World (list (list str) * Summary) :=
  match input_rows with
  | [] => ret (deidentified_rows, summary)
  | row :: rest =>
      (let* result :=
         detect_and_deidentify_record sha256_hexdigest row patterns mask_configs in
       let '(deid_row, row_counts) := result in
       rows_loop sha256_hexdigest rest patterns mask_configs
         (deidentified_rows ++ [deid_row])
         {| rows_processed := rows_processed summary + 1;
            matches := map_imap
                         (fun key n => Some (n + default 0 (row_counts !! key)))
                         (matches summary) |})%M
  end.

(** The processing part of [process_file]: a new context [{}], an empty
    summary, and the loop over the rows read. *)
Definition process_rows (sha256_hexdigest : list ascii -> str)
    (input_rows : list (list (option str)))
    (patterns : option (gmap str regex))
    (mask_configs : option (gmap str MaskConfig))
  : M World (list (list str) * Summary) := fun w =>
  let run_context := CtxDict ∅ in
  rows_loop sha256_hexdigest input_rows patterns mask_configs []
    {| rows_processed := 0;
       matches := zero_counts (PII_HANDLERS sha256_hexdigest) |}
    (set_context run_context w).

(** [s.lower()] on the Latin-1 block. *)
Definition lower_char (c : ascii) : ascii :=
  if is_upper c || in_range 192 214 c || in_range 216 222 c
  then chr (ord c + 32) else c.
Definition str_lower (s : str) : str := map lower_char s.

(** [ALLOWED_EXTENSIONS] and [allowed_file] of [web_app.py]. *)
Definition ALLOWED_EXTENSIONS : list str := [lit "csv"; lit "txt"; lit "pdf"].

Definition allowed_file (filename : str) : bool :=
  contains "." filename
  && match rsplit1 "." filename with
     | Some (_, ext) => bool_decide (str_lower ext ∈ ALLOWED_EXTENSIONS)
     | None => false                               (* IndexError *)
     end.

(** The sum of the count of [key] over a list of count mappings. *)
Definition total_of (key : str) (counts : list (gmap str nat)) : nat :=
  foldr (fun c acc => default 0 (c !! key) + acc) 0 counts.

(** The cells of a row run through [process_text] one after the other:
    the masked cells with their counts. *)
Fixpoint cells_run (sha256_hexdigest : list ascii -> str)
    (row : list (option str)) (patterns : option (gmap str regex))
    (mask_configs : option (gmap str MaskConfig))
  : M World (list (str * gmap str nat)) :=
  match row with
  | [] => ret []
  | cell :: rest =>
      (let* r := process_text sha256_hexdigest (default [] cell) patterns
                   mask_configs in
       let* rs := cells_run sha256_hexdigest rest patterns mask_configs in
       ret (r :: rs))%M
  end.

(** [s.isdigit()]: false on the empty string. *)
Definition str_isdigit (s : str) : bool :=
  match s with [] => false | _ => forallb isdigit s end.

(** The number a list of decimal digits writes. *)
Definition decimal_value (ds : list nat) : N :=
  foldl (fun acc d => (10 * acc + N.of_nat d)%N) 0%N ds.

(** [int(s)] on a string of digit characters, the only strings the callers
    pass: [ValueError] on the empty string, on a digit character that is
    not decimal, and on more than 4300 digits (the default limit of
    CPython for the conversion). *)
Definition int_of_digits (s : str) : option N :=
  match s with
  | [] => None
  | _ =>
      if forallb is_decimal s && (length s <=? 4300)
      then Some (decimal_value (digits_of s))
      else None
  end.

(** The expected count read from the text of an input field:
    [int(text) if text.isdigit() else None]; the outer [None] is the
    exception. *)
Definition expected_count_of (text : str) : option (option N) :=
  if str_isdigit text
  then match int_of_digits text with
       | Some n => Some (Some n)
       | None => None
       end
  else Some None.

(** * Notions the further statements are written with *)

(** Whether a pattern can match the empty string, read off its syntax:
    where it answers no, every match consumes a character
    ([not_nullable_consumes]). *)
Fixpoint nullable (r : regex) : bool :=
  match r with
  | Eps | WordB => true
  | Cls _ => false
  | Seq r1 r2 => nullable r1 && nullable r2
  | Alt r1 r2 => nullable r1 || nullable r2
  | Rep r lo _ => (lo =? 0) || nullable r
  | Grp _ r => nullable r
  end.

(** No repetition of the pattern has a body that can match the empty
    string: the patterns on which the matcher finds the matches of [re]. *)
Fixpoint consuming_reps (r : regex) : bool :=
  match r with
  | Seq r1 r2 | Alt r1 r2 => consuming_reps r1 && consuming_reps r2
  | Rep r _ _ => negb (nullable r) && consuming_reps r
  | Grp _ r => consuming_reps r
  | _ => true
  end.

(** What a handler does to the text under a strategy other than partial:
    the validating handlers keep the matches they reject. *)
Definition keeps_or_fixes (sha : list ascii -> str) (kw : kwargs)
    (f : Match -> str) : Prop :=
  forall m, f m = group0 m
            \/ exists pii_type,
                 f m = fixed_replacement sha m (get_strategy kw) (get_char kw) pii_type.

(** [raw[0] + char * (len(raw) - 1)] *)
Definition initial_kept (mask_char : str) (m : Match) : str :=
  take 1 (group0 m) ++ str_mul mask_char (length (group0 m) - 1).

(** A context the handlers do not use: [None], an object that is not a
    dictionary, or the empty dictionary. *)
Definition same_unusable (c : pyctx) (w : World) : Prop :=
  context w = c /\ usable_dict c = None.

(** A row of the permutation table of [aadhaar_verhoeff]. *)
Definition p_row (r n : nat) : nat := nth n (nth r Verhoeff.p_table []) 0.

(** The pairs of different digits whose exchange [aadhaar_verhoeff] does
    not see at the one position where it is blind. *)
Definition unseen_swaps : list (nat * nat) :=
  [(0, 7); (7, 0); (2, 7); (7, 2); (3, 7); (7, 3); (6, 9); (9, 6)].

Definition is_unseen (x y : nat) : bool :=
  existsb (fun q => (fst q =? x) && (snd q =? y)) unseen_swaps.

(** What a digit adds to the sum, by the parity of its place. *)
Definition weight (even_place : bool) (d : nat) : nat :=
  if even_place then Luhn.doubled d else d.

(** Inputs of the worked cases below. *)
Module Cases.

Definition hashed : MaskConfig :=
  {| enabled := true; strategy := lit "hash"; char := lit "*" |}.

Definition full_hash : MaskConfig :=
  {| enabled := true; strategy := lit "full"; char := lit "#" |}.

(** A configuration that enables the dates only. *)
Definition dates_hashed : gmap str MaskConfig := {[ lit "dob" := hashed ]}.
Definition dates_full : gmap str MaskConfig := {[ lit "dob" := full_hash ]}.

Definition birthday : str := lit "born 01/02/1990 in Pune".

(** A strategy name the engine does not know. *)
Definition mask_kwargs : kwargs :=
  {| kw_strategy := Some (lit "mask"); kw_char := Some (lit "*") |}.

Definition full_kwargs : kwargs :=
  {| kw_strategy := Some (lit "full"); kw_char := Some (lit "*") |}.

Definition passport : str := lit "passport K1234567 seen".

(** [\d*], a pattern that matches the empty string. *)
Definition digits_or_nothing : regex := Rep digit 0 None.
Definition licence : str := lit "DL MH-1220110012345 and KA0120110012345".

End Cases.

(** * Theorems *)

(** * Characters *)

Lemma is_decimal_int (c : ascii) :
  is_decimal c = true -> exists n, int_of_char c = Some n /\ n < 10.
Proof.
  unfold int_of_char. intros H. rewrite H. eexists; split; [reflexivity|].
  unfold is_decimal, in_range in H. apply andb_true_iff in H as [H1 H2].
  apply Nat.leb_le in H1, H2. lia.
Qed.

Lemma int_of_char_decimal (c : ascii) (n : nat) :
  int_of_char c = Some n -> is_decimal c = true /\ n < 10.
Proof.
  unfold int_of_char. destruct (is_decimal c) eqn:E; [|discriminate].
  intros [= <-]. split; [reflexivity|].
  unfold is_decimal, in_range in E. apply andb_true_iff in E as [H1 H2].
  apply Nat.leb_le in H1, H2. lia.
Qed.

Lemma strip_is_filter (s : str) :
  re_sub_class (fun c => negb (is_decimal c)) [] s
  = List.filter is_decimal s.
Proof.
  unfold re_sub_class. induction s as [|c s IH]; [reflexivity|].
  simpl. destruct (is_decimal c); simpl; now rewrite IH.
Qed.

Lemma strip_all_decimal (s : str) :
  Forall (fun c => is_decimal c = true)
         (re_sub_class (fun c => negb (is_decimal c)) [] s).
Proof.
  rewrite strip_is_filter. induction s as [|c s IH]; simpl; [constructor|].
  destruct (is_decimal c) eqn:E; [constructor|]; assumption.
Qed.

Lemma digits_of_cons (c : ascii) (s : str) :
  digits_of (c :: s)
  = match int_of_char c with
    | Some n => n :: digits_of s
    | None => digits_of s
    end.
Proof. reflexivity. Qed.

Lemma digits_of_strip (s : str) :
  digits_of (re_sub_class (fun c => negb (is_decimal c)) [] s) = digits_of s.
Proof.
  rewrite strip_is_filter.
  induction s as [|c s IH]; [reflexivity|].
  rewrite digits_of_cons. cbn [List.filter].
  unfold int_of_char. destruct (is_decimal c) eqn:E.
  - rewrite digits_of_cons. unfold int_of_char. rewrite E. now rewrite IH.
  - exact IH.
Qed.

Lemma digits_of_app (s t : str) : digits_of (s ++ t) = digits_of s ++ digits_of t.
Proof. unfold digits_of. apply omap_app. Qed.

Lemma digits_of_rev (s : str) : digits_of (rev s) = rev (digits_of s).
Proof.
  induction s as [|c s IH]; [reflexivity|].
  cbn [rev]. rewrite digits_of_app, IH, !digits_of_cons.
  change (digits_of []) with (@nil nat).
  destruct (int_of_char c); cbn [rev]; [reflexivity|now rewrite app_nil_r].
Qed.

Lemma digits_of_length (s : str) :
  Forall (fun c => is_decimal c = true) s -> length (digits_of s) = length s.
Proof.
  induction 1 as [|c s Hc _ IH]; [reflexivity|].
  rewrite digits_of_cons. unfold int_of_char. rewrite Hc. cbn [length].
  now rewrite IH.
Qed.

Lemma digits_of_bound (s : str) : Forall (fun n => n < 10) (digits_of s).
Proof.
  induction s as [|c s IH]; [constructor|].
  rewrite digits_of_cons. destruct (int_of_char c) eqn:E; [|exact IH].
  constructor; [|exact IH]. now apply int_of_char_decimal in E.
Qed.

(** * Verhoeff *)

Module VerhoeffFacts.
Import Verhoeff.

(** Case analysis on a number below a bound. *)
Lemma below_cases (k : nat) (P : nat -> Prop) :
  Forall P (seq 0 k) -> forall n, n < k -> P n.
Proof.
  intros H n Hn. rewrite Forall_forall in H. apply H.
  apply elem_of_seq. lia.
Qed.

Ltac each_below k :=
  match goal with
  | |- forall x, x < _ -> @?Q x => apply (below_cases k Q)
  end;
  cbn [seq]; repeat apply Forall_cons_2; try apply Forall_nil_2; cbv beta.

Lemma p_row_lookup (r n : nat) :
  r < 8 -> n < 10 ->
  index2 p_table r n = Some (nth n (nth r p_table []) 0)
  /\ nth n (nth r p_table []) 0 < 10.
Proof.
  intros Hr. revert n. revert r Hr.
  each_below 8; each_below 10; (vm_compute; split; [reflexivity|lia]).
Qed.

Lemma p_lookup (i n : nat) :
  n < 10 -> index2 p_table (i mod 8) n = Some (p i n) /\ p i n < 10.
Proof.
  intros Hn. unfold p. apply p_row_lookup; [|exact Hn].
  apply Nat.mod_upper_bound. lia.
Qed.

Lemma d_lookup (c x : nat) :
  c < 10 -> x < 10 -> index2 d_table c x = Some (d c x) /\ d c x < 10.
Proof.
  intros Hc. revert x. revert c Hc.
  each_below 10; each_below 10; (vm_compute; split; [reflexivity|lia]).
Qed.

Lemma walk_check_from (items : str) :
  forall i c, c < 10 ->
    Forall (fun ch => is_decimal ch = true) items ->
    walk items i c = Some (check_from i c (digits_of items))
    /\ check_from i c (digits_of items) < 10.
Proof.
  induction items as [|item rest IH]; intros i c Hc Hall.
  - simpl. split; [reflexivity|exact Hc].
  - inversion Hall as [|? ? Hitem Hrest]; subst.
    destruct (is_decimal_int _ Hitem) as (n & Hn & Hlt).
    destruct (p_lookup i n Hlt) as [Hp Hpb].
    destruct (d_lookup c (p i n) Hc Hpb) as [Hd Hdb].
    rewrite digits_of_cons, Hn. cbn [walk check_from].
    rewrite Hn. cbn [mbind option_bind]. rewrite Hp. cbn [mbind option_bind].
    rewrite Hd. cbn [mbind option_bind]. apply IH; assumption.
Qed.

End VerhoeffFacts.

(** * Luhn *)

Module LuhnFacts.
Import Luhn.

Lemma digit_list_decimal (number : str) :
  (forall c, In c number -> isdigit c = true -> is_decimal c = true) ->
  digit_list number = Some (digits_of number).
Proof.
  unfold digit_list. induction number as [|c s IH]; intros H; [reflexivity|].
  assert (IH' : mapM int_of_char (filter (fun c => isdigit c = true) s)
                = Some (digits_of s)) by (apply IH; intros; apply H; [now right|assumption]).
  rewrite digits_of_cons. destruct (isdigit c) eqn:E.
  - rewrite filter_cons_True by assumption.
    assert (Hd : is_decimal c = true) by (apply H; [now left|assumption]).
    destruct (is_decimal_int _ Hd) as (n & Hn & _).
    cbn [mapM]. rewrite Hn, IH'. reflexivity.
  - rewrite filter_cons_False by (rewrite E; discriminate).
    unfold int_of_char. destruct (is_decimal c) eqn:Hd; [|exact IH'].
    unfold isdigit in E. rewrite Hd in E. discriminate.
Qed.

Lemma step_doubled (parity i d : nat) :
  d < 10 ->
  step parity i d = if i mod 2 =? parity then doubled d else d.
Proof.
  intros Hd. unfold step, doubled.
  destruct (i mod 2 =? parity).
  - replace (d * 2) with (2 * d) by lia. reflexivity.
  - destruct (9 <? d) eqn:E; [|reflexivity]. apply Nat.ltb_lt in E. lia.
Qed.

Lemma loop_sum_left (ds : list nat) :
  forall i total,
    Forall (fun d => d < 10) ds ->
    loop ((i + length ds) mod 2) ds i total = total + sum_left ds.
Proof.
  induction ds as [|d rest IH]; intros i total Hall.
  - simpl. lia.
  - inversion Hall as [|? ? Hd Hrest]; subst.
    cbn [loop sum_left]. rewrite step_doubled by assumption.
    replace (i + length (d :: rest)) with (S i + length rest)
      by (cbn [length]; lia).
    rewrite IH by assumption.
    assert (E : (i mod 2 =? (S i + length rest) mod 2)
                = Nat.even (length (d :: rest))).
    { cbn [length]. rewrite Nat.even_succ, <- Nat.negb_even.
      destruct (Nat.even (length rest)) eqn:Ev.
      - apply Nat.even_spec in Ev as [k Hk]. rewrite Hk.
        apply Nat.eqb_neq. lia.
      - apply (f_equal negb) in Ev. rewrite Nat.negb_even in Ev.
        apply Nat.odd_spec in Ev as [k Hk]. rewrite Hk.
        apply Nat.eqb_eq. lia. }
    rewrite E. lia.
Qed.

Lemma sum_from_right_snoc (l : list nat) :
  forall d,
    sum_from_right (l ++ [d])
    = sum_from_right l + (if Nat.even (length l) then d else doubled d).
Proof.
  assert (H : forall n (l : list nat), length l <= n -> forall d,
             sum_from_right (l ++ [d])
             = sum_from_right l + (if Nat.even (length l) then d else doubled d)).
  { clear l. induction n as [|n IH]; intros l Hlen d;
      destruct l as [|a [|b rest]]; cbn [length] in Hlen; try lia;
      try (cbn [app sum_from_right length Nat.even]; lia).
    change ((a :: b :: rest) ++ [d]) with (a :: b :: (rest ++ [d])).
    cbn [sum_from_right length].
    rewrite (IH rest) by lia.
    change (Nat.even (S (S (length rest)))) with (Nat.even (length rest)).
    lia. }
  intros d. apply (H (length l)). lia.
Qed.

Lemma sum_left_luhn_sum (ds : list nat) : sum_left ds = luhn_sum ds.
Proof.
  unfold luhn_sum. induction ds as [|d rest IH]; [reflexivity|].
  cbn [rev sum_left]. rewrite sum_from_right_snoc, length_rev, <- IH.
  cbn [length]. rewrite Nat.even_succ, <- Nat.negb_even.
  destruct (Nat.even (length rest)); cbn [negb]; lia.
Qed.

(** On digits, the loop of the code computes the Luhn sum. *)
Lemma loop_luhn_sum (ds : list nat) :
  Forall (fun d => d < 10) ds ->
  loop (length ds mod 2) ds 0 0 = luhn_sum ds.
Proof.
  intros H. rewrite <- sum_left_luhn_sum.
  apply (loop_sum_left ds 0 0 H).
Qed.

(** The validator on a string whose digit characters are all decimal. *)
Lemma luhn_checksum_ok_decimal (number : str) :
  (forall c, In c number -> isdigit c = true -> is_decimal c = true) ->
  let n := length (digits_of number) in
  luhn_checksum_ok number
  = Some ((13 <=? n) && (n <=? 19)
          && (luhn_sum (digits_of number) mod 10 =? 0)).
Proof.
  intros H n. unfold luhn_checksum_ok. rewrite digit_list_decimal by assumption.
  cbn [mbind option_bind]. fold n.
  destruct ((13 <=? n) && (n <=? 19)); cbn [negb andb]; [|reflexivity].
  unfold n. rewrite loop_luhn_sum by apply digits_of_bound. reflexivity.
Qed.

Lemma luhn_sum_last (payload : list nat) (c : nat) :
  luhn_sum (payload ++ [c]) = c + luhn_sum (payload ++ [0]).
Proof.
  unfold luhn_sum. rewrite !rev_app_distr. cbn [rev app].
  destruct (rev payload) as [|a l]; cbn [sum_from_right]; lia.
Qed.

Lemma check_digit_closes (payload : list nat) :
  check_digit payload < 10
  /\ luhn_sum (payload ++ [check_digit payload]) mod 10 = 0.
Proof.
  rewrite luhn_sum_last. unfold check_digit.
  generalize (luhn_sum (payload ++ [0])). intros s. lia.
Qed.

Lemma digit_char_decimal (d : nat) :
  d < 10 -> is_decimal (digit_char d) = true /\ int_of_char (digit_char d) = Some d.
Proof.
  revert d. VerhoeffFacts.each_below 10; split; reflexivity.
Qed.

Lemma digits_of_digit_chars (ds : list nat) :
  Forall (fun d => d < 10) ds ->
  digits_of (map digit_char ds) = ds
  /\ Forall (fun c => is_decimal c = true) (map digit_char ds).
Proof.
  induction 1 as [|d rest Hd _ [IH1 IH2]]; [split; [reflexivity|constructor]|].
  destruct (digit_char_decimal d Hd) as [H1 H2].
  cbn [map]. rewrite digits_of_cons, H2, IH1. split; [reflexivity|].
  constructor; assumption.
Qed.

(** Every digit string of length 13 to 19 that ends in the standard
    check digit of what precedes it is accepted. *)
Lemma luhn_check_digit_accepted (payload : list nat) :
  Forall (fun d => d < 10) payload ->
  12 <= length payload <= 18 ->
  luhn_checksum_ok (map digit_char (payload ++ [check_digit payload])) = Some true.
Proof.
  intros Hall Hlen.
  destruct (check_digit_closes payload) as [Hc Hsum].
  assert (Hall' : Forall (fun d => d < 10) (payload ++ [check_digit payload])).
  { apply Forall_app. split; [assumption|]. constructor; [assumption|constructor]. }
  destruct (digits_of_digit_chars _ Hall') as [Hd Hdec].
  pose proof (luhn_checksum_ok_decimal
                (map digit_char (payload ++ [check_digit payload]))) as L.
  cbv zeta in L. rewrite L.
  - rewrite Hd, Hsum, length_app. cbn [length].
    replace (13 <=? length payload + 1) with true
      by (symmetry; apply Nat.leb_le; lia).
    replace (length payload + 1 <=? 19) with true
      by (symmetry; apply Nat.leb_le; lia).
    reflexivity.
  - intros c Hin _. rewrite Forall_forall in Hdec. apply Hdec.
    apply list_elem_of_In. exact Hin.
Qed.

End LuhnFacts.

(** * The XOR transform *)

Lemma lxor_below_256 (a b : N) : (a < 256 -> b < 256 -> N.lxor a b < 256)%N.
Proof.
  intros Ha Hb.
  destruct (N.eq_dec (N.lxor a b) 0%N) as [E|E]; [rewrite E; lia|].
  change 256%N with (2 ^ 8)%N. apply N.log2_lt_pow2; [lia|].
  eapply N.le_lt_trans; [apply N.log2_lxor|].
  apply N.max_lub_lt.
  - destruct (N.eq_dec a 0%N) as [->|Ha0]; [reflexivity|].
    apply N.log2_lt_pow2; [lia|exact Ha].
  - destruct (N.eq_dec b 0%N) as [->|Hb0]; [reflexivity|].
    apply N.log2_lt_pow2; [lia|exact Hb].
Qed.

Lemma xor_char_involutive (c k : ascii) : xor_char (xor_char c k) k = c.
Proof.
  unfold xor_char.
  rewrite N_ascii_embedding
    by (apply lxor_below_256; apply N_ascii_bounded).
  rewrite N.lxor_assoc, N.lxor_nilpotent, N.lxor_0_r.
  apply ascii_N_embedding.
Qed.

Lemma zip_xor_involutive (ks : str) :
  forall text : str,
    length text <= length ks ->
    map (fun ck => xor_char (fst ck) (snd ck))
        (zip (map (fun ck => xor_char (fst ck) (snd ck)) (zip text ks)) ks)
    = text.
Proof.
  induction ks as [|k ks IH]; intros [|c text] Hlen; cbn [length] in Hlen;
    try reflexivity; try lia.
  cbn [zip map fst snd]. rewrite xor_char_involutive, IH by lia. reflexivity.
Qed.

Lemma zip_length_le {A B : Type} (l : list A) :
  forall l' : list B, length l <= length l' -> length (zip l l') = length l.
Proof.
  induction l as [|x l IH]; intros [|y l'] H; cbn [length] in *;
    try reflexivity; try lia.
  cbn [zip length]. rewrite IH by lia. reflexivity.
Qed.

Lemma str_mul_length (s : str) (n : nat) : length (str_mul s n) = n * length s.
Proof.
  induction n as [|n IH]; [reflexivity|].
  cbn [str_mul]. rewrite length_app, IH. lia.
Qed.

Lemma keystream_covers (text key : str) :
  0 < length key ->
  length text <= length (str_mul key (length text / length key + 1)).
Proof.
  intros Hk. rewrite str_mul_length.
  pose proof (Nat.div_mod_eq (length text) (length key)) as E.
  pose proof (Nat.mod_upper_bound (length text) (length key)) as B.
  nia.
Qed.

Lemma encrypt_decrypt_length (text key : str) :
  0 < length key -> length (encrypt_decrypt text key) = length text.
Proof.
  intros Hk. unfold encrypt_decrypt.
  rewrite length_map, zip_length_le; [reflexivity|].
  now apply keystream_covers.
Qed.

Lemma encrypt_decrypt_involutive (text key : str) :
  0 < length key ->
  encrypt_decrypt (encrypt_decrypt text key) key = text.
Proof.
  intros Hk. unfold encrypt_decrypt at 1.
  rewrite encrypt_decrypt_length by assumption.
  unfold encrypt_decrypt. apply zip_xor_involutive.
  now apply keystream_covers.
Qed.

(** * UTF-8 *)

Lemma utf8_decode_encode_char (c : ascii) (rest : list ascii) :
  Utf8.decode (Utf8.encode_char c ++ rest) = cons c <$> Utf8.decode rest.
Proof.
  destruct c as [[] [] [] [] [] [] [] []]; reflexivity.
Qed.

Lemma utf8_decode_encode (s : str) : Utf8.decode (Utf8.encode s) = Some s.
Proof.
  unfold Utf8.encode. induction s as [|c s IH]; [reflexivity|].
  cbn [flat_map]. rewrite utf8_decode_encode_char, IH. reflexivity.
Qed.

(** * Base64 *)

Module Base64Facts.
Import Base64.

Lemma decode_encode_sextet (x : sextet) : decode_sextet (encode_sextet x) = Some x.
Proof.
  destruct x as [[[[[[] []] []] []] []] []]; vm_compute; reflexivity.
Qed.

Lemma encode_sextet_not_pad (x : sextet) : Ascii.eqb (encode_sextet x) pad = false.
Proof.
  destruct x as [[[[[[] []] []] []] []] []]; vm_compute; reflexivity.
Qed.

Lemma join4_split3 (a b c : ascii) :
  let '(w, x, y, z) := split3 a b c in join4 w x y z = (a, b, c).
Proof. destruct a, b, c. reflexivity. Qed.

Lemma b64decode_encode (bs : list ascii) : b64decode (b64encode bs) = Some bs.
Proof.
  assert (H : forall n (bs : list ascii), length bs <= n ->
              b64decode (b64encode bs) = Some bs).
  { clear bs. induction n as [|n IH]; intros bs Hlen;
      destruct bs as [|a [|b [|c rest]]]; cbn [length] in Hlen;
      try lia; try reflexivity.
    - destruct a. cbn [b64encode split3 zero_byte Ascii.zero b64decode].
      rewrite !decode_encode_sextet. cbn [mbind option_bind].
      rewrite Ascii.eqb_refl. reflexivity.
    - destruct a, b. cbn [b64encode split3 zero_byte Ascii.zero b64decode].
      rewrite !decode_encode_sextet. cbn [mbind option_bind].
      rewrite Ascii.eqb_refl, encode_sextet_not_pad. reflexivity.
    - destruct a, b, c. cbn [b64encode split3 b64decode].
      rewrite !decode_encode_sextet. cbn [mbind option_bind].
      rewrite encode_sextet_not_pad.
      cbn [mbind option_bind join4].
      rewrite (IH rest) by lia. reflexivity. }
  apply (H (length bs)). lia.
Qed.

End Base64Facts.

Lemma decrypt_encrypt (original_text : str) :
  decrypt_strategy (encrypt_strategy original_text) = Some original_text.
Proof.
  unfold decrypt_strategy, encrypt_strategy.
  rewrite Base64Facts.b64decode_encode. cbn [mbind option_bind].
  rewrite utf8_decode_encode. cbn [mbind option_bind].
  rewrite encrypt_decrypt_involutive; [reflexivity|].
  vm_compute. lia.
Qed.

(** * The matcher is sound for the denotation of patterns *)

Section MatcherSound.

Context {T : Type}.

Lemma rep_iter_sound body R lo hi (k : nat -> captures -> option T) :
  sound_for body R ->
  forall fuel n i c x,
    (forall h, hi = Some h -> n <= h) ->
    rep_iter body lo hi k fuel n i c = Some x ->
    exists m j c',
      lo <= n + m /\ (forall h, hi = Some h -> n + m <= h)
      /\ iterated m R i c j c' /\ k j c' = Some x.
Proof.
  intros Hbody.
  assert (Hstop : forall n i c x,
             (forall h, hi = Some h -> n <= h) ->
             (if lo <=? n then k i c else None) = Some x ->
             exists m j c',
               lo <= n + m /\ (forall h, hi = Some h -> n + m <= h)
               /\ iterated m R i c j c' /\ k j c' = Some x).
  { intros n i c x Hn H. destruct (lo <=? n) eqn:E; [|discriminate].
    apply Nat.leb_le in E. exists 0, i, c.
    rewrite Nat.add_0_r. repeat split; assumption. }
  induction fuel as [|fuel IH]; intros n i c x Hn H; cbn [rep_iter] in H.
  - now apply Hstop.
  - destruct (below hi n) eqn:Hb; [|now apply Hstop].
    match type of H with
    | match ?e with _ => _ end = _ => destruct e as [y|] eqn:Hm
    end; [|now apply Hstop].
    injection H as ->.
    apply Hbody in Hm as (j & c' & HR & Hk).
    destruct ((j =? i) && (lo <=? n)); [discriminate|].
    apply IH in Hk as (m & j' & c'' & Hlo & Hhi & Hit & Hk).
    + exists (S m), j', c''. repeat split.
      * lia.
      * intros h Hh. specialize (Hhi h Hh). lia.
      * cbn [iterated]. exists j, c'. split; assumption.
      * exact Hk.
    + intros h Hh. subst hi. cbn [below] in Hb. apply Nat.ltb_lt in Hb. lia.
Qed.

End MatcherSound.

Lemma rmatch_sound (r : regex) (s : str) :
  forall (T : Type) i c (k : nat -> captures -> option T) x,
    rmatch r s i c k = Some x ->
    exists j c', denotes r s i c j c' /\ k j c' = Some x.
Proof.
  induction r as [|p|r1 IH1 r2 IH2|r1 IH1 r2 IH2|r IH lo hi|n r IH|];
    intros T i c k x H; cbn [rmatch] in H; cbn [denotes].
  - exists i, c. auto.
  - destruct (s !! i) as [ch|] eqn:E; [|discriminate].
    destruct (p ch) eqn:Hp; [|discriminate].
    exists (S i), c. split; [exists ch; auto|exact H].
  - apply IH1 in H as (m & cm & H1 & H).
    apply IH2 in H as (j & c' & H2 & H).
    exists j, c'. split; [exists m, cm; auto|exact H].
  - destruct (rmatch r1 s i c k) as [y|] eqn:E.
    + injection H as ->. apply IH1 in E as (j & c' & H1 & Hk).
      exists j, c'. auto.
    + apply IH2 in H as (j & c' & H2 & Hk). exists j, c'. auto.
  - eapply (rep_iter_sound _ (denotes r s)) in H.
    + destruct H as (m & j & c' & Hlo & Hhi & Hit & Hk).
      exists j, c'. split; [exists m; auto|exact Hk].
    + intros i' c0 k' x' H'. now apply IH in H'.
    + intros h _. lia.
  - apply IH in H as (j & c' & H1 & Hk).
    exists j, ((n, (i, j)) :: c'). split; [exists c'; auto|exact Hk].
  - destruct (at_boundary s i) eqn:E; [|discriminate].
    exists i, c. auto.
Qed.

Lemma iterated_bounds (R : nat -> captures -> nat -> captures -> Prop) (len : nat) :
  (forall i c j c', R i c j c' -> i <= j /\ (i <= len -> j <= len)) ->
  forall n i c j c', iterated n R i c j c' -> i <= j /\ (i <= len -> j <= len).
Proof.
  intros HR. induction n as [|n IH]; intros i c j c'; cbn [iterated].
  - intros [-> _]. auto.
  - intros (m & cm & H1 & H2). apply HR in H1. apply IH in H2. lia.
Qed.

(** A match never moves left and never leaves the string. *)
Lemma denotes_bounds (r : regex) (s : str) :
  forall i c j c', denotes r s i c j c' ->
    i <= j /\ (i <= length s -> j <= length s).
Proof.
  induction r as [|p|r1 IH1 r2 IH2|r1 IH1 r2 IH2|r IH lo hi|n r IH|];
    intros i c j c'; cbn [denotes].
  - intros [-> _]. auto.
  - intros (ch & E & _ & -> & _). apply lookup_lt_Some in E. lia.
  - intros (m & cm & H1 & H2). apply IH1 in H1. apply IH2 in H2. lia.
  - intros [H|H]; [now apply IH1 in H|now apply IH2 in H].
  - intros (n & _ & _ & H). revert H. now apply iterated_bounds.
  - intros (c0 & H & _). now apply IH in H.
  - intros (_ & -> & _). auto.
Qed.

Lemma search_sound (r : regex) (s : str) :
  forall n start must_advance b e caps,
    search r s n start must_advance = Some (b, e, caps) ->
    start <= b <= start + n /\ denotes r s b [] e caps.
Proof.
  induction n as [|n IH]; intros start ma b e caps H; cbn [search] in H.
  - destruct (rmatch r s start [] _) as [y|] eqn:E; [|discriminate].
    injection H as ->. apply rmatch_sound in E as (j & c' & Hd & Hk).
    destruct (ma && (j =? start)); [discriminate|].
    injection Hk as <- <- <-. split; [lia|exact Hd].
  - destruct (rmatch r s start [] _) as [y|] eqn:E.
    + injection H as ->. apply rmatch_sound in E as (j & c' & Hd & Hk).
      destruct (ma && (j =? start)); [discriminate|].
      injection Hk as <- <- <-. split; [lia|exact Hd].
    + apply IH in H as [Hb Hd]. split; [lia|exact Hd].
Qed.

Lemma scan_sound (r : regex) (s : str) :
  forall fuel pos must_advance,
    pos <= length s ->
    Forall (match_of r s) (scan r s fuel pos must_advance)
    /\ in_order (length s) (scan r s fuel pos must_advance) pos.
Proof.
  induction fuel as [|fuel IH]; intros pos ma Hpos; cbn [scan].
  - split; [constructor|exact I].
  - destruct (search r s (length s - pos) pos ma) as [[[b e] caps]|] eqn:E.
    + apply search_sound in E as [Hb Hd].
      pose proof (denotes_bounds _ _ _ _ _ _ Hd) as [Hbe Hlen].
      assert (He : e <= length s) by (apply Hlen; lia).
      destruct (IH e (e =? b) He) as [IH1 IH2].
      split.
      * constructor; [|exact IH1]. repeat split; assumption.
      * cbn [in_order m_start m_end]. repeat split; try lia. exact IH2.
    + split; [constructor|exact I].
Qed.

Lemma finditer_sound (r : regex) (s : str) :
  Forall (match_of r s) (finditer r s)
  /\ in_order (length s) (finditer r s) 0.
Proof. apply scan_sound. lia. Qed.

(** Replacing each match by the text it matched gives the string back. *)
Lemma slice_drop (s : str) (i b e : nat) :
  i <= b -> b <= e ->
  slice s i b ++ slice s b e ++ drop e s = drop i s.
Proof.
  intros Hib Hbe. unfold slice.
  rewrite <- (take_drop (b - i) (drop i s)) at 2.
  f_equal. rewrite drop_drop. replace (i + (b - i)) with b by lia.
  rewrite <- (take_drop (e - b) (drop b s)) at 2.
  f_equal. rewrite drop_drop. f_equal. lia.
Qed.

Lemma splice_from_same (f : Match -> str) (s : str) (ms : list Match) :
  forall i,
    in_order (length s) ms i ->
    Forall (fun m => f m = slice s (m_start m) (m_end m)) ms ->
    splice_from f s ms i = drop i s.
Proof.
  induction ms as [|m rest IH]; intros i Hord Hall; [reflexivity|].
  cbn [in_order] in Hord. destruct Hord as (H1 & H2 & H3 & Hord).
  inversion Hall as [|? ? Hm Hrest]; subst.
  cbn [splice_from]. rewrite (IH _ Hord Hrest), Hm.
  now apply slice_drop.
Qed.

(** * Patterns whose repetitions consume *)

(** A pattern that cannot match the empty string consumes a character
    whenever it matches: in a repetition of such a body no iteration is
    empty. *)
Lemma not_nullable_consumes (r : regex) (s : str) :
  nullable r = false ->
  forall i c j c', denotes r s i c j c' -> i < j.
Proof.
  induction r as [|p|r1 IH1 r2 IH2|r1 IH1 r2 IH2|r IH lo hi|n r IH|];
    cbn [nullable]; intros Hn i c j c'; cbn [denotes]; try discriminate Hn.
  - intros (ch & _ & _ & -> & _). lia.
  - intros (m & cm & H1 & H2).
    pose proof (denotes_bounds r1 s _ _ _ _ H1) as [B1 _].
    pose proof (denotes_bounds r2 s _ _ _ _ H2) as [B2 _].
    apply andb_false_iff in Hn as [Hn|Hn].
    + specialize (IH1 Hn _ _ _ _ H1). lia.
    + specialize (IH2 Hn _ _ _ _ H2). lia.
  - apply orb_false_iff in Hn as [Hn1 Hn2].
    intros [H|H]; [exact (IH1 Hn1 _ _ _ _ H)|exact (IH2 Hn2 _ _ _ _ H)].
  - apply orb_false_iff in Hn as [Hlo Hr]. apply Nat.eqb_neq in Hlo.
    intros (n & Hge & _ & Hit). destruct n as [|n]; [lia|].
    cbn [iterated] in Hit. destruct Hit as (m & cm & H1 & Hrest).
    specialize (IH Hr _ _ _ _ H1).
    apply (iterated_bounds _ (length s)) in Hrest; [lia|].
    intros ? ? ? ?. apply denotes_bounds.
  - intros (c0 & H & _). exact (IH Hn _ _ _ _ H).
Qed.

(** The ten patterns of the source are of this kind, and none of them
    matches the empty string. *)
Lemma source_patterns_consume :
  Forall (fun r => consuming_reps r = true /\ nullable r = false)
    [AADHAAR_PATTERN; PAN_PATTERN; CREDIT_CARD_PATTERN; EMAIL_PATTERN;
     PASSPORT_PATTERN; DRIVING_LICENSE_PATTERN; PHONE_PATTERN; PERSON_PATTERN;
     VOTER_ID_PATTERN; DOB_PATTERN].
Proof. repeat constructor. Qed.

(** * The fuel of the matcher is enough *)

Lemma rep_iter_ext {T : Type} (len : nat)
    (body : nat -> captures -> (nat -> captures -> option T) -> option T)
    (lo : nat) (hi : option nat) :
  (forall i c k1 k2, i <= len -> agree_from len i k1 k2 -> body i c k1 = body i c k2) ->
  forall fuel n i c k1 k2,
    i <= len -> agree_from len i k1 k2 ->
    rep_iter body lo hi k1 fuel n i c = rep_iter body lo hi k2 fuel n i c.
Proof.
  intros Hbody. induction fuel as [|fuel IH]; intros n i c k1 k2 Hi Hk;
    cbn [rep_iter]; rewrite (Hk i c) by lia; [reflexivity|].
  destruct (below hi n); [|reflexivity].
  erewrite Hbody; [reflexivity|exact Hi|].
  intros j c' Hij Hj. destruct ((j =? i) && (lo <=? n)); [reflexivity|].
  apply IH; [exact Hj|]. intros j' c'' H1 H2. apply Hk; lia.
Qed.

(** The matcher consults its continuation only between the start index and
    the end of the string. *)
Lemma rmatch_ext (r : regex) (s : str) :
  forall (T : Type) i c (k1 k2 : nat -> captures -> option T),
    i <= length s -> agree_from (length s) i k1 k2 ->
    rmatch r s i c k1 = rmatch r s i c k2.
Proof.
  induction r as [|p|r1 IH1 r2 IH2|r1 IH1 r2 IH2|r IH lo hi|n r IH|];
    intros T i c k1 k2 Hi Hk; cbn [rmatch].
  - apply Hk; lia.
  - destruct (s !! i) as [ch|] eqn:E; [|reflexivity].
    apply lookup_lt_Some in E. destruct (p ch); [|reflexivity]. apply Hk; lia.
  - apply IH1; [exact Hi|]. intros j c' Hij Hj. apply IH2; [exact Hj|].
    intros j' c'' H1 H2. apply Hk; lia.
  - rewrite (IH1 T i c k1 k2 Hi Hk), (IH2 T i c k1 k2 Hi Hk). reflexivity.
  - apply (rep_iter_ext (length s)); [|exact Hi|exact Hk].
    intros i' c' k1' k2' Hi' Hk'. now apply IH.
  - apply IH; [exact Hi|]. intros j c' Hij Hj. apply Hk; lia.
  - destruct (at_boundary s i); [|reflexivity]. apply Hk; lia.
Qed.

Lemma rmatch_refused (r : regex) (s : str) (T : Type) (i : nat) (c : captures) :
  rmatch r s i c (fun _ _ => @None T) = None.
Proof.
  destruct (rmatch r s i c (fun _ _ => None)) as [x|] eqn:E; [|reflexivity].
  apply rmatch_sound in E as (j & c' & _ & H). discriminate.
Qed.

(** One more unit of fuel changes nothing once the fuel covers the
    iterations still owed and the characters still ahead. *)
Lemma rep_iter_fuel {T : Type} (r : regex) (s : str) (lo : nat) (hi : option nat)
    (k : nat -> captures -> option T) :
  forall fuel n i c,
    i <= length s ->
    (lo - n) + (length s - i) <= fuel ->
    rep_iter (fun j caps' k' => rmatch r s j caps' k') lo hi k (S fuel) n i c
    = rep_iter (fun j caps' k' => rmatch r s j caps' k') lo hi k fuel n i c.
Proof.
  induction fuel as [|fuel IH]; intros n i c Hi Hfuel.
  - cbn [rep_iter]. destruct (below hi n); [|reflexivity].
    rewrite (rmatch_ext r s T i c _ (fun _ _ => None)), rmatch_refused;
      [reflexivity|exact Hi|].
    intros j c' Hij Hj.
    replace (j =? i) with true by (symmetry; apply Nat.eqb_eq; lia).
    replace (lo <=? n) with true by (symmetry; apply Nat.leb_le; lia).
    reflexivity.
  - cbn [rep_iter]. destruct (below hi n); [|reflexivity].
    erewrite rmatch_ext; [reflexivity|exact Hi|].
    intros j c' Hij Hj. cbv beta.
    destruct ((j =? i) && (lo <=? n)) eqn:E; [reflexivity|].
    apply IH; [exact Hj|].
    apply andb_false_iff in E as [E|E].
    + apply Nat.eqb_neq in E. lia.
    + apply Nat.leb_gt in E. lia.
Qed.

Lemma rep_iter_fuel_enough {T : Type} (r : regex) (s : str) (lo : nat) (hi : option nat)
    (k : nat -> captures -> option T) (extra i : nat) (c : captures) :
  i <= length s ->
  rep_iter (fun j caps' k' => rmatch r s j caps' k') lo hi k
           (lo + length s + extra) 0 i c
  = rmatch (Rep r lo hi) s i c k.
Proof.
  intros Hi. cbn [rmatch]. induction extra as [|extra IH]; [now rewrite Nat.add_0_r|].
  replace (lo + length s + S extra) with (S (lo + length s + extra)) by lia.
  rewrite rep_iter_fuel by lia. exact IH.
Qed.

(** A scan step that must advance ends beyond its start. *)
Lemma search_advances (r : regex) (s : str) :
  forall n start b e caps,
    search r s n start true = Some (b, e, caps) -> start < e.
Proof.
  intros n start b e caps H.
  destruct n as [|n]; cbn [search] in H;
    match type of H with
    | match ?m with _ => _ end = _ => destruct m as [y|] eqn:E
    end.
  - injection H as ->. apply rmatch_sound in E as (j & c' & Hd & Hk).
    apply denotes_bounds in Hd as [Hd _]. cbn [andb] in Hk.
    destruct (j =? start) eqn:Ej; [discriminate|].
    apply Nat.eqb_neq in Ej. injection Hk as <- <- <-. lia.
  - discriminate.
  - injection H as ->. apply rmatch_sound in E as (j & c' & Hd & Hk).
    apply denotes_bounds in Hd as [Hd _]. cbn [andb] in Hk.
    destruct (j =? start) eqn:Ej; [discriminate|].
    apply Nat.eqb_neq in Ej. injection Hk as <- <- <-. lia.
  - apply search_sound in H as [Hb Hd].
    apply denotes_bounds in Hd as [Hd _]. lia.
Qed.

(** One more unit of fuel changes nothing in a scan once the fuel exceeds
    twice the characters ahead. *)
Lemma scan_fuel (r : regex) (s : str) :
  forall fuel pos (must_advance : bool),
    pos <= length s ->
    2 * (length s - pos) + (if must_advance then 0 else 1) <= fuel ->
    scan r s (S fuel) pos must_advance = scan r s fuel pos must_advance.
Proof.
  induction fuel as [|fuel IH]; intros pos ma Hpos Hfuel.
  - destruct ma; [|lia]. assert (pos = length s) by lia. subst pos.
    cbn [scan].
    destruct (search r s _ (length s) true) as [[[b e] caps]|] eqn:E;
      [|reflexivity].
    pose proof (search_advances _ _ _ _ _ _ _ E) as Hadv.
    apply search_sound in E as [Hb Hd].
    apply denotes_bounds in Hd as [_ Hd]. lia.
  - change (scan r s (S (S fuel)) pos ma)
      with (match search r s (length s - pos) pos ma with
            | None => []
            | Some (b, e, caps) =>
                mkMatch s b e caps (ngroups r) :: scan r s (S fuel) e (e =? b)
            end).
    change (scan r s (S fuel) pos ma)
      with (match search r s (length s - pos) pos ma with
            | None => []
            | Some (b, e, caps) =>
                mkMatch s b e caps (ngroups r) :: scan r s fuel e (e =? b)
            end).
    destruct (search r s (length s - pos) pos ma) as [[[b e] caps]|] eqn:E;
      [|reflexivity].
    f_equal.
    assert (Hadv : ma = true -> pos < e)
      by (intros ->; eapply search_advances; exact E).
    apply search_sound in E as [Hb Hd].
    apply denotes_bounds in Hd as [Hbe Hlen].
    apply IH; [lia|].
    destruct (e =? b) eqn:Eb.
    + apply Nat.eqb_eq in Eb. destruct ma; [specialize (Hadv eq_refl)|]; lia.
    + apply Nat.eqb_neq in Eb. destruct ma; lia.
Qed.

(** [finditer] is the scan with any larger fuel. *)
Lemma finditer_fuel_enough (r : regex) (s : str) (extra : nat) :
  scan r s (2 * length s + 2 + extra) 0 false = finditer r s.
Proof.
  unfold finditer. induction extra as [|extra IH]; [now rewrite Nat.add_0_r|].
  replace (2 * length s + 2 + S extra) with (S (2 * length s + 2 + extra)) by lia.
  rewrite scan_fuel by lia. exact IH.
Qed.

(** * Strategies and the replacement loop *)

(** With a partial-mask function that only computes a value, the dispatcher
    only computes a value: it neither fails nor touches the state. *)
Lemma apply_mask_pure {St : Type} (sha : list ascii -> str) (m : Match) (strategy mask_char pii_type out : str) :
  exists res, forall st : St,
    _apply_mask sha m strategy mask_char pii_type (fun _ => ret out) st
    = Some (res, st).
Proof.
  unfold _apply_mask.
  repeat (match goal with
          | |- context [decide ?P] => destruct (decide P)
          end; [eexists; intros st; reflexivity|]).
  eexists; intros st; reflexivity.
Qed.

Lemma apply_mask_partial {St : Type} (sha : list ascii -> str) (m : Match) (mask_char pii_type : str)
    (partial : Match -> M St str) :
  _apply_mask sha m (lit "partial") mask_char pii_type partial = partial m.
Proof.
  unfold _apply_mask. destruct (decide (lit "partial" = lit "partial")); [reflexivity|].
  congruence.
Qed.

Lemma apply_mask_encrypt {St : Type} (sha : list ascii -> str) (m : Match) (mask_char pii_type : str)
    (partial : Match -> M St str) (st : St) :
  _apply_mask sha m (lit "encrypt") mask_char pii_type partial st
  = Some (encrypt_strategy (group0 m), st).
Proof.
  unfold _apply_mask.
  repeat match goal with
         | |- context [decide ?P] =>
             destruct (decide P) as [E|E];
             [try (vm_compute in E; discriminate E)|try congruence]
         end.
  reflexivity.
Qed.

(** A replacement callback that counts the matches it accepts and leaves
    the world alone makes the loop a splice with a count. *)
Lemma replace_from_counting {W : Type} (repl : Match -> nat * W -> option (str * (nat * W)))
    (f : Match -> str) (acc : Match -> bool) (s : str) (w : W) (ms : list Match) :
  (forall m c, repl m (c, w) = Some (f m, ((if acc m then c + 1 else c), w))) ->
  forall i c,
    replace_from repl s ms i (c, w)
    = Some (splice_from f s ms i, (c + count_if acc ms, w)).
Proof.
  intros Hrepl. induction ms as [|m rest IH]; intros i c.
  - cbn. now rewrite Nat.add_0_r.
  - cbn [replace_from splice_from]. rewrite Hrepl. cbn [mbind option_bind].
    rewrite IH. cbn [mbind option_bind]. unfold count_if. cbn [List.filter].
    destruct (acc m); cbn [length]; do 3 f_equal; lia.
Qed.

(** A replacement callback that leaves the state alone. *)
Lemma replace_from_pure {St : Type} (repl : Match -> St -> option (str * St))
    (f : Match -> str) (s : str) (st : St) (ms : list Match) :
  Forall (fun m => repl m st = Some (f m, st)) ms ->
  forall i, replace_from repl s ms i st = Some (splice_from f s ms i, st).
Proof.
  induction 1 as [|m rest Hm _ IH]; intros i; [reflexivity|].
  cbn [replace_from splice_from]. rewrite Hm. cbn [mbind option_bind].
  rewrite IH. reflexivity.
Qed.


Lemma group0_slice (r : regex) (s : str) (m : Match) :
  match_of r s m -> group0 m = slice s (m_start m) (m_end m).
Proof. intros (Hs & _). unfold group0. now rewrite Hs. Qed.

(** The card validator never raises on what the handler strips for it. *)
Lemma luhn_on_raw_digits (m : Match) :
  exists ok, Luhn.luhn_checksum_ok (raw_digits m) = Some ok.
Proof.
  eexists. apply LuhnFacts.luhn_checksum_ok_decimal.
  intros c Hin _. pose proof (strip_all_decimal (group0 m)) as H.
  rewrite Forall_forall in H. apply H. apply list_elem_of_In. exact Hin.
Qed.

Lemma mask_aadhaar_splice (sha : list ascii -> str) (text : str) (pattern : option regex) (kw : kwargs) (w : World) :
  let ms := finditer (default AADHAAR_PATTERN pattern) text in
  exists f,
    (forall m, aadhaar_rejects m = true -> f m = group0 m)
    /\ mask_aadhaar sha text pattern kw w
       = Some ((splice f text ms, count_if (fun m => negb (aadhaar_rejects m)) ms), w).
Proof.
  intros ms.
  set (accepted := fun m : Match =>
         take 4 (raw_digits m) ++ lit "-" ++ str_mul (get_char kw) 4 ++ lit "-"
         ++ drop 8 (raw_digits m)).
  assert (Hres : forall m, exists res, forall st : nat * World,
             _apply_mask sha m (get_strategy kw) (get_char kw) (lit "Aadhaar")
               (fun _ => ret (accepted m)) st = Some (res, st))
    by (intros m; apply apply_mask_pure).
  assert (Hf : exists g : Match -> str, forall m (st : nat * World),
             _apply_mask sha m (get_strategy kw) (get_char kw) (lit "Aadhaar")
               (fun _ => ret (accepted m)) st = Some (g m, st)).
  { exists (fun m => match _apply_mask sha m (get_strategy kw) (get_char kw)
                           (lit "Aadhaar") (fun _ => ret (accepted m)) (0, w) with
                     | Some (res, _) => res
                     | None => []
                     end).
    intros m st. destruct (Hres m) as [res Hm]. now rewrite !Hm. }
  destruct Hf as [g Hg].
  exists (fun m => if aadhaar_rejects m then group0 m else g m). split.
  - intros m Hm. now rewrite Hm.
  - unfold mask_aadhaar. fold ms. unfold sub. fold ms.
    erewrite (replace_from_counting _ _ (fun m => negb (aadhaar_rejects m))).
    + reflexivity.
    + intros m c. cbv beta. unfold aadhaar_rejects, raw_digits in *.
      destruct (negb _ || negb _); cbn [negb]; [reflexivity|].
      apply Hg.
Qed.

Lemma mask_credit_cards_splice (sha : list ascii -> str) (text : str) (pattern : option regex) (kw : kwargs) (w : World) :
  let ms := finditer (default CREDIT_CARD_PATTERN pattern) text in
  exists f,
    (forall m, card_passes m = false -> f m = group0 m)
    /\ mask_credit_cards sha text pattern kw w
       = Some ((splice f text ms, count_if card_passes ms), w).
Proof.
  intros ms.
  set (accepted := fun m : Match =>
         str_mul (get_char kw) 4 ++ lit "-" ++ str_mul (get_char kw) 4 ++ lit "-"
         ++ str_mul (get_char kw) 4 ++ lit "-" ++ last_n 4 (raw_digits m)).
  assert (Hres : forall m, exists res, forall st : nat * World,
             _apply_mask sha m (get_strategy kw) (get_char kw) (lit "Credit Card")
               (fun _ => ret (accepted m)) st = Some (res, st))
    by (intros m; apply apply_mask_pure).
  assert (Hf : exists g : Match -> str, forall m (st : nat * World),
             _apply_mask sha m (get_strategy kw) (get_char kw) (lit "Credit Card")
               (fun _ => ret (accepted m)) st = Some (g m, st)).
  { exists (fun m => match _apply_mask sha m (get_strategy kw) (get_char kw)
                           (lit "Credit Card") (fun _ => ret (accepted m)) (0, w) with
                     | Some (res, _) => res
                     | None => []
                     end).
    intros m st. destruct (Hres m) as [res Hm]. now rewrite !Hm. }
  destruct Hf as [g Hg].
  exists (fun m => if card_passes m then g m else group0 m). split.
  - intros m Hm. now rewrite Hm.
  - unfold mask_credit_cards. fold ms. unfold sub. fold ms.
    erewrite (replace_from_counting _ _ card_passes).
    + reflexivity.
    + intros m c. cbv beta. unfold card_passes, raw_digits.
      destruct (luhn_on_raw_digits m) as [ok Hok]. unfold raw_digits in Hok.
      rewrite Hok. destruct ok; cbn [negb]; [|reflexivity].
      apply Hg.
Qed.


(** * The email handler without a usable context *)

Lemma rsplit1_none (sep : ascii) (s : str) :
  rsplit1 sep s = None -> contains sep s = false.
Proof.
  induction s as [|c s IH]; [reflexivity|]. cbn [rsplit1 contains existsb].
  destruct (rsplit1 sep s) as [[before after]|]; [discriminate|].
  rewrite (Ascii.eqb_sym sep c).
  destruct (Ascii.eqb c sep); [discriminate|]. intros _. now apply IH.
Qed.

Lemma rsplit1_some (sep : ascii) (s : str) :
  forall before after,
    rsplit1 sep s = Some (before, after) ->
    s = before ++ sep :: after /\ contains sep after = false.
Proof.
  induction s as [|c s IH]; intros before after; [discriminate|].
  cbn [rsplit1]. destruct (rsplit1 sep s) as [[b a]|] eqn:E.
  - intros [= <- <-]. destruct (IH b a eq_refl) as [-> H]. auto.
  - destruct (Ascii.eqb c sep) eqn:Ec; [|discriminate].
    intros [= <- <-]. apply Ascii.eqb_eq in Ec as ->.
    split; [reflexivity|]. now apply rsplit1_none.
Qed.

Lemma rsplit1_contains (sep : ascii) (s : str) :
  contains sep s = true ->
  exists before after,
    rsplit1 sep s = Some (before, after)
    /\ s = before ++ sep :: after /\ contains sep after = false.
Proof.
  intros H. destruct (rsplit1 sep s) as [[before after]|] eqn:E.
  - exists before, after. split; [reflexivity|]. now apply rsplit1_some.
  - apply rsplit1_none in E. congruence.
Qed.

Lemma usable_dict_not_dict (c : pyctx) :
  (forall d, c <> CtxDict d) -> usable_dict c = None.
Proof. destruct c as [|d|b]; intros H; [reflexivity| |reflexivity]. now destruct (H d). Qed.

Lemma email_partial_no_context (m : Match) (w : World) (e : str) :
  group m 1 = Some (Some e) ->
  contains "@" e = true ->
  usable_dict (context w) = None ->
  exists local domain,
    e = local ++ "@"%char :: domain /\ contains "@" domain = false
    /\ email_partial m w = Some (lit "user@" ++ domain, w).
Proof.
  intros Hg Hat Hctx.
  destruct (rsplit1_contains _ _ Hat) as (local & domain & Hsplit & He & Hd).
  exists local, domain. repeat split; [exact He|exact Hd|].
  unfold email_partial. rewrite Hg, Hat. cbn [negb]. rewrite Hsplit, Hctx.
  reflexivity.
Qed.

(** The email handler without a usable context, in terms of the matches
    found: when the group 1 of each holds an [@], every match is replaced by
    [user@] followed by the text after its last [@]. *)
Lemma email_matches_without_context (sha : list ascii -> str) (text : str) (pattern : option regex)
    (kw : kwargs) (w : World) :
  get_strategy kw = lit "partial" ->
  (forall d, context w <> CtxDict d) ->
  Forall (fun m => exists e, group m 1 = Some (Some e) /\ contains "@" e = true)
         (finditer (default EMAIL_PATTERN pattern) text) ->
  exists f,
    pseudo_email sha text pattern kw w
    = Some ((splice f text (finditer (default EMAIL_PATTERN pattern) text),
             length (finditer (default EMAIL_PATTERN pattern) text)), w)
    /\ Forall (fun m => exists local domain,
                 group m 1 = Some (Some (local ++ "@"%char :: domain))
                 /\ contains "@" domain = false
                 /\ f m = lit "user@" ++ domain)
              (finditer (default EMAIL_PATTERN pattern) text).
Proof.
  intros Hs Hctx Hall.
  apply usable_dict_not_dict in Hctx.
  set (ms := finditer (default EMAIL_PATTERN pattern) text) in *.
  exists (fun m => match email_partial m w with
                   | Some (out, _) => out
                   | None => []
                   end).
  assert (Hm : Forall (fun m => exists local domain,
                 group m 1 = Some (Some (local ++ "@"%char :: domain))
                 /\ contains "@" domain = false
                 /\ email_partial m w = Some (lit "user@" ++ domain, w)) ms).
  { eapply Forall_impl; [exact Hall|]. intros m (e & Hg & Hat).
    destruct (email_partial_no_context m w e Hg Hat Hctx)
      as (local & domain & -> & Hd & Hp).
    exists local, domain. auto. }
  split.
  - unfold pseudo_email, subn, sub. fold ms. rewrite Hs.
    erewrite replace_from_pure; [reflexivity|].
    eapply Forall_impl; [exact Hm|]. intros m (local & domain & _ & _ & Hp).
    cbv beta. rewrite apply_mask_partial, Hp. reflexivity.
  - eapply Forall_impl; [exact Hm|]. intros m (local & domain & Hg & Hd & Hp).
    exists local, domain. rewrite Hp. auto.
Qed.

(** Every match of the default email pattern is an address: its group 1 is
    the whole match and holds an [@]. *)
Lemma lookup_in_slice (s : str) (b e p : nat) (c : ascii) :
  b <= p -> p < e -> s !! p = Some c -> contains c (slice s b e) = true.
Proof.
  intros Hb He Hp. unfold contains, slice. apply existsb_exists.
  exists c. split; [|apply Ascii.eqb_refl].
  apply list_elem_of_In, list_elem_of_lookup. exists (p - b).
  rewrite lookup_take_lt by lia. rewrite lookup_drop.
  replace (b + (p - b)) with p by lia. exact Hp.
Qed.

Lemma default_email_matches_are_addresses (text : str) :
  Forall (fun m => exists e, group m 1 = Some (Some e) /\ contains "@" e = true)
         (finditer EMAIL_PATTERN text).
Proof.
  destruct (finditer_sound EMAIL_PATTERN text) as [Hm _].
  eapply Forall_impl; [exact Hm|]. intros m (Hs & Hn & Hd).
  cbn in Hd.
  destruct Hd as (i1 & c1 & (_ & -> & ->) & i2 & c2 & (c3 & Hin & ->) & (_ & He & Hc)).
  subst i2.
  destruct Hin as (p & cp & Hlocal & q & cq & (ch & Hat & Hch & -> & ->) & Hdom).
  assert (B1 : m_start m <= p).
  { destruct Hlocal as (n & _ & _ & Hit).
    eapply (iterated_bounds _ (length text)) in Hit; [lia|].
    intros; eapply (denotes_bounds (Cls email_local_char)); eassumption. }
  assert (B2 : S p <= m_end m).
  { destruct Hdom as (c0 & Hd2 & _).
    apply (denotes_bounds
             (seqs [plus (Cls email_domain_char); chr_of "."; at_least 2 (Cls is_letter)])
             text) in Hd2. lia. }
  change (Ascii.eqb "@"%char ch = true) in Hch.
  apply Ascii.eqb_eq in Hch. subst ch.
  exists (slice text (m_start m) (m_end m)). split.
  - unfold group. rewrite Hn. cbn [ngroups EMAIL_PATTERN seqs Nat.max Nat.leb].
    rewrite Hc, Hs. reflexivity.
  - eapply lookup_in_slice; [exact B1| |exact Hat]. lia.
Qed.

(** C10. When [pseudo_email] runs on its own pattern with the partial
    strategy and a context that is [None] or not a dictionary, for every
    text the call succeeds, every match, an email address, is replaced by
    [user@] followed by the text after its last [@], the count is the number
    of matches, and the world, context included, is unchanged: no alias is
    allocated or looked up. *)
Theorem pseudo_email_without_context (sha : list ascii -> str) (text : str)
    (kw : kwargs) (w : World) :
  get_strategy kw = lit "partial" ->
  (forall d, context w <> CtxDict d) ->
  exists f,
    pseudo_email sha text None kw w
    = Some ((splice f text (finditer EMAIL_PATTERN text),
             length (finditer EMAIL_PATTERN text)), w)
    /\ Forall (fun m => exists local domain,
                 group m 1 = Some (Some (local ++ "@"%char :: domain))
                 /\ contains "@" domain = false
                 /\ f m = lit "user@" ++ domain)
              (finditer EMAIL_PATTERN text).
Proof.
  intros Hs Hctx.
  apply (email_matches_without_context sha text None kw w Hs Hctx).
  apply default_email_matches_are_addresses.
Qed.

(** * The pseudonymizer *)

Lemma lit_inj (s t : string) : lit s = lit t -> s = t.
Proof.
  unfold lit. intros H.
  rewrite <- (string_of_list_ascii_of_string s), <- (string_of_list_ascii_of_string t).
  now rewrite H.
Qed.

Lemma alias_of_inj (n n' : nat) : alias_of n = alias_of n' -> n = n'.
Proof.
  unfold alias_of, str_of_nat. intros H. apply app_inv_head in H.
  apply lit_inj in H. now apply (inj pretty) in H.
Qed.

Lemma rank_in_None (k : str) (l : list str) : rank_in k l = None <-> k ∉ l.
Proof.
  induction l as [|x l IH]; cbn [rank_in].
  - split; [intros _; apply not_elem_of_nil|reflexivity].
  - destruct (decide (x = k)) as [->|Hne].
    + split; [discriminate|]. intros H. destruct H. left.
    + rewrite not_elem_of_cons. destruct (rank_in k l); cbn.
      * split; [discriminate|]. intros [_ H]. now apply IH in H.
      * split; [|reflexivity]. intros _. split; [congruence|now apply IH].
Qed.

Lemma rank_in_app_l (k : str) (l l' : list str) (n : nat) :
  rank_in k l = Some n -> rank_in k (l ++ l') = Some n.
Proof.
  revert n. induction l as [|x l IH]; intros n; [discriminate|].
  cbn [rank_in app]. destruct (decide (x = k)); [auto|].
  destruct (rank_in k l) as [m|]; [|discriminate].
  cbn. intros [= <-]. now rewrite (IH m eq_refl).
Qed.

Lemma rank_in_snoc_new (k : str) (l : list str) :
  k ∉ l -> rank_in k (l ++ [k]) = Some (S (length l)).
Proof.
  induction l as [|x l IH]; intros H; cbn [rank_in app length].
  - destruct (decide (k = k)); [reflexivity|congruence].
  - apply not_elem_of_cons in H as [Hne H].
    destruct (decide (x = k)); [congruence|]. now rewrite (IH H).
Qed.

Lemma rank_in_snoc_other (k k' : str) (l : list str) :
  k <> k' -> rank_in k l = None -> rank_in k (l ++ [k']) = None.
Proof.
  intros Hne H. apply rank_in_None. apply rank_in_None in H.
  rewrite elem_of_app, list_elem_of_singleton. tauto.
Qed.

Lemma rank_in_pos (k : str) (l : list str) (n : nat) :
  rank_in k l = Some n -> 1 <= n.
Proof.
  destruct l as [|x l]; [discriminate|]. cbn [rank_in].
  destruct (decide (x = k)); [intros [= <-]; lia|].
  destruct (rank_in k l); cbn; [intros [= <-]; lia|discriminate].
Qed.

Lemma rank_in_inj (k k' : str) (l : list str) (n : nat) :
  rank_in k l = Some n -> rank_in k' l = Some n -> k = k'.
Proof.
  revert n. induction l as [|x l IH]; intros n; [discriminate|].
  cbn [rank_in]. intros A B.
  destruct (decide (x = k)) as [E1|H1], (decide (x = k')) as [E2|H2];
    [congruence|..].
  - injection A as <-. destruct (rank_in k' l) as [m'|] eqn:R2; [|discriminate].
    cbn in B. injection B as B. apply rank_in_pos in R2. lia.
  - injection B as <-. destruct (rank_in k l) as [m|] eqn:R1; [|discriminate].
    cbn in A. injection A as A. apply rank_in_pos in R1. lia.
  - destruct (rank_in k l) as [m|] eqn:R1; [|discriminate].
    destruct (rank_in k' l) as [m'|] eqn:R2; [|discriminate].
    cbn in A, B. injection A as <-. injection B as B.
    apply (IH m); [reflexivity|]. f_equal. lia.
Qed.

Lemma pseudonymize_step (self : EmailPseudonymizer) (seen : list str) (k : str) :
  tracks self seen ->
  let seen' := if decide (k ∈ seen) then seen else seen ++ [k] in
  tracks (snd (pseudonymize self k)) seen'
  /\ exists n, rank_in k seen' = Some n
               /\ fst (pseudonymize self k) = alias_of n.
Proof.
  intros [Hc Hm]. unfold pseudonymize. cbv zeta.
  destruct (decide (k ∈ seen)) as [Hin|Hnin].
  - destruct (rank_in k seen) as [n|] eqn:E;
      [|apply rank_in_None in E; contradiction].
    pose proof (Hm k) as Hk. rewrite E in Hk. cbn in Hk. rewrite Hk.
    cbn [fst snd]. split; [split; assumption|].
    exists n. split; [reflexivity|]. now rewrite Hk.
  - pose proof (Hm k) as Hk.
    rewrite (proj2 (rank_in_None k seen) Hnin) in Hk. cbn in Hk. rewrite Hk.
    cbn [fst snd mapping counter]. rewrite lookup_insert_eq. cbn [default].
    split; [split|].
    + cbn [counter]. rewrite length_app. cbn [length]. lia.
    + intros k'. cbn [mapping]. destruct (decide (k = k')) as [<-|Hne].
      * rewrite lookup_insert_eq, rank_in_snoc_new by assumption. cbn.
        unfold alias_of. now rewrite Hc.
      * rewrite lookup_insert_ne by assumption. rewrite Hm.
        destruct (rank_in k' seen) as [n|] eqn:E.
        -- now rewrite (rank_in_app_l _ _ [k] _ E).
        -- rewrite rank_in_snoc_other; [reflexivity|congruence|assumption].
    + exists (S (length seen)). split; [now apply rank_in_snoc_new|].
      unfold alias_of. now rewrite Hc.
Qed.

Lemma pseudonymize_all_cons (self : EmailPseudonymizer) (k : str) (rest : list str) :
  pseudonymize_all self (k :: rest)
  = (fst (pseudonymize self k)
       :: fst (pseudonymize_all (snd (pseudonymize self k)) rest),
     snd (pseudonymize_all (snd (pseudonymize self k)) rest)).
Proof.
  cbn [pseudonymize_all]. destruct (pseudonymize self k) as [a self'].
  cbn [fst snd]. now destruct (pseudonymize_all self' rest).
Qed.

Lemma pseudonymize_all_tracks (keys : list str) :
  forall self seen,
    tracks self seen ->
    let final := seen ++ first_seen_from seen keys in
    tracks (snd (pseudonymize_all self keys)) final
    /\ length (fst (pseudonymize_all self keys)) = length keys
    /\ forall i k, keys !! i = Some k ->
         exists n, rank_in k final = Some n
                   /\ fst (pseudonymize_all self keys) !! i = Some (alias_of n).
Proof.
  induction keys as [|k rest IH]; intros self seen Ht final.
  - unfold final. cbn. rewrite app_nil_r. repeat split; [apply Ht..|].
    intros i k H. discriminate.
  - rewrite pseudonymize_all_cons. cbn [fst snd].
    destruct (pseudonymize_step self seen k Ht) as (Ht' & n & Hn & Ha).
    set (seen' := if decide (k ∈ seen) then seen else seen ++ [k]) in *.
    assert (Hfinal : final = seen' ++ first_seen_from seen' rest).
    { unfold final, seen'. cbn [first_seen_from].
      destruct (decide (k ∈ seen)); [reflexivity|]. now rewrite <- app_assoc. }
    destruct (IH _ _ Ht') as (Hf & Hlen & Hrank). rewrite <- Hfinal in Hf, Hrank.
    repeat split; [apply Hf..|cbn [length]; now rewrite Hlen|].
    intros [|i] k' Hk; cbn in Hk.
    + injection Hk as <-. exists n. split; [|rewrite Ha; reflexivity].
      rewrite Hfinal. now apply rank_in_app_l.
    + apply (Hrank i k' Hk).
Qed.

Lemma tracks_new : tracks new_pseudonymizer [].
Proof. split; [reflexivity|]. intros k. cbn. apply lookup_empty. Qed.

(** C6. From a new pseudonymizer, over every sequence of calls: each call
    returns [user] followed by the 1-based rank of its key among the
    distinct keys in first-seen order; hence two calls return the same alias
    exactly when their keys are the same. *)
Theorem pseudonymize_first_seen_aliases (keys : list str) :
  let aliases := fst (pseudonymize_all new_pseudonymizer keys) in
  length aliases = length keys
  /\ (forall i k, keys !! i = Some k ->
        exists n, rank_in k (first_seen keys) = Some n
                  /\ aliases !! i = Some (lit "user" ++ str_of_nat n))
  /\ (forall i j k k' a a',
        keys !! i = Some k -> keys !! j = Some k' ->
        aliases !! i = Some a -> aliases !! j = Some a' ->
        (k = k' <-> a = a')).
Proof.
  intros aliases.
  destruct (pseudonymize_all_tracks keys _ _ tracks_new) as (_ & Hlen & Hrank).
  cbn [app] in Hrank. fold (first_seen keys) in Hrank. fold aliases in Hlen, Hrank.
  repeat split; [exact Hlen|exact Hrank|..].
  - intros ->. destruct (Hrank i k' H) as (n & Hn & Hi).
    destruct (Hrank j k' H0) as (n' & Hn' & Hj). congruence.
  - intros ->. destruct (Hrank i k H) as (n & Hn & Hi).
    destruct (Hrank j k' H0) as (n' & Hn' & Hj).
    assert (E : alias_of n = alias_of n') by congruence.
    apply alias_of_inj in E as ->. eapply rank_in_inj; eassumption.
Qed.

(** * Categories in one context *)

Lemma anonymizer_name_inj (c c' : category) :
  anonymizer_name c = anonymizer_name c' -> c = c'.
Proof. destruct c, c'; intros H; try reflexivity; vm_compute in H; discriminate. Qed.

Lemma pseudonymize_in_spec (d : gmap str EmailPseudonymizer) (c : category) (key : str) :
  fst (pseudonymize_in (anonymizer_name c) d key)
  = fst (pseudonymize (anonymizer_of d c) key)
  /\ anonymizer_of (snd (pseudonymize_in (anonymizer_name c) d key)) c
     = snd (pseudonymize (anonymizer_of d c) key)
  /\ forall c', c' <> c ->
       anonymizer_of (snd (pseudonymize_in (anonymizer_name c) d key)) c'
       = anonymizer_of d c'.
Proof.
  unfold pseudonymize_in, anonymizer_of.
  destruct (pseudonymize (default new_pseudonymizer (d !! anonymizer_name c)) key)
    as [alias a] eqn:E.
  cbn [fst snd]. repeat split.
  - now rewrite lookup_insert_eq.
  - intros c' Hne. rewrite lookup_insert_ne; [reflexivity|].
    intros H. apply anonymizer_name_inj in H. congruence.
Qed.

Lemma run_calls_cons (d : gmap str EmailPseudonymizer) (c : category) (key : str)
    (rest : list (category * str)) :
  run_calls d ((c, key) :: rest)
  = ((c, fst (pseudonymize_in (anonymizer_name c) d key))
       :: fst (run_calls (snd (pseudonymize_in (anonymizer_name c) d key)) rest),
     snd (run_calls (snd (pseudonymize_in (anonymizer_name c) d key)) rest)).
Proof.
  cbn [run_calls]. destruct (pseudonymize_in (anonymizer_name c) d key) as [a d'].
  cbn [fst snd]. now destruct (run_calls d' rest).
Qed.

Lemma of_category_cons_same (c : category) (x : str) (l : list (category * str)) :
  of_category c ((c, x) :: l) = x :: of_category c l.
Proof. destruct c; reflexivity. Qed.

Lemma of_category_cons_other (c c' : category) (x : str) (l : list (category * str)) :
  c' <> c -> of_category c ((c', x) :: l) = of_category c l.
Proof. destruct c, c'; intros H; congruence || reflexivity. Qed.

(** Each category's aliases and final instance are those of its own
    pseudonymizer on its own keys. *)
Lemma run_calls_per_category (d : gmap str EmailPseudonymizer)
    (calls : list (category * str)) (c : category) :
  of_category c (fst (run_calls d calls))
  = fst (pseudonymize_all (anonymizer_of d c) (of_category c calls))
  /\ anonymizer_of (snd (run_calls d calls)) c
     = snd (pseudonymize_all (anonymizer_of d c) (of_category c calls)).
Proof.
  revert d. induction calls as [|[c' key] rest IH]; intros d.
  - split; reflexivity.
  - rewrite run_calls_cons. cbn [fst snd].
    destruct (pseudonymize_in_spec d c' key) as (Ha & Hself & Hother).
    destruct (IH (snd (pseudonymize_in (anonymizer_name c') d key))) as [IH1 IH2].
    assert (Hdec : c' = c \/ c' <> c)
      by (destruct c, c'; (left; reflexivity) || (right; discriminate)).
    destruct Hdec as [->|Hne].
    + rewrite !of_category_cons_same, pseudonymize_all_cons. cbn [fst snd].
      rewrite IH1, IH2, Ha, Hself. split; reflexivity.
    + rewrite !of_category_cons_other by assumption.
      rewrite IH1, IH2, (Hother c) by congruence. split; reflexivity.
Qed.

Lemma of_category_tagged (c : category) (keys : list str) :
  of_category c (map (pair c) keys) = keys.
Proof.
  induction keys as [|k rest IH]; [reflexivity|].
  cbn [map]. now rewrite of_category_cons_same, IH.
Qed.

Lemma of_category_tagged_other (c c' : category) (keys : list str) :
  c <> c' -> of_category c' (map (pair c) keys) = [].
Proof.
  intros Hne. induction keys as [|k rest IH]; [reflexivity|].
  cbn [map]. now rewrite of_category_cons_other.
Qed.

(** The batch of calls [mask_person] makes for the tokens of one match is
    that sequence of single calls. *)
Lemma pseudonymize_each_in_as_calls (d : gmap str EmailPseudonymizer)
    (c : category) (keys : list str) :
  fst (pseudonymize_each_in (anonymizer_name c) d keys)
  = of_category c (fst (run_calls d (map (pair c) keys)))
  /\ forall c',
       anonymizer_of (snd (pseudonymize_each_in (anonymizer_name c) d keys)) c'
       = anonymizer_of (snd (run_calls d (map (pair c) keys))) c'.
Proof.
  unfold pseudonymize_each_in.
  destruct (pseudonymize_all (default new_pseudonymizer (d !! anonymizer_name c)) keys)
    as [aliases a] eqn:E.
  cbn [fst snd]. split.
  - destruct (run_calls_per_category d (map (pair c) keys) c) as [H _].
    rewrite H, of_category_tagged. unfold anonymizer_of. now rewrite E.
  - intros c'.
    destruct (run_calls_per_category d (map (pair c) keys) c') as [_ H].
    rewrite H. unfold anonymizer_of at 1.
    assert (Hdec : c = c' \/ c <> c')
      by (destruct c, c'; (left; reflexivity) || (right; discriminate)).
    destruct Hdec as [<-|Hne].
    + rewrite lookup_insert_eq, of_category_tagged. unfold anonymizer_of.
      now rewrite E.
    + rewrite lookup_insert_ne
        by (intros Hn; apply anonymizer_name_inj in Hn; congruence).
      rewrite of_category_tagged_other by assumption. reflexivity.
Qed.

(** C4 (amended). Over every interleaved sequence of email and person-name
    calls against one context dictionary, the aliases of each category are
    those that category's own pseudonymizer instance gives on that category's
    keys alone, and a category that makes no call keeps its instance: the
    two categories allocate independently of each other, each from its own
    counter. *)
Theorem categories_allocate_independently (d : gmap str EmailPseudonymizer)
    (calls : list (category * str)) (c : category) :
  of_category c (fst (run_calls d calls))
  = fst (pseudonymize_all (anonymizer_of d c) (of_category c calls))
  /\ anonymizer_of (snd (run_calls d calls)) c
     = snd (pseudonymize_all (anonymizer_of d c) (of_category c calls))
  /\ (forall c', c' <> c ->
        of_category c' calls = [] ->
        anonymizer_of (snd (run_calls d calls)) c' = anonymizer_of d c').
Proof.
  destruct (run_calls_per_category d calls c) as [Haliases Hfinal].
  split; [exact Haliases|]. split; [exact Hfinal|].
  intros c' _ Hnone.
  destruct (run_calls_per_category d calls c') as [_ Hother].
  rewrite Hother, Hnone. reflexivity.
Qed.

(** * Disabled categories *)

Lemma override_keys (key : str) (h : handler) (handlers : list (str * handler)) :
  map fst (override key h handlers) = map fst handlers.
Proof.
  unfold override. induction handlers as [|[k g] rest IH]; [reflexivity|].
  cbn [map fst]. rewrite IH. now destruct (decide (k = key)).
Qed.

Lemma zero_counts_keys (handlers handlers' : list (str * handler)) :
  map fst handlers = map fst handlers' -> zero_counts handlers = zero_counts handlers'.
Proof.
  unfold zero_counts. intros H.
  assert (E : forall l : list (str * handler),
             map (fun kh => (fst kh, 0)) l = map (fun k => (k, 0)) (map fst l)).
  { intros l. induction l as [|x l IH]; [reflexivity|]. cbn [map]. now rewrite IH. }
  now rewrite !E, H.
Qed.

Lemma zero_counts_lookup (handlers : list (str * handler)) (key : str) :
  In key (map fst handlers) -> zero_counts handlers !! key = Some 0.
Proof.
  unfold zero_counts. induction handlers as [|[k h] rest IH]; [intros []|].
  cbn [map fst]. rewrite list_to_map_cons. intros [->|Hin].
  - apply lookup_insert_eq.
  - destruct (decide (k = key)) as [->|Hne].
    + apply lookup_insert_eq.
    + rewrite lookup_insert_ne by assumption. now apply IH.
Qed.

Lemma config_disabled (mask_configs : option (gmap str MaskConfig)) (key : str) :
  is_enabled mask_configs key = false ->
  match config_of mask_configs key with
  | Some config => enabled config = false
  | None => True
  end.
Proof. unfold is_enabled. destruct (config_of mask_configs key); auto. Qed.

Lemma process_loop_override (key : str) (h : handler)
    (patterns : option (gmap str regex))
    (mask_configs : option (gmap str MaskConfig)) (todo : list (str * handler)) :
  is_enabled mask_configs key = false ->
  forall text counts w,
    process_loop (override key h todo) patterns mask_configs text counts w
    = process_loop todo patterns mask_configs text counts w.
Proof.
  intros Hoff. induction todo as [|[k g] rest IH]; intros text counts w;
    [reflexivity|].
  unfold override in *. cbn [map fst]. destruct (decide (k = key)) as [->|Hne].
  - cbn [process_loop]. apply config_disabled in Hoff.
    destruct (config_of mask_configs key) as [config|]; [rewrite Hoff|]; apply IH.
  - cbn [process_loop].
    destruct (config_of mask_configs k) as [config|]; [|apply IH].
    destruct (enabled config); [|apply IH].
    unfold bind. destruct (g text _ _ w) as [[[text' count] w']|]; [|reflexivity].
    destruct (counts !! k); [apply IH|reflexivity].
Qed.

Lemma process_loop_disabled_count (key : str)
    (patterns : option (gmap str regex))
    (mask_configs : option (gmap str MaskConfig)) (todo : list (str * handler)) :
  is_enabled mask_configs key = false ->
  forall text counts w out counts' w',
    process_loop todo patterns mask_configs text counts w = Some ((out, counts'), w') ->
    counts' !! key = counts !! key.
Proof.
  intros Hoff. induction todo as [|[k g] rest IH];
    intros text counts w out counts' w'; cbn [process_loop].
  - intros [= _ <- _]. reflexivity.
  - destruct (config_of mask_configs k) as [config|] eqn:Ec; [|apply IH].
    destruct (enabled config) eqn:En; [|apply IH].
    unfold bind. destruct (g text _ _ w) as [[[text' count] w1]|]; [|discriminate].
    destruct (counts !! k) as [c|] eqn:Ek; [|discriminate].
    intros H. apply IH in H. rewrite H. apply lookup_insert_ne.
    intros ->. unfold is_enabled in Hoff. rewrite Ec in Hoff. congruence.
Qed.

Lemma process_loop_all_disabled
    (patterns : option (gmap str regex))
    (mask_configs : option (gmap str MaskConfig)) (todo : list (str * handler)) :
  (forall k, is_enabled mask_configs k = false) ->
  forall text counts w,
    process_loop todo patterns mask_configs text counts w = Some ((text, counts), w).
Proof.
  intros Hoff. induction todo as [|[k g] rest IH]; intros text counts w;
    [reflexivity|].
  cbn [process_loop]. pose proof (config_disabled _ _ (Hoff k)) as Hk.
  destruct (config_of mask_configs k) as [config|]; [rewrite Hk|]; apply IH.
Qed.

(** C9. For every handler table, text, pattern set and mask configuration:
    a category that is disabled (its mask config has [enabled] false, or it
    has none) has its handler never called, so the run is the same whatever
    that handler is, and its count in the result is 0; when every category
    is disabled, [process_text] returns the text unchanged with all counts 0
    and the world unchanged. *)
Theorem disabled_category_is_skipped (sha : list ascii -> str) (handlers : list (str * handler)) (text : str)
    (patterns : option (gmap str regex))
    (mask_configs : option (gmap str MaskConfig)) (w : World) (key : str) :
  is_enabled mask_configs key = false ->
  (forall h,
     process_text_with (override key h handlers) text patterns mask_configs w
     = process_text_with handlers text patterns mask_configs w)
  /\ (forall out counts w',
        In key (map fst handlers) ->
        process_text_with handlers text patterns mask_configs w
        = Some ((out, counts), w') ->
        counts !! key = Some 0)
  /\ ((forall k, is_enabled mask_configs k = false) ->
      process_text sha text patterns mask_configs w
      = Some ((text, zero_counts (PII_HANDLERS sha)), w)
      /\ forall k, In k (map fst (PII_HANDLERS sha)) ->
                   zero_counts (PII_HANDLERS sha) !! k = Some 0).
Proof.
  intros Hoff. repeat split.
  - intros h. unfold process_text_with.
    rewrite (zero_counts_keys _ handlers) by apply override_keys.
    now apply process_loop_override.
  - intros out counts w' Hin H. unfold process_text_with in H.
    apply (process_loop_disabled_count key) in H; [|exact Hoff].
    rewrite H. now apply zero_counts_lookup.
  - unfold process_text, process_text_with. now apply process_loop_all_disabled.
  - intros k. apply zero_counts_lookup.
Qed.

(** * Metrics *)

Module MetricsFacts.
Import Metrics.
Open Scope Z_scope.

(** The literals are the floats nearest to the decimals they stand for. *)
Lemma float_literals :
  int_truediv 4 5 = f08 /\ int_truediv 1 2 = f05 /\ int_truediv 1 1 = f1_0
  /\ binary_normalize prec emax 2 0 false = f2.
Proof. repeat split; vm_compute; reflexivity. Qed.

Lemma py_min_spec (a b : Z) : py_min a b = Z.min a b.
Proof. unfold py_min. destruct (b <? a) eqn:E; lia. Qed.

Lemma py_max_spec (a b : Z) : py_max a b = Z.max a b.
Proof. unfold py_max. destruct (a <? b) eqn:E; lia. Qed.





End MetricsFacts.

(** * The claims on the validators and the encrypt strategy *)

(** C1 (as stated, fails).  The empty input has no digits, yet the
    validator accepts it. *)
Lemma aadhaar_verhoeff_accepts_empty :
  length (re_sub_class (fun c => negb (is_decimal c)) [] (lit "")) <> 12
  /\ Verhoeff.aadhaar_verhoeff (lit "") = true.
Proof. split; [vm_compute; lia|reflexivity]. Qed.

(** C7 (the code at the failing input).  The superscript two counts as a
    digit for [isdigit] but [int] refuses it: on it the validator raises
    instead of returning false, and so it does on an accepted card number
    followed by it. *)
Theorem luhn_raises_on_superscript_digit :
  isdigit (chr 178) = true
  /\ int_of_char (chr 178) = None
  /\ Luhn.luhn_checksum_ok [chr 178] = None
  /\ Luhn.luhn_checksum_ok (lit "4111111111111111") = Some true
  /\ Luhn.luhn_checksum_ok (lit "4111111111111111" ++ [chr 178]) = None.
Proof. repeat split; vm_compute; reflexivity. Qed.

(** The encoder agrees with RFC 4648 on its test vectors. *)
Lemma b64encode_vectors :
  Base64.b64encode (lit "") = lit ""
  /\ Base64.b64encode (lit "f") = lit "Zg=="
  /\ Base64.b64encode (lit "fo") = lit "Zm8="
  /\ Base64.b64encode (lit "foo") = lit "Zm9v"
  /\ Base64.b64encode (lit "foobar") = lit "Zm9vYmFy".
Proof. repeat split; reflexivity. Qed.

(** C8.  For every match, what the encrypt strategy produces decodes back:
    base64-decoding it and applying the XOR with the same key again gives
    the matched text; the XOR with the fixed key is an involution and base64
    decoding inverts base64 encoding. *)
Theorem encrypt_round_trips (sha : list ascii -> str) (St : Type) (m : Match)
    (mask_char pii_type : str) (partial : Match -> M St str) (st : St) :
  (exists produced,
      _apply_mask sha m (lit "encrypt") mask_char pii_type partial st
      = Some (produced, st)
      /\ decrypt_strategy produced = Some (group0 m))
  /\ (forall text, encrypt_decrypt (encrypt_decrypt text XOR_KEY) XOR_KEY = text)
  /\ (forall bs, Base64.b64decode (Base64.b64encode bs) = Some bs).
Proof.
  repeat split.
  - exists (encrypt_strategy (group0 m)). split.
    + apply apply_mask_encrypt.
    + apply decrypt_encrypt.
  - intros text. apply encrypt_decrypt_involutive. vm_compute. lia.
  - apply Base64Facts.b64decode_encode.
Qed.

(** * The claims on the run context and the end-to-end scenario *)

(** C4 (as stated, fails).  In one context that holds an entry, processing
    the scenario cell records the alias [user1] both for the email local
    part and for a person token; so do two bare calls, one per category. *)
Lemma alias_user1_in_both_categories :
  (let r := process_text Examples.no_sha256 Examples.cell None
              (Some Examples.all_enabled)
              (Examples.world_of Examples.seeded_context) in
   (context_of r ≫= alias_in "email_anonymizer" "john.smith") = Some (lit "user1")
   /\ (context_of r ≫= alias_in "person_anonymizer" "Contact") = Some (lit "user1"))
  /\ fst (run_calls ∅ [(Email, lit "john.smith"); (Person, lit "John")])
     = [(Email, lit "user1"); (Person, lit "user1")].
Proof. repeat split; vm_compute; reflexivity. Qed.

(** C5 (the code at the failing input).  With every category enabled, the
    partial strategy, the default patterns and the context [{}] the callers
    create, the scenario cell comes out with the email local part replaced
    by plain [user], the phone as [98******10], and the person match, which
    spans the three words [Contact John Smith], masked letter by letter; no
    alias is allocated and the context stays empty. *)
Theorem scenario_with_fresh_context (sha : list ascii -> str) (draws : nat -> N) :
  let w := {| context := Examples.fresh_context; draws := draws; cursor := 0 |} in
  let r := process_text sha Examples.cell None (Some Examples.all_enabled) w in
  text_of r
  = Some (lit "C****** J*** S**** at user@example.com, phone +91-98******10")
  /\ count_of "email" r = Some 1
  /\ count_of "phone" r = Some 1
  /\ count_of "person" r = Some 1
  /\ context_of r = Some (CtxDict ∅).
Proof. intros w r. repeat split; vm_compute; reflexivity. Qed.

(** The same cell in a context that already holds an entry: aliases are
    allocated, three for the person match and one for the email. *)
Lemma scenario_with_seeded_context (sha : list ascii -> str) (draws : nat -> N) :
  let w := {| context := Examples.seeded_context; draws := draws; cursor := 0 |} in
  let r := process_text sha Examples.cell None (Some Examples.all_enabled) w in
  text_of r
  = Some (lit "user1 user2 user3 at user1@example.com, phone +91-98******10").
Proof. intros w r. vm_compute. reflexivity. Qed.

(** * Witnesses *)

Lemma disabled_category_is_skipped_witness :
  is_enabled None (lit "email") = false
  /\ process_text Examples.no_sha256 Examples.cell None None
       (Examples.world_of Examples.fresh_context)
     = Some ((Examples.cell, zero_counts (PII_HANDLERS Examples.no_sha256)),
             Examples.world_of Examples.fresh_context).
Proof.
  split; [reflexivity|].
  apply (disabled_category_is_skipped Examples.no_sha256
           (PII_HANDLERS Examples.no_sha256) Examples.cell None None
           (Examples.world_of Examples.fresh_context) (lit "email")).
  - reflexivity.
  - intros k. reflexivity.
Defined.

Lemma pseudo_email_without_context_witness :
  let kw := Examples.partial_kwargs in
  let w := Examples.world_of CtxNone in
  get_strategy kw = lit "partial"
  /\ (forall d, context w <> CtxDict d)
  /\ exists f,
       pseudo_email Examples.no_sha256 Examples.two_addresses None kw w
       = Some ((splice f Examples.two_addresses
                  (finditer EMAIL_PATTERN Examples.two_addresses),
                length (finditer EMAIL_PATTERN Examples.two_addresses)), w)
       /\ Forall (fun m => exists local domain,
                    group m 1 = Some (Some (local ++ "@"%char :: domain))
                    /\ contains "@" domain = false
                    /\ f m = lit "user@" ++ domain)
                 (finditer EMAIL_PATTERN Examples.two_addresses).
Proof.
  intros kw w.
  assert (H1 : get_strategy kw = lit "partial") by reflexivity.
  assert (H2 : forall d, context w <> CtxDict d) by (intros d; discriminate).
  split; [exact H1|]. split; [exact H2|].
  exact (pseudo_email_without_context Examples.no_sha256 Examples.two_addresses
           kw w H1 H2).
Defined.

(** The two addresses of the example collapse to one replacement. *)
Lemma two_addresses_collapse :
  text_of (pseudo_email Examples.no_sha256 Examples.two_addresses None
             Examples.partial_kwargs (Examples.world_of CtxNone))
  = Some (lit "user@x.com; user@x.com").
Proof. vm_compute. reflexivity. Qed.

(** * Worked examples *)

(** A rejected match differs from no match: the scan finds the candidate,
    the handler leaves it in place and does not count it. *)
Lemma card_examples :
  let run t := mask_credit_cards Examples.no_sha256 t None Examples.partial_kwargs
                 (Examples.world_of CtxNone) in
  text_of (run Examples.good_card) = Some (lit "card ****-****-****-1111.")
  /\ (snd ∘ fst <$> run Examples.good_card) = Some 1
  /\ text_of (run Examples.bad_card) = Some Examples.bad_card
  /\ (snd ∘ fst <$> run Examples.bad_card) = Some 0
  /\ length (finditer CREDIT_CARD_PATTERN Examples.bad_card) = 1
  /\ length (finditer CREDIT_CARD_PATTERN Examples.no_card) = 0.
Proof. intros run. repeat split; vm_compute; reflexivity. Qed.

Lemma aadhaar_examples :
  let run t := mask_aadhaar Examples.no_sha256 t None Examples.partial_kwargs
                 (Examples.world_of CtxNone) in
  text_of (run Examples.good_aadhaar) = Some (lit "id 2341-****-2346")
  /\ (snd ∘ fst <$> run Examples.good_aadhaar) = Some 1
  /\ text_of (run Examples.bad_aadhaar) = Some Examples.bad_aadhaar
  /\ (snd ∘ fst <$> run Examples.bad_aadhaar) = Some 0
  /\ length (finditer AADHAAR_PATTERN Examples.bad_aadhaar) = 1.
Proof. intros run. repeat split; vm_compute; reflexivity. Qed.

Lemma pseudonymize_example :
  fst (pseudonymize_all new_pseudonymizer (map lit ["a"; "b"; "a"; "c"]%string))
  = map lit ["user1"; "user2"; "user1"; "user3"]%string.
Proof. vm_compute. reflexivity. Qed.

Lemma all_disabled_example :
  text_of (process_text Examples.no_sha256 Examples.cell None
             (Some Examples.all_disabled)
             (Examples.world_of Examples.fresh_context))
  = Some Examples.cell.
Proof. vm_compute. reflexivity. Qed.

(** Two records with different addresses, processed in one batch with the
    context [{}]: both addresses come out as the same [user@x.com]. *)
Lemma batch_with_fresh_context :
  fst ∘ fst <$> detect_and_deidentify_record Examples.no_sha256
                  [Some (lit "a@x.com"); None; Some (lit "b@x.com")] None
                  (Some Examples.all_enabled)
                  (Examples.world_of Examples.fresh_context)
  = Some [lit "user@x.com"; lit ""; lit "user@x.com"].
Proof. vm_compute. reflexivity. Qed.

(** * Strategies other than partial *)

Lemma apply_mask_fixed {St : Type} (sha : list ascii -> str) (m : Match)
    (strategy mask_char pii_type : str) (partial : Match -> M St str) (st : St) :
  strategy <> lit "partial" ->
  _apply_mask sha m strategy mask_char pii_type partial st
  = Some (fixed_replacement sha m strategy mask_char pii_type, st).
Proof.
  intros Hs. unfold _apply_mask, fixed_replacement.
  destruct (decide (strategy = lit "partial")); [contradiction|].
  repeat (match goal with
          | |- context [decide ?P] => destruct (decide P)
          end; [reflexivity|]).
  reflexivity.
Qed.

Lemma subn_splice {St : Type} (p : regex) (repl : Match -> St -> option (str * St))
    (f : Match -> str) (s : str) (st : St) :
  Forall (fun m => repl m st = Some (f m, st)) (finditer p s) ->
  subn p repl s st
  = Some ((splice f s (finditer p s), length (finditer p s)), st).
Proof.
  intros H. unfold subn, sub. rewrite (replace_from_pure _ f) by exact H.
  reflexivity.
Qed.

Lemma slice_length (s : str) (b e : nat) :
  e <= length s -> length (slice s b e) = e - b.
Proof. intros H. unfold slice. rewrite length_take, length_drop. lia. Qed.

Lemma splice_from_length (f : Match -> str) (s : str) (ms : list Match) :
  forall i,
    in_order (length s) ms i ->
    Forall (fun m => length (f m) = m_end m - m_start m) ms ->
    length (splice_from f s ms i) = length s - i.
Proof.
  induction ms as [|m rest IH]; intros i Hord Hall.
  - cbn [splice_from]. now rewrite length_drop.
  - cbn [in_order] in Hord. destruct Hord as (H1 & H2 & H3 & Hord).
    inversion Hall as [|? ? Hm Hrest]; subst.
    cbn [splice_from]. rewrite !length_app, (IH _ Hord Hrest), Hm.
    rewrite slice_length by lia. lia.
Qed.

Lemma str_mul_one (mask_char : str) (n : nat) :
  length mask_char = 1 -> length (str_mul mask_char n) = n.
Proof. intros H. rewrite str_mul_length, H. lia. Qed.

Lemma group0_length (r : regex) (s : str) (m : Match) :
  match_of r s m -> m_end m <= length s ->
  length (group0 m) = m_end m - m_start m.
Proof. intros Hm He. rewrite (group0_slice r s m Hm). now apply slice_length. Qed.

(** The matches of a scan with their bounds, as one list property. *)
Lemma in_order_bounds (len : nat) (ms : list Match) :
  forall i, in_order len ms i ->
    Forall (fun m => m_start m <= m_end m /\ m_end m <= len) ms.
Proof.
  induction ms as [|m rest IH]; intros i H; [constructor|].
  cbn [in_order] in H. destruct H as (H1 & H2 & H3 & H).
  constructor; [lia|]. exact (IH _ H).
Qed.

Lemma finditer_matches (r : regex) (s : str) :
  Forall (fun m => match_of r s m /\ m_start m <= m_end m /\ m_end m <= length s)
         (finditer r s).
Proof.
  destruct (finditer_sound r s) as [H1 H2].
  apply in_order_bounds in H2.
  rewrite Forall_forall in *. intros m Hm. split; [now apply H1|now apply H2].
Qed.

Lemma count_if_le (acc : Match -> bool) (ms : list Match) :
  count_if acc ms <= length ms.
Proof.
  unfold count_if. induction ms as [|m rest IH]; [reflexivity|].
  cbn [List.filter]. destruct (acc m); cbn [length]; lia.
Qed.

Ltac plain_handler :=
  eexists _, _, _; split; [|split; [|split; [|split]]]; cycle 4;
  [ unfold anonymize_pan, pseudo_email, mask_passport, mask_driving_license,
      mask_phone, mask_person, mask_voter_id, mask_dob;
    apply subn_splice; apply Forall_forall; intros m _;
    now apply apply_mask_fixed
  | intros q Hq; rewrite Hq; reflexivity
  | intros m; right; eauto
  | lia
  | reflexivity ].

Lemma handler_fixed (sha : list ascii -> str) (key : str) (h : handler)
    (text : str) (pattern : option regex) (kw : kwargs) (w : World) :
  (key, h) ∈ PII_HANDLERS sha ->
  get_strategy kw <> lit "partial" ->
  exists p f n,
    (forall q, pattern = Some q -> p = q)
    /\ keeps_or_fixes sha kw f
    /\ n <= length (finditer p text)
    /\ (key <> lit "aadhaar" -> key <> lit "credit_card" ->
        n = length (finditer p text))
    /\ h text pattern kw w = Some ((splice f text (finditer p text), n), w).
Proof.
  intros Hin Hs. unfold PII_HANDLERS in Hin.
  repeat (apply elem_of_cons in Hin as [Hin|Hin];
          [injection Hin as -> ->|]); [..|now apply elem_of_nil in Hin];
    try plain_handler.
  - (* aadhaar *)
    exists (default AADHAAR_PATTERN pattern),
           (fun m => if aadhaar_rejects m then group0 m
                     else fixed_replacement sha m (get_strategy kw) (get_char kw)
                            (lit "Aadhaar")).
    eexists. split; [|split; [|split; [|split]]]; cycle 4.
    + unfold mask_aadhaar, sub.
      erewrite (replace_from_counting _ _ (fun m => negb (aadhaar_rejects m))).
      * reflexivity.
      * intros m c. cbv beta. unfold aadhaar_rejects.
        destruct (negb _ || negb _); cbn [negb]; [reflexivity|].
        now apply apply_mask_fixed.
    + intros q ->. reflexivity.
    + intros m. destruct (aadhaar_rejects m); [now left|right; eauto].
    + apply count_if_le.
    + intros H; now contradiction H.
  - (* credit card *)
    exists (default CREDIT_CARD_PATTERN pattern),
           (fun m => if card_passes m
                     then fixed_replacement sha m (get_strategy kw) (get_char kw)
                            (lit "Credit Card")
                     else group0 m).
    eexists. split; [|split; [|split; [|split]]]; cycle 4.
    + unfold mask_credit_cards, sub.
      erewrite (replace_from_counting _ _ card_passes).
      * reflexivity.
      * intros m c. cbv beta. unfold card_passes. fold (raw_digits m).
        destruct (luhn_on_raw_digits m) as [ok ->].
        destruct ok; cbn [negb]; [|reflexivity].
        now apply apply_mask_fixed.
    + intros q ->. reflexivity.
    + intros m. destruct (card_passes m); [right; eauto|now left].
    + apply count_if_le.
    + intros _ H; now contradiction H.
Qed.

(** Under the full strategy with a one-character mask every handler keeps
    the length of the text. *)
Lemma handler_full_length (sha : list ascii -> str) (key : str) (h : handler)
    (text : str) (pattern : option regex) (kw : kwargs) (w : World) :
  (key, h) ∈ PII_HANDLERS sha ->
  get_strategy kw = lit "full" ->
  length (get_char kw) = 1 ->
  exists out n, h text pattern kw w = Some ((out, n), w)
                /\ length out = length text.
Proof.
  intros Hin Hs Hc.
  destruct (handler_fixed sha key h text pattern kw w Hin) as (p & f & n & _ & Hf & _ & _ & Hh).
  { rewrite Hs. intros E. vm_compute in E. discriminate E. }
  exists (splice f text (finditer p text)), n. split; [exact Hh|].
  unfold splice. rewrite splice_from_length; [lia|apply finditer_sound|].
  eapply Forall_impl; [apply finditer_matches|].
  intros m (Hm & Hb & He). cbv beta.
  rewrite <- (group0_length p text m Hm He).
  destruct (Hf m) as [->|[pii ->]]; [reflexivity|].
  unfold fixed_replacement. rewrite Hs.
  destruct (decide (lit "full" = lit "full")); [|congruence].
  now apply str_mul_one.
Qed.

(** The loop over the handler table, for handlers that cannot fail and
    keep a property of the text and the world. *)
Lemma process_loop_total (P : str -> World -> Prop)
    (patterns : option (gmap str regex)) (mask_configs : option (gmap str MaskConfig))
    (todo : list (str * handler)) :
  (forall key h cfg text w,
      (key, h) ∈ todo -> config_of mask_configs key = Some cfg ->
      enabled cfg = true -> P text w ->
      exists out n w',
        h text (default ∅ patterns !! key)
          {| kw_strategy := Some (strategy cfg); kw_char := Some (char cfg) |} w
        = Some ((out, n), w') /\ P out w') ->
  forall text counts w,
    (forall key h, (key, h) ∈ todo -> is_Some (counts !! key)) ->
    P text w ->
    exists out counts' w',
      process_loop todo patterns mask_configs text counts w
      = Some ((out, counts'), w') /\ P out w'.
Proof.
  induction todo as [|[key h] rest IH]; intros Hh text counts w Hdom HP.
  - exists text, counts, w. split; [reflexivity|exact HP].
  - assert (Hrest : forall text counts w,
               (forall key h, (key, h) ∈ rest -> is_Some (counts !! key)) ->
               P text w ->
               exists out counts' w',
                 process_loop rest patterns mask_configs text counts w
                 = Some ((out, counts'), w') /\ P out w').
    { apply IH. intros k h' cfg t w0 Hin. apply Hh. now right. }
    cbn [process_loop].
    destruct (config_of mask_configs key) as [cfg|] eqn:Ecfg;
      [|apply Hrest; [intros k h' Hin; apply (Hdom k h'); now right|exact HP]].
    destruct (enabled cfg) eqn:Een;
      [|apply Hrest; [intros k h' Hin; apply (Hdom k h'); now right|exact HP]].
    destruct (Hh key h cfg text w) as (out & n & w' & Hrun & HP');
      [now left|exact Ecfg|exact Een|exact HP|].
    unfold bind. rewrite Hrun.
    destruct (Hdom key h) as [c Hc]; [now left|]. rewrite Hc.
    apply Hrest; [|exact HP'].
    intros k h' Hin. destruct (decide (k = key)) as [->|Hne].
    + rewrite lookup_insert_eq. eauto.
    + rewrite lookup_insert_ne by congruence. apply (Hdom k h'). now right.
Qed.

Lemma zero_counts_is_Some (handlers : list (str * handler)) (key : str) (h : handler) :
  (key, h) ∈ handlers -> is_Some (zero_counts handlers !! key).
Proof.
  intros Hin. unfold zero_counts.
  induction handlers as [|[k h'] rest IH]; [now apply elem_of_nil in Hin|].
  cbn [map fst]. rewrite list_to_map_cons.
  destruct (decide (k = key)) as [->|Hne].
  - rewrite lookup_insert_eq. eauto.
  - rewrite lookup_insert_ne by exact Hne. apply IH.
    apply elem_of_cons in Hin as [Hin|Hin]; [congruence|exact Hin].
Qed.

Lemma process_text_total (P : str -> World -> Prop) (sha : list ascii -> str)
    (patterns : option (gmap str regex)) (mask_configs : option (gmap str MaskConfig))
    (text : str) (w : World) :
  (forall key h cfg text w,
      (key, h) ∈ PII_HANDLERS sha -> config_of mask_configs key = Some cfg ->
      enabled cfg = true -> P text w ->
      exists out n w',
        h text (default ∅ patterns !! key)
          {| kw_strategy := Some (strategy cfg); kw_char := Some (char cfg) |} w
        = Some ((out, n), w') /\ P out w') ->
  P text w ->
  exists out counts w',
    process_text sha text patterns mask_configs w = Some ((out, counts), w')
    /\ P out w'.
Proof.
  intros Hh HP. unfold process_text, process_text_with.
  apply process_loop_total; [exact Hh| |exact HP].
  intros key h Hin. now apply (zero_counts_is_Some _ key h).
Qed.


(** X2. When every enabled category uses the full strategy with a mask of
    one character, [process_text] returns a text of the same length as
    its input and leaves the world as it is. *)
Theorem full_strategy_keeps_length (sha : list ascii -> str) (text : str)
    (patterns : option (gmap str regex))
    (mask_configs : option (gmap str MaskConfig)) (w : World) :
  (forall key cfg, config_of mask_configs key = Some cfg ->
                   enabled cfg = true ->
                   strategy cfg = lit "full" /\ length (char cfg) = 1) ->
  exists out counts,
    process_text sha text patterns mask_configs w = Some ((out, counts), w)
    /\ length out = length text.
Proof.
  intros Hcfg.
  destruct (process_text_total (fun t w' => w' = w /\ length t = length text)
              sha patterns mask_configs text w)
    as (out & counts & w' & Hrun & -> & Hlen); [|split; reflexivity|eauto].
  intros key h cfg t w0 Hin Ecfg Een [-> Ht].
  destruct (Hcfg key cfg Ecfg Een) as [Hs Hc].
  destruct (handler_full_length sha key h t (default ∅ patterns !! key)
              {| kw_strategy := Some (strategy cfg); kw_char := Some (char cfg) |}
              w Hin Hs Hc) as (out & n & Hh & Hl).
  exists out, n, w. repeat split; [exact Hh|congruence].
Qed.

(** X3. A strategy name that is none of partial, full, hash, encrypt and
    redact is accepted in silence: every handler returns the text as it
    was, leaves the world alone, and still reports matches; for a pattern
    whose repetition bodies cannot match the empty string, the handlers
    without a validator report every match of the pattern. *)
Theorem unknown_strategy_changes_nothing (sha : list ascii -> str) (key : str)
    (h : handler) (text : str) (p : regex) (kw : kwargs) (w : World) :
  (key, h) ∈ PII_HANDLERS sha ->
  get_strategy kw ∉ [lit "partial"; lit "full"; lit "hash"; lit "encrypt"; lit "redact"] ->
  exists n,
    h text (Some p) kw w = Some ((text, n), w)
    /\ (consuming_reps p = true ->
        key <> lit "aadhaar" -> key <> lit "credit_card" ->
        n = length (finditer p text)).
Proof.
  intros Hin Hs.
  assert (Hne : forall name,
             name ∈ [lit "partial"; lit "full"; lit "hash"; lit "encrypt"; lit "redact"] ->
             get_strategy kw <> name) by (intros name Hn E; now rewrite E in Hs).
  destruct (handler_fixed sha key h text (Some p) kw w Hin)
    as (p' & f & n & Hp & Hf & _ & Hn & Hh).
  { apply Hne. apply list_elem_of_In. cbn [In]. auto 10. }
  rewrite (Hp p eq_refl) in *. exists n. split; [|intros _; exact Hn].
  rewrite Hh. unfold splice. rewrite splice_from_same.
  - reflexivity.
  - apply finditer_sound.
  - eapply Forall_impl; [apply finditer_matches|].
    intros m (Hm & _). cbv beta. rewrite <- (group0_slice p text m Hm).
    destruct (Hf m) as [->|[pii ->]]; [reflexivity|].
    unfold fixed_replacement.
    repeat (match goal with
            | |- context [decide (get_strategy kw = ?name)] =>
                destruct (decide (get_strategy kw = name)) as [E|_];
                [exfalso; revert E; apply Hne; apply list_elem_of_In; cbn [In]; auto 10|]
            end).
    reflexivity.
Qed.

(** * The partial strategy, handler by handler *)

Lemma replace_from_ext {St : Type} (repl1 repl2 : Match -> St -> option (str * St))
    (s : str) (ms : list Match) :
  (forall m st, repl1 m st = repl2 m st) ->
  forall i st, replace_from repl1 s ms i st = replace_from repl2 s ms i st.
Proof.
  intros H. induction ms as [|m rest IH]; intros i st; [reflexivity|].
  cbn [replace_from]. rewrite H. destruct (repl2 m st) as [[out st']|]; [|reflexivity].
  cbn [mbind option_bind]. now rewrite IH.
Qed.

(** X4. For dates the partial strategy is the full one. *)
Theorem mask_dob_partial_is_full (sha : list ascii -> str) (text : str)
    (pattern : option regex) (kw_partial kw_full : kwargs) (w : World) :
  get_strategy kw_partial = lit "partial" ->
  get_strategy kw_full = lit "full" ->
  get_char kw_partial = get_char kw_full ->
  mask_dob sha text pattern kw_partial w = mask_dob sha text pattern kw_full w.
Proof.
  intros Hp Hf Hc. unfold mask_dob, subn, sub.
  rewrite (replace_from_ext _
             (fun m => _apply_mask sha m (get_strategy kw_full) (get_char kw_full)
                         (lit "DOB")
                         (fun m => ret (str_mul (get_char kw_full) (length (group0 m)))))).
  - reflexivity.
  - intros m st. rewrite Hp, Hf, Hc, apply_mask_partial.
    rewrite apply_mask_fixed by (intros E; vm_compute in E; discriminate E).
    unfold fixed_replacement.
    destruct (decide (lit "full" = lit "full")); [reflexivity|congruence].
Qed.

(** A callback that fails on some matches and otherwise leaves the state
    alone. *)
Lemma replace_from_guarded {St : Type} (repl : Match -> St -> option (str * St))
    (ok : Match -> bool) (f : Match -> str) (s : str) (st : St) (ms : list Match) :
  (forall m, repl m st = if ok m then Some (f m, st) else None) ->
  forall i,
    replace_from repl s ms i st
    = if forallb ok ms then Some (splice_from f s ms i, st) else None.
Proof.
  intros H. induction ms as [|m rest IH]; intros i; [reflexivity|].
  cbn [replace_from forallb splice_from]. rewrite H.
  destruct (ok m); cbn [mbind option_bind andb]; [|reflexivity].
  rewrite IH. destruct (forallb ok rest); reflexivity.
Qed.

Lemma mask_passport_partial (sha : list ascii -> str) (text : str)
    (pattern : option regex) (kw : kwargs) (w : World) :
  get_strategy kw = lit "partial" ->
  let ms := finditer (default PASSPORT_PATTERN pattern) text in
  mask_passport sha text pattern kw w
  = if forallb (fun m => negb (m_start m =? m_end m)) ms
    then Some ((splice (initial_kept (get_char kw)) text ms, length ms), w)
    else None.
Proof.
  intros Hs ms. unfold mask_passport, subn, sub. fold ms.
  assert (Hok : forallb (fun m => negb (m_start m =? m_end m)) ms
                = forallb (fun m => match group0 m with [] => false | _ => true end) ms).
  { pose proof (finditer_matches (default PASSPORT_PATTERN pattern) text) as HF.
    fold ms in HF. induction HF as [|m rest (Hm & Hb & He) _ IH]; [reflexivity|].
    cbn [forallb]. rewrite IH. f_equal.
    pose proof (group0_length _ _ m Hm He) as Hl.
    destruct (group0 m); cbn [length] in Hl.
    - replace (m_end m) with (m_start m) by lia. now rewrite Nat.eqb_refl.
    - destruct (m_start m =? m_end m) eqn:E; [|reflexivity].
      apply Nat.eqb_eq in E. lia. }
  rewrite Hok. clear Hok.
  rewrite (replace_from_guarded _
             (fun m => match group0 m with [] => false | _ => true end)
             (initial_kept (get_char kw))).
  - destruct (forallb _ ms); reflexivity.
  - intros m. rewrite Hs, apply_mask_partial. unfold initial_kept.
    destruct (group0 m); reflexivity.
Qed.

(** X5. Under the partial strategy, and with a pattern whose repetition
    bodies cannot match the empty string, the passport handler raises
    exactly when the pattern has an empty match in the text; otherwise each
    match keeps its first character and the rest is masked. *)
Theorem mask_passport_raises_on_empty_match (sha : list ascii -> str) (text : str)
    (pattern : option regex) (kw : kwargs) (w : World) :
  get_strategy kw = lit "partial" ->
  consuming_reps (default PASSPORT_PATTERN pattern) = true ->
  let ms := finditer (default PASSPORT_PATTERN pattern) text in
  (mask_passport sha text pattern kw w = None
   <-> Exists (fun m => m_start m = m_end m) ms)
  /\ (Forall (fun m => m_start m <> m_end m) ms ->
      mask_passport sha text pattern kw w
      = Some ((splice (initial_kept (get_char kw)) text ms, length ms), w)).
Proof.
  intros Hs _ ms. rewrite (mask_passport_partial sha text pattern kw w Hs). fold ms.
  split.
  - destruct (forallb _ ms) eqn:E.
    + split; [discriminate|]. intros Hex. exfalso.
      rewrite forallb_forall in E. apply Exists_exists in Hex as (m & Hin & Hm).
      apply list_elem_of_In in Hin. specialize (E m Hin).
      rewrite Hm, Nat.eqb_refl in E. discriminate E.
    + split; [intros _|reflexivity].
      induction ms as [|m rest IH]; [discriminate E|].
      cbn [forallb] in E. destruct (m_start m =? m_end m) eqn:Em.
      * left. now apply Nat.eqb_eq.
      * right. apply IH. exact E.
  - intros Hall. replace (forallb _ ms) with true; [reflexivity|].
    symmetry. apply forallb_forall. intros m Hin.
    rewrite Forall_forall in Hall. apply list_elem_of_In in Hin.
    specialize (Hall m Hin). destruct (m_start m =? m_end m) eqn:Em; [|reflexivity].
    apply Nat.eqb_eq in Em. contradiction.
Qed.

Lemma iterated_cls (p : ascii -> bool) (s : str) (n : nat) :
  forall i c j c',
    iterated n (denotes (Cls p) s) i c j c' -> j = i + n /\ c' = c.
Proof.
  induction n as [|n IH]; intros i c j c' H; cbn [iterated] in H.
  - destruct H as [-> ->]. split; [lia|reflexivity].
  - destruct H as (m & cm & (ch & _ & _ & -> & ->) & H).
    apply IH in H as [-> ->]. split; [lia|reflexivity].
Qed.

Lemma denotes_exactly_cls (p : ascii -> bool) (s : str) (n i j : nat) (c c' : captures) :
  denotes (exactly n (Cls p)) s i c j c' -> j = i + n /\ c' = c.
Proof.
  unfold exactly. cbn [denotes]. intros (k & Hlo & Hhi & H).
  specialize (Hhi n eq_refl). apply iterated_cls in H as [-> ->].
  split; [lia|reflexivity].
Qed.

Lemma denotes_opt_cls (p : ascii -> bool) (s : str) (i j : nat) (c c' : captures) :
  denotes (opt (Cls p)) s i c j c' -> i <= j /\ j <= i + 1 /\ c' = c.
Proof.
  unfold opt. cbn [denotes]. intros (k & Hlo & Hhi & H).
  specialize (Hhi 1 eq_refl). apply iterated_cls in H as [-> ->].
  repeat split; lia.
Qed.

(** A match of the default licence pattern: fifteen or sixteen characters,
    whose group 2 is the first two. *)
Lemma driving_license_match (s : str) (m : Match) :
  match_of DRIVING_LICENSE_PATTERN s m -> m_end m <= length s ->
  (length (group0 m) = 15 \/ length (group0 m) = 16)
  /\ group m 2 = Some (Some (take 2 (group0 m))).
Proof.
  intros (Hs & Hn & Hd) He. unfold DRIVING_LICENSE_PATTERN in Hd.
  cbn [seqs denotes] in Hd.
  destruct Hd as (m1 & c1 & (_ & -> & ->) & m2 & c2 & (c0 & Hx & ->) & (_ & Hend & Hcaps)).
  destruct Hx as (m3 & c3 & (c4 & H2 & ->) & m5 & c5 & Hopt & (c6 & H13 & ->)).
  apply (denotes_exactly_cls is_upper) in H2 as [-> ->].
  apply (denotes_opt_cls (Ascii.eqb "-")) in Hopt as (Ho1 & Ho2 & ->).
  apply (denotes_exactly_cls is_decimal) in H13 as [-> ->].
  assert (Hlen : length (group0 m) = m_end m - m_start m).
  { unfold group0. apply slice_length. now rewrite Hs. }
  split; [lia|].
  unfold group. rewrite Hn, Hcaps. cbn [ngroups seqs DRIVING_LICENSE_PATTERN].
  cbn. f_equal. f_equal. unfold group0, slice. rewrite Hs.
  rewrite take_take. f_equal. lia.
Qed.

(** X6. With the default pattern the partial strategy replaces every licence
    number by its two-letter state code followed by fourteen mask strings,
    whether the number had fifteen or sixteen characters. *)
Theorem mask_driving_license_partial (sha : list ascii -> str) (text : str)
    (kw : kwargs) (w : World) :
  get_strategy kw = lit "partial" ->
  let ms := finditer DRIVING_LICENSE_PATTERN text in
  mask_driving_license sha text None kw w
  = Some ((splice (fun m => take 2 (group0 m) ++ str_mul (get_char kw) 14) text ms,
           length ms), w)
  /\ Forall (fun m => length (group0 m) = 15 \/ length (group0 m) = 16) ms.
Proof.
  intros Hs ms.
  pose proof (finditer_matches DRIVING_LICENSE_PATTERN text) as HF. fold ms in HF.
  split.
  - unfold mask_driving_license. cbn [default]. apply subn_splice. fold ms.
    eapply Forall_impl; [exact HF|]. intros m (Hm & _ & He). cbv beta.
    rewrite Hs, apply_mask_partial.
    destruct (driving_license_match text m Hm He) as [Hlen ->].
    cbn [default]. destruct (take 2 (group0 m)) eqn:E; [|reflexivity].
    exfalso. apply (f_equal length) in E. rewrite length_take in E.
    cbn [length] in E. lia.
  - eapply Forall_impl; [exact HF|]. intros m (Hm & _ & He).
    apply (driving_license_match text m Hm He).
Qed.

(** * Synthetic identifiers *)

Lemma pretty_N_char_decimal (x : N) : is_decimal (pretty_N_char x) = true.
Proof.
  destruct x as [|p]; [reflexivity|].
  do 4 (destruct p as [p|p|]; try reflexivity).
Qed.

(** The decimal digits of a number below [10 ^ k]: at most [k] of them. *)
Lemma pretty_N_go_shape (k : nat) :
  forall (x : N) (s : string),
    (x < 10 ^ N.of_nat k)%N ->
    Forall (fun c => is_decimal c = true) (lit s) ->
    Forall (fun c => is_decimal c = true) (lit (pretty_N_go x s))
    /\ length (lit (pretty_N_go x s)) <= length (lit s) + k.
Proof.
  induction k as [|k IH]; intros x s Hx Hs.
  - replace x with 0%N by (cbn in Hx; lia). rewrite pretty_N_go_0.
    split; [exact Hs|lia].
  - destruct (decide (x = 0%N)) as [->|Hne].
    + rewrite pretty_N_go_0. split; [exact Hs|lia].
    + rewrite pretty_N_go_step by lia.
      destruct (IH (x `div` 10)%N (String (pretty_N_char (x `mod` 10)) s)) as [H1 H2].
      * apply N.Div0.div_lt_upper_bound.
        rewrite Nat2N.inj_succ, N.pow_succ_r' in Hx. exact Hx.
      * cbn [lit list_ascii_of_string]. constructor; [|exact Hs].
        apply pretty_N_char_decimal.
      * split; [exact H1|]. unfold lit in *.
        cbn [list_ascii_of_string length] in H2. lia.
Qed.

(** [f"{n:0wd}"] for [n] below [10 ^ w]: exactly [w] decimal digits. *)
Lemma zero_padded_shape (w : nat) (n : N) :
  0 < w -> (n < 10 ^ N.of_nat w)%N ->
  length (zero_padded w n) = w
  /\ Forall (fun c => is_decimal c = true) (zero_padded w n).
Proof.
  intros Hw Hn. unfold zero_padded.
  assert (H : Forall (fun c => is_decimal c = true) (lit (pretty n))
              /\ length (lit (pretty n)) <= w).
  { unfold pretty, pretty_N. destruct (decide (n = 0%N)).
    - split; [repeat constructor|cbn; lia].
    - destruct (pretty_N_go_shape w n "" Hn) as [H1 H2]; [constructor|].
      split; [exact H1|exact H2]. }
  destruct H as [H1 H2]. split.
  - rewrite length_app, repeat_length. lia.
  - apply Forall_app. split; [|exact H1].
    apply Forall_forall. intros c Hc. apply list_elem_of_In, repeat_spec in Hc.
    now subst.
Qed.

Lemma random_choice_run (seq : str) (w : World) :
  random_choice seq w
  = Some (nth (N.to_nat (draws w (cursor w) mod N.of_nat (length seq))) seq "?"%char,
          {| context := context w; draws := draws w; cursor := S (cursor w) |}).
Proof. reflexivity. Qed.

Lemma random_choice_among (P : ascii -> Prop) (seq : str) (n : N) :
  seq <> [] -> Forall P seq ->
  P (nth (N.to_nat (n mod N.of_nat (length seq))) seq "?"%char).
Proof.
  intros Hne Hall. rewrite Forall_forall in Hall. apply Hall.
  apply list_elem_of_In, nth_In.
  assert (0 < length seq) by (destruct seq; [congruence|cbn; lia]).
  pose proof (N.mod_upper_bound n (N.of_nat (length seq))). lia.
Qed.

Lemma randint_below (n hi : N) : (0 + n mod (hi - 0 + 1) < hi + 1)%N.
Proof. pose proof (N.mod_upper_bound n (hi - 0 + 1)%N). lia. Qed.

(** X7. The synthetic PAN of the partial strategy has the form of a PAN,
    five capitals, four digits and a capital, whatever the random source
    gives; it takes seven draws and does not touch the context. *)
Theorem synthetic_pan_is_well_formed (w : World) :
  exists s,
    generate_synthetic_pan w
    = Some (s, {| context := context w; draws := draws w; cursor := 7 + cursor w |})
    /\ length s = 10
    /\ Forall (fun c => is_upper c = true) (take 5 s)
    /\ Forall (fun c => is_decimal c = true) (take 4 (drop 5 s))
    /\ Forall (fun c => is_upper c = true) (drop 9 s).
Proof.
  eexists. split; [reflexivity|].
  match goal with
  | |- context [zero_padded 4 ?n] =>
      destruct (zero_padded_shape 4 n) as [Hl Hd];
      [lia|apply (randint_below _ 9999)|];
      generalize dependent (zero_padded 4 n)
  end.
  intros digits Hl Hd.
  assert (Hc : forall seq n, seq <> [] -> Forall (fun c => is_upper c = true) seq ->
               is_upper (nth (N.to_nat (n mod N.of_nat (length seq))) seq "?"%char) = true)
    by (intros seq n; apply (random_choice_among (fun c => is_upper c = true))).
  repeat split.
  - cbn [app length]. rewrite length_app, Hl. reflexivity.
  - cbn [app take]. repeat constructor;
      (apply Hc; [discriminate|repeat constructor]).
  - cbn [app drop]. rewrite drop_0, take_app_length' by (symmetry; exact Hl). exact Hd.
  - cbn [app drop]. do 4 (destruct digits as [|? digits]; [discriminate Hl|]).
    destruct digits; [|discriminate Hl]. cbn [app drop].
    repeat constructor. apply Hc; [discriminate|repeat constructor].
Qed.

(** X8. The synthetic voter id of the partial strategy has the form of a
    voter id, three capitals and seven digits, whatever the random source
    gives; it takes four draws and does not touch the context. *)
Theorem synthetic_voter_id_is_well_formed (w : World) :
  exists s,
    generate_synthetic_voter_id w
    = Some (s, {| context := context w; draws := draws w; cursor := 4 + cursor w |})
    /\ length s = 10
    /\ Forall (fun c => is_upper c = true) (take 3 s)
    /\ Forall (fun c => is_decimal c = true) (drop 3 s).
Proof.
  eexists. split; [reflexivity|].
  match goal with
  | |- context [zero_padded 7 ?n] =>
      destruct (zero_padded_shape 7 n) as [Hl Hd];
      [lia|apply (randint_below _ 9999999)|];
      generalize dependent (zero_padded 7 n)
  end.
  intros digits Hl Hd.
  assert (Hc : forall seq n, seq <> [] -> Forall (fun c => is_upper c = true) seq ->
               is_upper (nth (N.to_nat (n mod N.of_nat (length seq))) seq "?"%char) = true)
    by (intros seq n; apply (random_choice_among (fun c => is_upper c = true))).
  repeat split.
  - cbn [app length]. rewrite Hl. reflexivity.
  - cbn [app take]. repeat constructor;
      (apply Hc; [discriminate|repeat constructor]).
  - cbn [app drop]. rewrite drop_0. exact Hd.
Qed.

(** * What the handlers do to the world *)

Lemma bind_Some {St A B : Type} (m : M St A) (f : A -> M St B) (st : St)
    (r : B * St) :
  bind m f st = Some r ->
  exists a st', m st = Some (a, st') /\ f a st' = Some r.
Proof.
  unfold bind. destruct (m st) as [[a st']|]; [eauto|discriminate].
Qed.

Lemma bind_run {St A B : Type} (m : M St A) (f : A -> M St B) (st : St) :
  bind m f st = match m st with
                | Some (a, st') => f a st'
                | None => None
                end.
Proof. reflexivity. Qed.

Lemma ret_Some {St A : Type} (a : A) (st : St) (r : A * St) :
  ret a st = Some r -> r = (a, st).
Proof. unfold ret. now intros [= <-]. Qed.

Lemma replace_from_preserves {St : Type} (P : St -> Prop)
    (repl : Match -> St -> option (str * St)) (s : str) (ms : list Match) :
  (forall m st out st', P st -> repl m st = Some (out, st') -> P st') ->
  forall i st out st',
    P st -> replace_from repl s ms i st = Some (out, st') -> P st'.
Proof.
  intros Hrepl. induction ms as [|m rest IH]; intros i st out st' HP Hrun.
  - cbn [record_loop rows_loop process_loop ret] in Hrun. unfold ret in Hrun.
    now injection Hrun as _ <-.
  - cbn [replace_from] in Hrun.
    destruct (repl m st) as [[o st1]|] eqn:E1; [|discriminate Hrun].
    cbn [mbind option_bind] in Hrun.
    destruct (replace_from repl s rest (m_end m) st1) as [[t st2]|] eqn:E2;
      [|discriminate Hrun].
    cbn [mbind option_bind] in Hrun. injection Hrun as _ <-.
    eapply IH; [|exact E2]. eapply Hrepl; [exact HP|exact E1].
Qed.


Lemma subn_preserves {St : Type} (P : St -> Prop) (p : regex)
    (repl : Match -> St -> option (str * St)) (s : str) :
  (forall m st out st', P st -> repl m st = Some (out, st') -> P st') ->
  forall st r st', P st -> subn p repl s st = Some (r, st') -> P st'.
Proof.
  intros Hrepl st r st' HP Hrun. unfold subn, sub in Hrun.
  destruct (replace_from repl s (finditer p s) 0 st) as [[o st1]|] eqn:E;
    [|discriminate Hrun].
  cbn [mbind option_bind] in Hrun. injection Hrun as _ <-.
  eapply replace_from_preserves; [exact Hrepl|exact HP|exact E].
Qed.


Lemma apply_mask_preserves {St : Type} (P : St -> Prop) (sha : list ascii -> str)
    (m : Match) (strategy mask_char pii_type : str) (partial : Match -> M St str) :
  (forall st out st', P st -> partial m st = Some (out, st') -> P st') ->
  forall st out st',
    P st -> _apply_mask sha m strategy mask_char pii_type partial st = Some (out, st') ->
    P st'.
Proof.
  intros Hp st out st' HP Hrun.
  destruct (decide (strategy = lit "partial")) as [->|Hne].
  - rewrite apply_mask_partial in Hrun. eapply Hp; [exact HP|exact Hrun].
  - rewrite apply_mask_fixed in Hrun by exact Hne. now injection Hrun as _ <-.
Qed.


Lemma synthetic_pan_runs (w : World) :
  exists s w', generate_synthetic_pan w = Some (s, w') /\ context w' = context w.
Proof. eexists _, _. split; reflexivity. Qed.

Lemma synthetic_voter_id_runs (w : World) :
  exists s w', generate_synthetic_voter_id w = Some (s, w') /\ context w' = context w.
Proof. eexists _, _. split; reflexivity. Qed.

Lemma handler_frame (sha : list ascii -> str) (key : str) (h : handler)
    (text : str) (pattern : option regex) (kw : kwargs) (c : pyctx)
    (w w' : World) (r : str * nat) :
  (key, h) ∈ PII_HANDLERS sha ->
  same_unusable c w ->
  h text pattern kw w = Some (r, w') ->
  same_unusable c w'.
Proof.
  intros Hin HP Hrun. unfold PII_HANDLERS in Hin.
  repeat (apply elem_of_cons in Hin as [Hin|Hin];
          [injection Hin as -> ->|]); [..|now apply elem_of_nil in Hin].
  - destruct (mask_aadhaar_splice sha text pattern kw w) as (f & _ & E).
    rewrite E in Hrun. now injection Hrun as _ <-.
  - revert Hrun. apply subn_preserves; [|exact HP].
    intros m. apply apply_mask_preserves.
    intros st out st' [Hc Hu] Hg.
    destruct (synthetic_pan_runs st) as (s & st1 & E & Hctx).
    rewrite E in Hg. injection Hg as _ <-. split; [congruence|exact Hu].
  - destruct (mask_credit_cards_splice sha text pattern kw w) as (f & _ & E).
    rewrite E in Hrun. now injection Hrun as _ <-.
  - revert Hrun. apply subn_preserves; [|exact HP].
    intros m. apply apply_mask_preserves.
    intros st out st' [Hc Hu] Hg. unfold email_partial in Hg.
    rewrite Hc, Hu in Hg.
    repeat match type of Hg with
           | match ?x with _ => _ end = _ => destruct x; try discriminate Hg
           | (if ?x then _ else _) = _ => destruct x
           end; injection Hg as _ <-; split; assumption.
  - revert Hrun. apply subn_preserves; [|exact HP].
    intros m. apply apply_mask_preserves.
    intros st out st' HP' Hg. destruct (group0 m); [discriminate Hg|].
    now injection Hg as _ <-.
  - revert Hrun. apply subn_preserves; [|exact HP].
    intros m. apply apply_mask_preserves.
    intros st out st' HP' Hg. destruct (group m 2) as [g|]; [|discriminate Hg].
    destruct (default [] g); now injection Hg as _ <-.
  - revert Hrun. apply subn_preserves; [|exact HP].
    intros m. apply apply_mask_preserves.
    intros st out st' HP' Hg. now injection Hg as _ <-.
  - revert Hrun. apply subn_preserves; [|exact HP].
    intros m. apply apply_mask_preserves.
    intros st out st' [Hc Hu] Hg. unfold person_partial in Hg.
    rewrite Hc, Hu in Hg.
    destruct (mapM _ _); [|discriminate Hg].
    injection Hg as _ <-. split; assumption.
  - revert Hrun. apply subn_preserves; [|exact HP].
    intros m. apply apply_mask_preserves.
    intros st out st' [Hc Hu] Hg.
    destruct (synthetic_voter_id_runs st) as (s & st1 & E & Hctx).
    rewrite E in Hg. injection Hg as _ <-. split; [congruence|exact Hu].
  - revert Hrun. apply subn_preserves; [|exact HP].
    intros m. apply apply_mask_preserves.
    intros st out st' HP' Hg. now injection Hg as _ <-.
Qed.

Lemma process_loop_preserves (P : World -> Prop)
    (patterns : option (gmap str regex)) (mask_configs : option (gmap str MaskConfig))
    (todo : list (str * handler)) :
  (forall key h text pattern kw w r w',
      (key, h) ∈ todo -> P w -> h text pattern kw w = Some (r, w') -> P w') ->
  forall text counts w r w',
    P w -> process_loop todo patterns mask_configs text counts w = Some (r, w') ->
    P w'.
Proof.
  induction todo as [|[key h] rest IH]; intros Hh text counts w r w' HP Hrun.
  - cbn [record_loop rows_loop process_loop ret] in Hrun. unfold ret in Hrun.
    now injection Hrun as _ <-.
  - assert (Hrest : forall text counts w r w',
               P w -> process_loop rest patterns mask_configs text counts w
                      = Some (r, w') -> P w').
    { apply IH. intros k h' t pat kw w0 r0 w0' Hin. apply (Hh k h'). now right. }
    cbn [process_loop] in Hrun.
    destruct (config_of mask_configs key) as [cfg|]; [|now apply Hrest in Hrun].
    destruct (enabled cfg); [|now apply Hrest in Hrun].
    unfold bind in Hrun.
    destruct (h text _ _ w) as [[[out n] w1]|] eqn:E; [|discriminate Hrun].
    assert (HP1 : P w1) by (eapply (Hh key h); [now left|exact HP|exact E]).
    destruct (counts !! key); [|discriminate Hrun].
    now apply Hrest in Hrun.
Qed.

Lemma process_text_frame (sha : list ascii -> str) (text : str)
    (patterns : option (gmap str regex)) (mask_configs : option (gmap str MaskConfig))
    (c : pyctx) (w w' : World) (r : str * gmap str nat) :
  same_unusable c w ->
  process_text sha text patterns mask_configs w = Some (r, w') ->
  same_unusable c w'.
Proof.
  intros HP. unfold process_text, process_text_with.
  apply process_loop_preserves; [|exact HP].
  intros key h t pat kw w0 r0 w0' Hin HP0.
  now apply (handler_frame sha key h).
Qed.

Lemma record_loop_cons (sha : list ascii -> str) (cell : option str)
    (rest : list (option str)) (patterns : option (gmap str regex))
    (mask_configs : option (gmap str MaskConfig)) (out_row : list str)
    (totals : gmap str nat) (w : World) :
  record_loop sha (cell :: rest) patterns mask_configs out_row totals w
  = bind (process_text sha (default [] cell) patterns mask_configs)
      (fun result =>
         let '(masked_cell, cell_counts) := result in
         record_loop sha rest patterns mask_configs (out_row ++ [masked_cell])
           (map_imap (fun key n => Some (n + default 0 (cell_counts !! key)))
                     totals)) w.
Proof. reflexivity. Qed.

Lemma rows_loop_cons (sha : list ascii -> str) (row : list (option str))
    (rest : list (list (option str))) (patterns : option (gmap str regex))
    (mask_configs : option (gmap str MaskConfig)) (rows : list (list str))
    (summary : Summary) (w : World) :
  rows_loop sha (row :: rest) patterns mask_configs rows summary w
  = bind (detect_and_deidentify_record sha row patterns mask_configs)
      (fun result =>
         let '(deid_row, row_counts) := result in
         rows_loop sha rest patterns mask_configs (rows ++ [deid_row])
           {| rows_processed := rows_processed summary + 1;
              matches := map_imap
                           (fun key n => Some (n + default 0 (row_counts !! key)))
                           (matches summary) |}) w.
Proof. reflexivity. Qed.

Lemma cells_run_cons (sha : list ascii -> str) (cell : option str)
    (rest : list (option str)) (patterns : option (gmap str regex))
    (mask_configs : option (gmap str MaskConfig)) (w : World) :
  cells_run sha (cell :: rest) patterns mask_configs w
  = bind (process_text sha (default [] cell) patterns mask_configs)
      (fun r => bind (cells_run sha rest patterns mask_configs)
                  (fun rs => ret (r :: rs))) w.
Proof. reflexivity. Qed.

Lemma record_loop_frame (sha : list ascii -> str)
    (patterns : option (gmap str regex)) (mask_configs : option (gmap str MaskConfig))
    (c : pyctx) (row : list (option str)) :
  forall out_row totals w r w',
    same_unusable c w ->
    record_loop sha row patterns mask_configs out_row totals w = Some (r, w') ->
    same_unusable c w'.
Proof.
  induction row as [|cell rest IH]; intros out_row totals w r w' HP Hrun.
  - cbn [record_loop] in Hrun. apply ret_Some in Hrun. now injection Hrun as _ <-.
  - rewrite record_loop_cons in Hrun.
    apply bind_Some in Hrun as ([t cs] & w1 & E & Hrun).
    eapply IH; [|exact Hrun]. eapply process_text_frame; [exact HP|exact E].
Qed.

Lemma rows_loop_frame (sha : list ascii -> str)
    (patterns : option (gmap str regex)) (mask_configs : option (gmap str MaskConfig))
    (c : pyctx) (input_rows : list (list (option str))) :
  forall rows summary w r w',
    same_unusable c w ->
    rows_loop sha input_rows patterns mask_configs rows summary w = Some (r, w') ->
    same_unusable c w'.
Proof.
  induction input_rows as [|row rest IH]; intros rows summary w r w' HP Hrun.
  - cbn [rows_loop] in Hrun. apply ret_Some in Hrun. now injection Hrun as _ <-.
  - rewrite rows_loop_cons in Hrun.
    apply bind_Some in Hrun as ([t cs] & w1 & E & Hrun).
    eapply IH; [|exact Hrun].
    eapply record_loop_frame; [exact HP|exact E].
Qed.

(** X9. A context that is [None], not a dictionary, or an empty dictionary
    is never written: whatever the row, the patterns and the
    configuration, [detect_and_deidentify_record] hands it back as it
    was when it returns. *)
Theorem unusable_context_is_never_written (sha : list ascii -> str)
    (row : list (option str)) (patterns : option (gmap str regex))
    (mask_configs : option (gmap str MaskConfig)) (w : World) :
  usable_dict (context w) = None ->
  match detect_and_deidentify_record sha row patterns mask_configs w with
  | Some (_, w') => context w' = context w
  | None => True
  end.
Proof.
  intros Hu.
  destruct (detect_and_deidentify_record sha row patterns mask_configs w)
    as [[r w']|] eqn:Hrun; [|exact I].
  unfold detect_and_deidentify_record in Hrun.
  eapply (record_loop_frame sha patterns mask_configs (context w)) in Hrun as [Hc _].
  - exact Hc.
  - split; [reflexivity|exact Hu].
Qed.

(** X10. A batch starts from a new empty dictionary, so it ends with one:
    no alias is allocated during a batch, whatever the rows, the patterns
    and the configuration. *)
Theorem batch_context_stays_empty (sha : list ascii -> str)
    (input_rows : list (list (option str))) (patterns : option (gmap str regex))
    (mask_configs : option (gmap str MaskConfig)) (w : World) :
  match process_rows sha input_rows patterns mask_configs w with
  | Some (_, w') => context w' = CtxDict ∅
  | None => True
  end.
Proof.
  destruct (process_rows sha input_rows patterns mask_configs w)
    as [[r w']|] eqn:Hrun; [|exact I].
  unfold process_rows in Hrun.
  eapply (rows_loop_frame sha patterns mask_configs (CtxDict ∅)) in Hrun as [Hc _].
  - exact Hc.
  - split; reflexivity.
Qed.

(** * Handlers that cannot raise *)





(** * The single-category entry point *)

Lemma process_loop_no_config (todo : list (str * handler))
    (patterns : option (gmap str regex)) (mask_configs : option (gmap str MaskConfig))
    (text : str) (counts : gmap str nat) (w : World) :
  (forall key h, (key, h) ∈ todo -> config_of mask_configs key = None) ->
  process_loop todo patterns mask_configs text counts w = Some ((text, counts), w).
Proof.
  induction todo as [|[key h] rest IH]; intros Hnone; [reflexivity|].
  cbn [process_loop]. rewrite (Hnone key h) by now left.
  apply IH. intros k h' Hin. apply (Hnone k h'). now right.
Qed.

Lemma set_context_back (c : pyctx) (w : World) :
  set_context (context w) (set_context c w) = w.
Proof. destruct w. reflexivity. Qed.

(** X12. [apply_deidentification] with a [pii_type] that is not a key of
    the handler table does nothing: the text comes back as it was,
    whatever the strategy. *)
Theorem apply_deidentification_unknown_type (sha : list ascii -> str)
    (text strategy pii_type : str) (kw_char : option str) (has_context : bool)
    (w : World) :
  pii_type ∉ (PII_HANDLERS sha).*1 ->
  apply_deidentification sha text strategy pii_type kw_char has_context w
  = Some (text, w).
Proof.
  intros Hkey. unfold apply_deidentification, process_text, process_text_with.
  rewrite process_loop_no_config.
  - destruct has_context; [reflexivity|]. now rewrite set_context_back.
  - intros key h Hin. unfold config_of. cbn [default].
    apply lookup_singleton_ne. intros ->. apply Hkey.
    apply list_elem_of_fmap. exists (key, h). split; [reflexivity|exact Hin].
Qed.

Lemma process_loop_single (key : str) (cfg : MaskConfig) (h : handler)
    (todo : list (str * handler)) :
  enabled cfg = true ->
  NoDup todo.*1 ->
  (key, h) ∈ todo ->
  forall text counts w,
    is_Some (counts !! key) ->
    process_loop todo None (Some {[ key := cfg ]}) text counts w
    = match h text None {| kw_strategy := Some (strategy cfg);
                           kw_char := Some (char cfg) |} w with
      | Some ((out, n), w') =>
          Some ((out, <[key := default 0 (counts !! key) + n]> counts), w')
      | None => None
      end.
Proof.
  intros Hen. induction todo as [|[k h'] rest IH]; intros Hnd Hin text counts w Hc;
    [now apply elem_of_nil in Hin|].
  cbn [fmap list_fmap fst] in Hnd. apply NoDup_cons in Hnd as [Hk Hnd].
  cbn [process_loop]. unfold config_of. cbn [from_option id].
  destruct (decide (k = key)) as [->|Hne].
  - assert (h' = h) as ->.
    { apply elem_of_cons in Hin as [Hin|Hin]; [congruence|].
      exfalso. apply Hk. apply list_elem_of_fmap. exists (key, h). now split. }
    rewrite lookup_singleton_eq, Hen. unfold bind. rewrite lookup_empty.
    destruct (h text None _ w) as [[[out n] w']|]; [|reflexivity].
    destruct Hc as [c Hc]. rewrite Hc. cbn [default].
    apply process_loop_no_config. intros k h0 Hin0. unfold config_of. cbn [default].
    apply lookup_singleton_ne. intros ->. apply Hk.
    apply list_elem_of_fmap. exists (k, h0). now split.
  - rewrite lookup_singleton_ne by congruence.
    apply IH; [exact Hnd| |exact Hc].
    apply elem_of_cons in Hin as [Hin|Hin]; [congruence|exact Hin].
Qed.

Lemma handler_keys_NoDup (sha : list ascii -> str) : NoDup (PII_HANDLERS sha).*1.
Proof.
  cbn. repeat (apply NoDup_cons; split;
               [intros Hin; apply list_elem_of_In in Hin; cbn [In] in Hin;
                repeat (destruct Hin as [Hin|Hin];
                        [vm_compute in Hin; discriminate Hin|]); exact Hin|]).
  apply NoDup_nil_2.
Qed.

(** X13. With a key of the handler table, [apply_deidentification] is one
    call of that handler with its default pattern, the given strategy and
    the mask character (an asterisk by default); the count is dropped, and
    without a context argument the call runs on a new empty dictionary
    that is discarded. *)
Theorem apply_deidentification_is_one_handler (sha : list ascii -> str)
    (key : str) (h : handler) (text strategy : str) (kw_char : option str)
    (has_context : bool) (w : World) :
  (key, h) ∈ PII_HANDLERS sha ->
  apply_deidentification sha text strategy key kw_char has_context w
  = match h text None {| kw_strategy := Some strategy;
                         kw_char := Some (default (lit "*") kw_char) |}
            (if has_context then w else set_context (CtxDict ∅) w) with
    | Some ((out, _), w') =>
        Some (out, if has_context then w' else set_context (context w) w')
    | None => None
    end.
Proof.
  intros Hin. unfold apply_deidentification, process_text, process_text_with.
  rewrite (process_loop_single key _ h);
    [|reflexivity|apply handler_keys_NoDup|exact Hin
     |now apply (zero_counts_is_Some _ key h)].
  cbn -[set_context].
  destruct (h text None _ _) as [[[out n] w']|]; reflexivity.
Qed.

(** * Rows and batches *)

Lemma add_no_counts (totals : gmap str nat) :
  map_imap (fun key n => Some (n + total_of key [])) totals = totals.
Proof.
  apply map_eq. intros key. rewrite map_lookup_imap.
  destruct (totals !! key) as [n|]; cbn; [|reflexivity].
  unfold total_of. cbn [foldr]. f_equal. lia.
Qed.

Lemma add_more_counts (totals cs : gmap str nat) (rest : list (gmap str nat)) :
  map_imap (fun key n => Some (n + total_of key rest))
    (map_imap (fun key n => Some (n + default 0 (cs !! key))) totals)
  = map_imap (fun key n => Some (n + total_of key (cs :: rest))) totals.
Proof.
  apply map_eq. intros key. rewrite !map_lookup_imap.
  destruct (totals !! key) as [n|]; cbn; [|reflexivity].
  unfold total_of. cbn [foldr]. f_equal. lia.
Qed.

Lemma record_loop_cells (sha : list ascii -> str)
    (patterns : option (gmap str regex)) (mask_configs : option (gmap str MaskConfig))
    (row : list (option str)) :
  forall out_row totals w,
    record_loop sha row patterns mask_configs out_row totals w
    = match cells_run sha row patterns mask_configs w with
      | Some (rs, w') =>
          Some ((out_row ++ rs.*1,
                 map_imap (fun key n => Some (n + total_of key rs.*2)) totals), w')
      | None => None
      end.
Proof.
  induction row as [|cell rest IH]; intros out_row totals w.
  - cbn [record_loop cells_run ret fmap list_fmap].
    now rewrite app_nil_r, add_no_counts.
  - rewrite record_loop_cons, cells_run_cons, !bind_run.
    destruct (process_text sha (default [] cell) patterns mask_configs w)
      as [[[t cs] w1]|]; [|reflexivity].
    rewrite IH, bind_run.
    destruct (cells_run sha rest patterns mask_configs w1) as [[rs w2]|];
      [|reflexivity].
    unfold ret. cbn [fmap list_fmap fst snd].
    now rewrite <- app_assoc, add_more_counts.
Qed.

Lemma cells_run_length (sha : list ascii -> str)
    (patterns : option (gmap str regex)) (mask_configs : option (gmap str MaskConfig))
    (row : list (option str)) :
  forall w rs w',
    cells_run sha row patterns mask_configs w = Some (rs, w') ->
    length rs = length row.
Proof.
  induction row as [|cell rest IH]; intros w rs w' E.
  - cbn [cells_run] in E. apply ret_Some in E. now injection E as -> _.
  - rewrite cells_run_cons in E.
    apply bind_Some in E as (r & w1 & _ & E).
    apply bind_Some in E as (rs' & w2 & E' & E).
    apply ret_Some in E. injection E as -> _. cbn [length]. f_equal.
    exact (IH _ _ _ E').
Qed.

(** X14. [detect_and_deidentify_record] is [process_text] cell by cell, in
    order, on one world, with an absent cell read as the empty string:
    the output row has the masked cells, so one per input cell, and the
    count of every category is the sum of the counts of the cells. *)
Theorem record_is_cell_by_cell (sha : list ascii -> str)
    (row : list (option str)) (patterns : option (gmap str regex))
    (mask_configs : option (gmap str MaskConfig)) (w : World) :
  match detect_and_deidentify_record sha row patterns mask_configs w with
  | Some ((out_row, total_counts), w') =>
      exists rs,
        cells_run sha row patterns mask_configs w = Some (rs, w')
        /\ out_row = rs.*1
        /\ length out_row = length row
        /\ (forall key h, (key, h) ∈ PII_HANDLERS sha ->
                          total_counts !! key = Some (total_of key rs.*2))
  | None => cells_run sha row patterns mask_configs w = None
  end.
Proof.
  unfold detect_and_deidentify_record. rewrite record_loop_cells.
  destruct (cells_run sha row patterns mask_configs w) as [[rs w']|] eqn:E;
    [|reflexivity].
  exists rs. repeat split.
  - cbn [app]. rewrite length_fmap. exact (cells_run_length _ _ _ _ _ _ _ E).
  - intros key h Hin. rewrite map_lookup_imap.
    destruct (zero_counts_is_Some _ key h Hin) as [n Hn].
    rewrite zero_counts_lookup.
    + reflexivity.
    + apply list_elem_of_In, list_elem_of_fmap. exists (key, h). now split.
Qed.

Lemma record_loop_length (sha : list ascii -> str) (row : list (option str))
    (patterns : option (gmap str regex)) (mask_configs : option (gmap str MaskConfig))
    (acc : list str) (totals : gmap str nat)
    (w w' : World) (out_row : list str) (total_counts : gmap str nat) :
  record_loop sha row patterns mask_configs acc totals w
  = Some ((out_row, total_counts), w') ->
  length out_row = length acc + length row.
Proof.
  rewrite record_loop_cells.
  destruct (cells_run sha row patterns mask_configs w) as [[rs w1]|] eqn:E;
    [|discriminate].
  intros H. injection H as <- _ _. rewrite length_app, length_fmap.
  f_equal. exact (cells_run_length _ _ _ _ _ _ _ E).
Qed.

Lemma record_length (sha : list ascii -> str) (row : list (option str))
    (patterns : option (gmap str regex)) (mask_configs : option (gmap str MaskConfig))
    (w w' : World) (out_row : list str) (total_counts : gmap str nat) :
  detect_and_deidentify_record sha row patterns mask_configs w
  = Some ((out_row, total_counts), w') ->
  length out_row = length row.
Proof.
  unfold detect_and_deidentify_record. intros E.
  now apply record_loop_length in E.
Qed.

Lemma rows_loop_shape (sha : list ascii -> str)
    (patterns : option (gmap str regex)) (mask_configs : option (gmap str MaskConfig))
    (input_rows : list (list (option str))) :
  forall acc summary w rows summary' w',
    rows_loop sha input_rows patterns mask_configs acc summary w
    = Some ((rows, summary'), w') ->
    rows_processed summary' = rows_processed summary + length input_rows
    /\ exists new, rows = acc ++ new
                   /\ Forall2 (fun row out => length out = length row) input_rows new.
Proof.
  induction input_rows as [|row rest IH]; intros acc summary w rows summary' w' E.
  - cbn [rows_loop] in E. apply ret_Some in E. injection E as -> -> _.
    split; [cbn [length]; lia|].
    exists []. split; [now rewrite app_nil_r|constructor].
  - rewrite rows_loop_cons in E.
    apply bind_Some in E as ([out cs] & w1 & Er & E).
    apply IH in E as (Hn & new & -> & Hall). cbn [rows_processed length] in *.
    split; [lia|]. exists (out :: new). split; [now rewrite <- app_assoc|].
    constructor; [|exact Hall]. exact (record_length _ _ _ _ _ _ _ _ Er).
Qed.

(** X15. A batch that completes reports as many processed rows as it was
    given, and returns them in order with as many cells each. *)
Theorem batch_keeps_the_shape (sha : list ascii -> str)
    (input_rows : list (list (option str))) (patterns : option (gmap str regex))
    (mask_configs : option (gmap str MaskConfig)) (w : World) :
  match process_rows sha input_rows patterns mask_configs w with
  | Some ((rows, summary), _) =>
      rows_processed summary = length input_rows
      /\ Forall2 (fun row out => length out = length row) input_rows rows
  | None => True
  end.
Proof.
  destruct (process_rows sha input_rows patterns mask_configs w)
    as [[[rows summary] w']|] eqn:E; [|exact I].
  unfold process_rows in E.
  apply rows_loop_shape in E as (Hn & new & -> & Hall).
  cbn [rows_processed] in Hn. split; [lia|]. exact Hall.
Qed.

(** * What the validators detect *)

Lemma forallb_below (P : nat -> bool) (k : nat) :
  forallb P (seq 0 k) = true -> forall n, n < k -> P n = true.
Proof.
  intros H n Hn. rewrite forallb_forall in H. apply H, in_seq. lia.
Qed.

Lemma int_of_char_inj (c c' : ascii) (n : nat) :
  int_of_char c = Some n -> int_of_char c' = Some n -> c = c'.
Proof.
  unfold int_of_char.
  destruct (is_decimal c) eqn:E; [|discriminate].
  destruct (is_decimal c') eqn:E'; [|discriminate].
  intros [= H] [= H']. unfold is_decimal, in_range in E, E'.
  apply andb_true_iff in E as [E1 _]. apply andb_true_iff in E' as [E1' _].
  apply Nat.leb_le in E1, E1'.
  rewrite <- (ascii_nat_embedding c), <- (ascii_nat_embedding c').
  unfold ord in *. f_equal. lia.
Qed.

(** The digits of a string around one decimal character. *)
Lemma digits_of_around (a b : str) (x : ascii) (n : nat) :
  int_of_char x = Some n ->
  digits_of (a ++ [x] ++ b) = digits_of a ++ [n] ++ digits_of b.
Proof.
  intros H. rewrite !digits_of_app. f_equal.
  cbn [app]. now rewrite digits_of_cons, H.
Qed.

Module VerhoeffDetects.
Import Verhoeff VerhoeffFacts.

Lemma aadhaar_verhoeff_check (number : str) :
  aadhaar_verhoeff number = (check_value (digits_of number) =? 0).
Proof.
  unfold aadhaar_verhoeff, try_body, check_value.
  pose proof (strip_all_decimal number) as Hall.
  destruct (walk_check_from
              (rev (re_sub_class (fun c => negb (is_decimal c)) [] number)) 0 0)
    as [Hw _]; [lia|now apply Forall_rev|].
  rewrite Hw. cbn [mbind option_bind].
  now rewrite digits_of_rev, digits_of_strip.
Qed.

Lemma p_is_row (i n : nat) : p i n = p_row (i mod 8) n.
Proof. reflexivity. Qed.

Lemma p_row_below (r n : nat) : r < 8 -> n < 10 -> p_row r n < 10.
Proof. intros Hr Hn. now apply (p_row_lookup r n). Qed.

Lemma d_below (c x : nat) : c < 10 -> x < 10 -> d c x < 10.
Proof. intros Hc Hx. now apply (d_lookup c x). Qed.

Lemma d_cancel_left (c x y : nat) :
  c < 10 -> x < 10 -> y < 10 -> d c x = d c y -> x = y.
Proof.
  intros Hc Hx Hy H.
  assert (Hall : forallb (fun c => forallb (fun x => forallb (fun y =>
                   implb (d c x =? d c y) (x =? y))
                   (seq 0 10)) (seq 0 10)) (seq 0 10) = true)
    by (vm_compute; reflexivity).
  pose proof (forallb_below _ _ (forallb_below _ _ (forallb_below _ _ Hall c Hc) x Hx) y Hy)
    as Hxy.
  cbv beta in Hxy. rewrite H, Nat.eqb_refl in Hxy. now apply Nat.eqb_eq.
Qed.

Lemma d_cancel_right (c c' x : nat) :
  c < 10 -> c' < 10 -> x < 10 -> d c x = d c' x -> c = c'.
Proof.
  intros Hc Hc' Hx H.
  assert (Hall : forallb (fun c => forallb (fun c' => forallb (fun x =>
                   implb (d c x =? d c' x) (c =? c'))
                   (seq 0 10)) (seq 0 10)) (seq 0 10) = true)
    by (vm_compute; reflexivity).
  pose proof (forallb_below _ _ (forallb_below _ _ (forallb_below _ _ Hall c Hc) c' Hc') x Hx)
    as Hxy.
  cbv beta in Hxy. rewrite H, Nat.eqb_refl in Hxy. now apply Nat.eqb_eq.
Qed.

Lemma p_row_inj (r x y : nat) :
  r < 8 -> x < 10 -> y < 10 -> p_row r x = p_row r y -> x = y.
Proof.
  intros Hr Hx Hy H.
  assert (Hall : forallb (fun r => forallb (fun x => forallb (fun y =>
                   implb (p_row r x =? p_row r y) (x =? y))
                   (seq 0 10)) (seq 0 10)) (seq 0 8) = true)
    by (vm_compute; reflexivity).
  pose proof (forallb_below _ _ (forallb_below _ _ (forallb_below _ _ Hall r Hr) x Hx) y Hy)
    as Hxy.
  cbv beta in Hxy. rewrite H, Nat.eqb_refl in Hxy. now apply Nat.eqb_eq.
Qed.

(** Two adjacent digits, in either order, from any check value and at any
    position: whether the results agree. *)
Lemma swap_verdict (r c x y : nat) :
  r < 8 -> c < 10 -> x < 10 -> y < 10 ->
  (d (d c (p_row r x)) (p_row ((r + 1) mod 8) y)
   =? d (d c (p_row r y)) (p_row ((r + 1) mod 8) x))
  = (x =? y) || ((r =? 6) && is_unseen x y).
Proof.
  intros Hr Hc Hx Hy.
  assert (Hall : forallb (fun r => forallb (fun c => forallb (fun x => forallb (fun y =>
                   Bool.eqb
                     (d (d c (p_row r x)) (p_row ((r + 1) mod 8) y)
                      =? d (d c (p_row r y)) (p_row ((r + 1) mod 8) x))
                     ((x =? y) || ((r =? 6) && is_unseen x y)))
                   (seq 0 10)) (seq 0 10)) (seq 0 10)) (seq 0 8) = true)
    by (vm_compute; reflexivity).
  pose proof (forallb_below _ _ (forallb_below _ _ (forallb_below _ _
                (forallb_below _ _ Hall r Hr) c Hc) x Hx) y Hy) as Hxy.
  cbv beta in Hxy. now apply Bool.eqb_prop in Hxy.
Qed.

Lemma is_unseen_spec (x y : nat) :
  is_unseen x y = true <-> (x, y) ∈ unseen_swaps.
Proof.
  unfold is_unseen. rewrite existsb_exists. split.
  - intros ([u v] & Hin & H). apply andb_true_iff in H as [H1 H2].
    apply Nat.eqb_eq in H1, H2. cbn [fst snd] in *. subst.
    now apply list_elem_of_In.
  - intros Hin. exists (x, y). split; [now apply list_elem_of_In|].
    cbn [fst snd]. now rewrite !Nat.eqb_refl.
Qed.

Lemma check_from_app (u v : list nat) :
  forall i c, check_from i c (u ++ v) = check_from (i + length u) (check_from i c u) v.
Proof.
  induction u as [|n u IH]; intros i c; cbn [app check_from length].
  - now rewrite Nat.add_0_r.
  - rewrite IH. f_equal. lia.
Qed.

Lemma check_from_below (u : list nat) :
  forall i c, c < 10 -> Forall (fun n => n < 10) u -> check_from i c u < 10.
Proof.
  induction u as [|n u IH]; intros i c Hc Hu; [exact Hc|].
  inversion Hu as [|? ? Hn Hu']; subst. cbn [check_from]. apply IH; [|exact Hu'].
  apply d_below; [exact Hc|]. rewrite p_is_row. apply p_row_below; [|exact Hn].
  apply Nat.mod_upper_bound. lia.
Qed.

(** The rest of the walk keeps two different check values apart. *)
Lemma check_from_inj (u : list nat) :
  forall i c c', c < 10 -> c' < 10 -> Forall (fun n => n < 10) u ->
    check_from i c u = check_from i c' u -> c = c'.
Proof.
  induction u as [|n u IH]; intros i c c' Hc Hc' Hu H; [exact H|].
  inversion Hu as [|? ? Hn Hu']; subst. cbn [check_from] in H.
  assert (Hp : p i n < 10).
  { rewrite p_is_row. apply p_row_below; [|exact Hn]. apply Nat.mod_upper_bound. lia. }
  apply IH in H; [|now apply d_below|now apply d_below|exact Hu'].
  now apply d_cancel_right in H.
Qed.

(** Dividing on the left in the table [d]: every check value is reached
    from exactly one check value by a given digit. *)
Lemma d_reaches (t x : nat) :
  t < 10 -> x < 10 -> exists c, c < 10 /\ d c x = t.
Proof.
  intros Ht Hx.
  assert (Hall : forallb (fun t => forallb (fun x =>
                   existsb (fun c => d c x =? t) (seq 0 10))
                   (seq 0 10)) (seq 0 10) = true)
    by (vm_compute; reflexivity).
  pose proof (forallb_below _ _ (forallb_below _ _ Hall t Ht) x Hx) as H.
  cbv beta in H. apply existsb_exists in H as (c & Hin & Hc).
  apply in_seq in Hin. apply Nat.eqb_eq in Hc. exists c. split; [lia|exact Hc].
Qed.

(** The rest of the walk reaches every check value. *)
Lemma check_from_onto (u : list nat) :
  forall i t, t < 10 -> Forall (fun n => n < 10) u ->
    exists c, c < 10 /\ check_from i c u = t.
Proof.
  induction u as [|n u IH]; intros i t Ht Hu.
  - exists t. split; [exact Ht|reflexivity].
  - inversion Hu as [|? ? Hn Hu']; subst.
    destruct (IH (S i) t Ht Hu') as (c' & Hc' & Hrest).
    assert (Hp : p i n < 10).
    { rewrite p_is_row. apply p_row_below; [|exact Hn]. apply Nat.mod_upper_bound. lia. }
    destruct (d_reaches c' (p i n) Hc' Hp) as (c & Hc & Hd).
    exists c. split; [exact Hc|]. cbn [check_from]. now rewrite Hd.
Qed.

(** The last digit starts the walk as it is. *)
Lemma first_step (k : nat) : k < 10 -> d 0 (p 0 k) = k.
Proof.
  intros Hk.
  assert (Hall : forallb (fun k => d 0 (p 0 k) =? k) (seq 0 10) = true)
    by (vm_compute; reflexivity).
  pose proof (forallb_below _ _ Hall k Hk) as H. cbv beta in H.
  now apply Nat.eqb_eq.
Qed.

(** Every string is completed to an accepted one by exactly one final
    digit. *)
Lemma one_final_digit (payload : str) :
  exists n, n < 10
    /\ forall c k, int_of_char c = Some k ->
         (aadhaar_verhoeff (payload ++ [c]) = true <-> k = n).
Proof.
  pose proof (digits_of_bound payload) as Hb. apply Forall_rev in Hb.
  destruct (check_from_onto (rev (digits_of payload)) 1 0) as (n & Hn & Hz);
    [lia|exact Hb|].
  exists n. split; [exact Hn|]. intros c k Hc.
  assert (Hk : k < 10).
  { destruct (is_decimal_int c) as (k' & Hk' & Hlt).
    - now apply int_of_char_decimal in Hc.
    - congruence. }
  rewrite aadhaar_verhoeff_check.
  replace (payload ++ [c]) with (payload ++ [c] ++ []) by now rewrite app_nil_r.
  rewrite (digits_of_around payload [] c k Hc).
  change (digits_of []) with (@nil nat). unfold check_value.
  rewrite rev_app_distr. cbn [rev app check_from]. rewrite (first_step k Hk).
  rewrite Nat.eqb_eq. split.
  - intros H. apply (check_from_inj (rev (digits_of payload)) 1 k n Hk Hn Hb).
    congruence.
  - intros ->. exact Hz.
Qed.

End VerhoeffDetects.

(** C1 (amended).  For every input string, [aadhaar_verhoeff] raises
    nothing, not even inside its [try] block, and its result depends on the
    decimal digits of the input only; it checks no length: the empty input
    is accepted, and every string, whatever the number of its digits, is
    completed to an accepted one by exactly one final digit.  The 12-digit
    requirement is the gate of [mask_aadhaar], which lets a match through
    exactly when its digits are 12 and [aadhaar_verhoeff] accepts it. *)
Theorem aadhaar_verhoeff_checks_no_length :
  (forall number,
      Verhoeff.try_body number = Some (Verhoeff.aadhaar_verhoeff number))
  /\ (forall a b,
        digits_of a = digits_of b ->
        Verhoeff.aadhaar_verhoeff a = Verhoeff.aadhaar_verhoeff b)
  /\ Verhoeff.aadhaar_verhoeff (lit "") = true
  /\ (forall payload : str,
        exists n, n < 10
          /\ forall c k, int_of_char c = Some k ->
               (Verhoeff.aadhaar_verhoeff (payload ++ [c]) = true <-> k = n))
  /\ (forall m,
        aadhaar_rejects m = false
        <-> length (digits_of (group0 m)) = 12
            /\ Verhoeff.aadhaar_verhoeff (group0 m) = true).
Proof.
  assert (Hdig : forall a b, digits_of a = digits_of b ->
                   Verhoeff.aadhaar_verhoeff a = Verhoeff.aadhaar_verhoeff b).
  { intros a b E. rewrite !VerhoeffDetects.aadhaar_verhoeff_check. now rewrite E. }
  split; [|split; [exact Hdig|split; [reflexivity|split]]].
  - intros number. unfold Verhoeff.aadhaar_verhoeff, Verhoeff.try_body.
    pose proof (strip_all_decimal number) as Hall.
    destruct (VerhoeffFacts.walk_check_from
                (rev (re_sub_class (fun c => negb (is_decimal c)) [] number)) 0 0)
      as [Hw _]; [lia|now apply Forall_rev|].
    rewrite Hw. reflexivity.
  - apply VerhoeffDetects.one_final_digit.
  - intros m. unfold aadhaar_rejects.
    set (raw := re_sub_class (fun c => negb (is_decimal c)) [] (group0 m)).
    assert (Hlen : length raw = length (digits_of (group0 m))).
    { unfold raw. rewrite <- digits_of_strip, digits_of_length by apply strip_all_decimal.
      reflexivity. }
    assert (Hv : Verhoeff.aadhaar_verhoeff raw = Verhoeff.aadhaar_verhoeff (group0 m)).
    { apply Hdig. unfold raw. apply digits_of_strip. }
    rewrite Hlen, Hv, orb_false_iff, !negb_false_iff, Nat.eqb_eq. reflexivity.
Qed.

(** X16. The Aadhaar check detects every substitution of one digit: if a
    string passes, the string with one decimal digit replaced by another
    does not, whatever else the strings contain and however long they
    are. *)
Theorem aadhaar_verhoeff_detects_substitution (a b : str) (x y : ascii) :
  is_decimal x = true -> is_decimal y = true -> x <> y ->
  Verhoeff.aadhaar_verhoeff (a ++ [x] ++ b) = true ->
  Verhoeff.aadhaar_verhoeff (a ++ [y] ++ b) = false.
Proof.
  intros Hx Hy Hxy.
  destruct (is_decimal_int x Hx) as (nx & Ex & Bx).
  destruct (is_decimal_int y Hy) as (ny & Ey & By).
  rewrite !VerhoeffDetects.aadhaar_verhoeff_check.
  rewrite (digits_of_around a b x nx Ex), (digits_of_around a b y ny Ey).
  unfold Verhoeff.check_value. rewrite !rev_app_distr. cbn [rev app].
  rewrite <- !app_assoc. cbn [app].
  rewrite !VerhoeffDetects.check_from_app. cbn [Verhoeff.check_from].
  pose proof (digits_of_bound a) as Ha. pose proof (digits_of_bound b) as Hb.
  apply Forall_rev in Ha, Hb.
  set (c := Verhoeff.check_from 0 0 (rev (digits_of b))).
  assert (Hc : c < 10) by (apply VerhoeffDetects.check_from_below; [lia|exact Hb]).
  set (j := 0 + length (rev (digits_of b))).
  assert (Hj : j mod 8 < 8) by (apply Nat.mod_upper_bound; lia).
  intros H1. apply Nat.eqb_eq in H1. apply Nat.eqb_neq. intros H2.
  pose proof (eq_trans H1 (eq_sym H2)) as E. clear H1 H2. rename E into H1.
  apply VerhoeffDetects.check_from_inj in H1; [| | |exact Ha].
  - apply VerhoeffDetects.d_cancel_left in H1; [|exact Hc| |].
    + rewrite !VerhoeffDetects.p_is_row in H1.
      apply VerhoeffDetects.p_row_inj in H1; [|exact Hj|exact Bx|exact By].
      subst ny. apply Hxy. exact (int_of_char_inj x y nx Ex Ey).
    + rewrite VerhoeffDetects.p_is_row. now apply VerhoeffDetects.p_row_below.
    + rewrite VerhoeffDetects.p_is_row. now apply VerhoeffDetects.p_row_below.
  - apply VerhoeffDetects.d_below; [exact Hc|].
    rewrite VerhoeffDetects.p_is_row. now apply VerhoeffDetects.p_row_below.
  - apply VerhoeffDetects.d_below; [exact Hc|].
    rewrite VerhoeffDetects.p_is_row. now apply VerhoeffDetects.p_row_below.
Qed.

(** X17. The Aadhaar check and the exchange of two adjacent digits that
    differ.  The exchange is detected everywhere but at one position in
    eight: when the number of digits after the pair is 6 modulo 8 (in a
    number of twelve digits, the fifth and the sixth), the exchange of 0
    and 7, of 2 and 7, of 3 and 7 or of 6 and 9 leaves a passing number
    passing. *)
Theorem aadhaar_verhoeff_transposition (a b : str) (x y : ascii) (nx ny : nat) :
  int_of_char x = Some nx -> int_of_char y = Some ny -> nx <> ny ->
  Verhoeff.aadhaar_verhoeff (a ++ [x; y] ++ b) = true ->
  (Verhoeff.aadhaar_verhoeff (a ++ [y; x] ++ b) = true
   <-> length (digits_of b) mod 8 = 6 /\ (nx, ny) ∈ unseen_swaps).
Proof.
  intros Ex Ey Hxy.
  destruct (int_of_char_decimal x nx Ex) as [_ Bx].
  destruct (int_of_char_decimal y ny Ey) as [_ By].
  rewrite !VerhoeffDetects.aadhaar_verhoeff_check.
  change (a ++ [x; y] ++ b) with (a ++ [x] ++ ([y] ++ b)).
  change (a ++ [y; x] ++ b) with (a ++ [y] ++ ([x] ++ b)).
  rewrite (digits_of_around a _ x nx Ex), (digits_of_around a _ y ny Ey).
  cbn [app]. rewrite !digits_of_cons, Ex, Ey.
  unfold Verhoeff.check_value. rewrite !rev_app_distr. cbn [rev app].
  rewrite <- !app_assoc. cbn [app].
  rewrite !VerhoeffDetects.check_from_app. cbn [Verhoeff.check_from].
  pose proof (digits_of_bound a) as Ha. pose proof (digits_of_bound b) as Hb.
  apply Forall_rev in Ha, Hb.
  set (c := Verhoeff.check_from 0 0 (rev (digits_of b))).
  assert (Hc : c < 10) by (apply VerhoeffDetects.check_from_below; [lia|exact Hb]).
  assert (Hlen : 0 + length (rev (digits_of b)) = length (digits_of b))
    by (rewrite length_rev; lia).
  rewrite Hlen. set (j := length (digits_of b)).
  assert (Hj : j mod 8 < 8) by (apply Nat.mod_upper_bound; lia).
  assert (Hj' : (j mod 8 + 1) mod 8 < 8) by (apply Nat.mod_upper_bound; lia).
  assert (Hrow : forall n, Verhoeff.p (S j) n = p_row ((j mod 8 + 1) mod 8) n).
  { intros n. rewrite VerhoeffDetects.p_is_row. f_equal.
    replace (S j) with (j + 1) by lia. now rewrite Nat.Div0.add_mod_idemp_l. }
  assert (Hb4 : forall r n, r < 8 -> n < 10 -> p_row r n < 10)
    by (intros; now apply VerhoeffDetects.p_row_below).
  rewrite !Hrow, !VerhoeffDetects.p_is_row.
  pose proof (VerhoeffDetects.swap_verdict (j mod 8) c ny nx Hj Hc By Bx) as Hv.
  replace (ny =? nx) with false in Hv by (symmetry; apply Nat.eqb_neq; congruence).
  cbn [orb] in Hv.
  intros H1. apply Nat.eqb_eq in H1. rewrite Nat.eqb_eq. split.
  - intros H2. pose proof (eq_trans H1 (eq_sym H2)) as E. clear H1 H2.
    rename E into H1.
    apply VerhoeffDetects.check_from_inj in H1;
      [| repeat apply VerhoeffDetects.d_below; auto
       | repeat apply VerhoeffDetects.d_below; auto | exact Ha].
    apply Nat.eqb_eq in H1. rewrite H1 in Hv. symmetry in Hv.
    apply andb_true_iff in Hv as [H6 Hu]. apply Nat.eqb_eq in H6.
    split; [exact H6|].
    apply VerhoeffDetects.is_unseen_spec in Hu.
    unfold unseen_swaps in *. apply list_elem_of_In in Hu. apply list_elem_of_In.
    cbn [In] in *.
    repeat (destruct Hu as [Hu|Hu]; [injection Hu as <- <-; auto 10|]).
    contradiction.
  - intros [H6 Hu].
    assert (Hu' : is_unseen ny nx = true).
    { apply VerhoeffDetects.is_unseen_spec.
      unfold unseen_swaps in *. apply list_elem_of_In in Hu. apply list_elem_of_In.
      cbn [In] in *.
      repeat (destruct Hu as [Hu|Hu]; [injection Hu as <- <-; auto 10|]).
      contradiction. }
    replace (j mod 8 =? 6) with true in Hv by (symmetry; now apply Nat.eqb_eq).
    rewrite Hu' in Hv. cbn [andb] in Hv. apply Nat.eqb_eq in Hv.
    rewrite <- Hv. exact H1.
Qed.


Module LuhnDetects.
Import Luhn LuhnFacts.

(** A call that returns has met no digit character it cannot convert. *)
Lemma returns_decimal (number : str) (r : bool) :
  luhn_checksum_ok number = Some r ->
  forall c, In c number -> isdigit c = true -> is_decimal c = true.
Proof.
  unfold luhn_checksum_ok, digit_list. intros H c Hin Hd.
  destruct (mapM int_of_char (filter (fun c => isdigit c = true) number))
    as [ds|] eqn:E; [|discriminate H].
  assert (Hs : is_Some (mapM int_of_char (filter (fun c => isdigit c = true) number)))
    by (rewrite E; eauto).
  rewrite mapM_is_Some, Forall_forall in Hs.
  destruct (Hs c) as [n Hn].
  - apply list_elem_of_filter. split; [exact Hd|now apply list_elem_of_In].
  - now apply int_of_char_decimal in Hn.
Qed.

Lemma decimal_around (a b : str) (x y : ascii) :
  is_decimal y = true ->
  (forall c, In c (a ++ [x] ++ b) -> isdigit c = true -> is_decimal c = true) ->
  forall c, In c (a ++ [y] ++ b) -> isdigit c = true -> is_decimal c = true.
Proof.
  intros Hy H c Hin Hd. rewrite !in_app_iff in Hin. cbn [In] in Hin.
  destruct Hin as [Hin|[[<-|[]]|Hin]]; [|exact Hy|].
  - apply H; [|exact Hd]. rewrite !in_app_iff. now left.
  - apply H; [|exact Hd]. rewrite !in_app_iff. now right; right.
Qed.

Lemma sum_left_around (u v : list nat) :
  exists base, forall n,
    sum_left (u ++ n :: v) = base + weight (Nat.even (S (length v))) n.
Proof.
  induction u as [|m u [base IH]].
  - exists (sum_left v). intros n. cbn [app sum_left length]. unfold weight. lia.
  - exists ((if Nat.even (length (m :: u ++ 0 :: v)) then doubled m else m) + base).
    intros n. cbn [app sum_left]. rewrite IH.
    replace (length (m :: u ++ n :: v)) with (length (m :: u ++ 0 :: v))
      by (cbn [length]; rewrite !length_app; reflexivity).
    lia.
Qed.

Lemma weight_below (e : bool) (d : nat) : d < 10 -> weight e d < 10.
Proof.
  intros H. unfold weight, doubled. destruct e; [|exact H].
  destruct (9 <? 2 * d) eqn:E; [|apply Nat.ltb_ge in E]; lia.
Qed.

Lemma weight_inj (e : bool) (x y : nat) :
  x < 10 -> y < 10 -> weight e x = weight e y -> x = y.
Proof.
  intros Hx Hy. unfold weight, doubled. destruct e; [|trivial].
  destruct (Nat.ltb_spec 9 (2 * x)), (Nat.ltb_spec 9 (2 * y)); intros E; lia.
Qed.

Lemma sum_left_around_pair (u v : list nat) :
  exists base, forall n1 n2,
    sum_left (u ++ n1 :: n2 :: v)
    = base + weight (negb (Nat.even (S (length v)))) n1
      + weight (Nat.even (S (length v))) n2.
Proof.
  induction u as [|m u [base IH]].
  - exists (sum_left v). intros n1 n2. cbn [app sum_left length]. unfold weight.
    rewrite (Nat.even_succ (S (length v))), <- Nat.negb_even. lia.
  - exists ((if Nat.even (length (m :: u ++ 0 :: 0 :: v)) then doubled m else m) + base).
    intros n1 n2. cbn [app sum_left]. rewrite IH.
    replace (length (m :: u ++ n1 :: n2 :: v)) with (length (m :: u ++ 0 :: 0 :: v))
      by (cbn [length]; rewrite !length_app; reflexivity).
    lia.
Qed.

(** Two adjacent digits in either order: whether the sums agree modulo 10. *)
Lemma pair_verdict (e : bool) (x y : nat) :
  x < 10 -> y < 10 ->
  ((weight (negb e) x + weight e y) mod 10 =? (weight (negb e) y + weight e x) mod 10)
  = (x =? y) || ((x =? 0) && (y =? 9)) || ((x =? 9) && (y =? 0)).
Proof.
  intros Hx Hy.
  assert (Hall : forallb (fun e => forallb (fun x => forallb (fun y =>
                   Bool.eqb
                     ((weight (negb e) x + weight e y) mod 10
                      =? (weight (negb e) y + weight e x) mod 10)
                     ((x =? y) || ((x =? 0) && (y =? 9)) || ((x =? 9) && (y =? 0))))
                   (seq 0 10)) (seq 0 10)) [true; false] = true)
    by (vm_compute; reflexivity).
  cbn [forallb] in Hall. apply andb_true_iff in Hall as [Ht Hf].
  apply andb_true_iff in Hf as [Hf _].
  destruct e.
  - pose proof (forallb_below _ _ (forallb_below _ _ Ht x Hx) y Hy) as H.
    cbv beta in H. now apply Bool.eqb_prop in H.
  - pose proof (forallb_below _ _ (forallb_below _ _ Hf x Hx) y Hy) as H.
    cbv beta in H. now apply Bool.eqb_prop in H.
Qed.

End LuhnDetects.

(** X19. The card check detects every substitution of one digit: if a
    string passes, the string with one decimal digit replaced by another
    is refused. *)
Theorem luhn_detects_substitution (a b : str) (x y : ascii) :
  is_decimal x = true -> is_decimal y = true -> x <> y ->
  Luhn.luhn_checksum_ok (a ++ [x] ++ b) = Some true ->
  Luhn.luhn_checksum_ok (a ++ [y] ++ b) = Some false.
Proof.
  intros Hx Hy Hxy Hok.
  pose proof (LuhnDetects.returns_decimal _ _ Hok) as Hdec.
  pose proof (LuhnDetects.decimal_around a b x y Hy Hdec) as Hdec'.
  destruct (is_decimal_int x Hx) as (nx & Ex & Bx).
  destruct (is_decimal_int y Hy) as (ny & Ey & By).
  rewrite (LuhnFacts.luhn_checksum_ok_decimal _ Hdec) in Hok.
  rewrite (LuhnFacts.luhn_checksum_ok_decimal _ Hdec').
  cbv zeta in *.
  rewrite (digits_of_around a b x nx Ex) in Hok.
  rewrite (digits_of_around a b y ny Ey).
  rewrite <- !LuhnFacts.sum_left_luhn_sum in *.
  change (digits_of a ++ [nx] ++ digits_of b)
    with (digits_of a ++ nx :: digits_of b) in Hok.
  change (digits_of a ++ [ny] ++ digits_of b)
    with (digits_of a ++ ny :: digits_of b).
  destruct (LuhnDetects.sum_left_around (digits_of a) (digits_of b)) as [base Hsum].
  rewrite Hsum in Hok. rewrite Hsum.
  apply (inj Some) in Hok. apply andb_true_iff in Hok as [_ Hmod].
  f_equal. apply andb_false_iff. right. apply Nat.eqb_neq. intros Hmod'.
  apply Nat.eqb_eq in Hmod.
  set (e := Nat.even (S (length (digits_of b)))) in *.
  pose proof (LuhnDetects.weight_below e nx Bx) as Wx.
  pose proof (LuhnDetects.weight_below e ny By) as Wy.
  assert (weight e nx = weight e ny).
  { pose proof (Nat.div_mod_eq (base + weight e nx) 10).
    pose proof (Nat.div_mod_eq (base + weight e ny) 10).
    lia. }
  apply LuhnDetects.weight_inj in H; [|exact Bx|exact By].
  subst ny. apply Hxy. exact (int_of_char_inj x y nx Ex Ey).
Qed.

(** X20. The card check and the exchange of two adjacent digits that
    differ: the exchange is detected unless the two digits are 0 and 9,
    and then it never is. *)
Theorem luhn_transposition (a b : str) (x y : ascii) (nx ny : nat) :
  int_of_char x = Some nx -> int_of_char y = Some ny -> nx <> ny ->
  Luhn.luhn_checksum_ok (a ++ [x; y] ++ b) = Some true ->
  (Luhn.luhn_checksum_ok (a ++ [y; x] ++ b) = Some true
   <-> (nx = 0 /\ ny = 9) \/ (nx = 9 /\ ny = 0)).
Proof.
  intros Ex Ey Hxy Hok.
  destruct (int_of_char_decimal x nx Ex) as [Hx Bx].
  destruct (int_of_char_decimal y ny Ey) as [Hy By].
  pose proof (LuhnDetects.returns_decimal _ _ Hok) as Hdec.
  assert (Hdec' : forall c, In c (a ++ [y; x] ++ b) -> isdigit c = true ->
                            is_decimal c = true).
  { intros c Hin Hd. rewrite !in_app_iff in Hin. cbn [In] in Hin.
    destruct Hin as [Hin|[[<-|[<-|[]]]|Hin]]; [|exact Hy|exact Hx|].
    - apply Hdec; [|exact Hd]. rewrite !in_app_iff. now left.
    - apply Hdec; [|exact Hd]. rewrite !in_app_iff. now right; right. }
  rewrite (LuhnFacts.luhn_checksum_ok_decimal _ Hdec) in Hok.
  rewrite (LuhnFacts.luhn_checksum_ok_decimal _ Hdec').
  cbv zeta in *.
  assert (Hd1 : digits_of (a ++ [x; y] ++ b) = digits_of a ++ nx :: ny :: digits_of b).
  { rewrite digits_of_app. f_equal. cbn [app]. now rewrite !digits_of_cons, Ex, Ey. }
  assert (Hd2 : digits_of (a ++ [y; x] ++ b) = digits_of a ++ ny :: nx :: digits_of b).
  { rewrite digits_of_app. f_equal. cbn [app]. now rewrite !digits_of_cons, Ex, Ey. }
  rewrite Hd1 in Hok. rewrite Hd2.
  rewrite <- !LuhnFacts.sum_left_luhn_sum in *.
  destruct (LuhnDetects.sum_left_around_pair (digits_of a) (digits_of b))
    as [base Hsum].
  rewrite Hsum in Hok. rewrite Hsum.
  replace (length (digits_of a ++ ny :: nx :: digits_of b))
    with (length (digits_of a ++ nx :: ny :: digits_of b))
    by (rewrite !length_app; reflexivity).
  apply (inj Some) in Hok. apply andb_true_iff in Hok as [Hrange Hmod].
  rewrite Hrange. rewrite andb_true_l.
  apply Nat.eqb_eq in Hmod.
  set (e := Nat.even (S (length (digits_of b)))) in *.
  pose proof (LuhnDetects.pair_verdict e nx ny Bx By) as Hv.
  replace (nx =? ny) with false in Hv by (symmetry; now apply Nat.eqb_neq).
  rewrite orb_false_l in Hv.
  set (A := weight (negb e) nx) in *.
  set (B := weight e ny) in *.
  set (C := weight (negb e) ny) in *.
  set (D := weight e nx) in *.
  assert (Hiff : (base + C + D) mod 10 = 0 <-> (A + B) mod 10 = (C + D) mod 10).
  { pose proof (Nat.div_mod_eq (base + A + B) 10).
    pose proof (Nat.div_mod_eq (base + C + D) 10).
    pose proof (Nat.div_mod_eq (A + B) 10).
    pose proof (Nat.div_mod_eq (C + D) 10).
    pose proof (Nat.mod_upper_bound (base + C + D) 10).
    pose proof (Nat.mod_upper_bound (A + B) 10).
    pose proof (Nat.mod_upper_bound (C + D) 10).
    lia. }
  split.
  - intros H. apply (inj Some), Nat.eqb_eq, Hiff, Nat.eqb_eq in H.
    rewrite H in Hv. symmetry in Hv. apply orb_true_iff in Hv as [Hv|Hv];
      apply andb_true_iff in Hv as [H1 H2]; apply Nat.eqb_eq in H1, H2; lia.
  - intros H. f_equal. apply Nat.eqb_eq, Hiff, Nat.eqb_eq. rewrite Hv.
    destruct H as [[-> ->]|[-> ->]]; reflexivity.
Qed.

(** * The key stream *)

Lemma str_mul_lookup (key : str) (n i : nat) :
  i < n * length key ->
  str_mul key n !! i = key !! (i mod length key).
Proof.
  revert i. induction n as [|n IH]; intros i Hi; [lia|].
  cbn [str_mul]. destruct (decide (i < length key)) as [Hlt|Hge].
  - rewrite lookup_app_l by exact Hlt. now rewrite Nat.mod_small.
  - rewrite lookup_app_r by lia. rewrite IH by lia. f_equal.
    assert (Hk : length key <> 0) by lia.
    replace i with ((i - length key) + 1 * length key) at 2 by lia.
    now rewrite Nat.Div0.mod_add.
Qed.

Lemma zip_lookup {A B : Type} (l : list A) :
  forall (l' : list B) (i : nat) (x : A) (y : B),
    l !! i = Some x -> l' !! i = Some y -> zip l l' !! i = Some (x, y).
Proof.
  induction l as [|a l IH]; intros [|b l'] i x y Hx Hy; try discriminate.
  destruct i as [|i]; cbn in *; [congruence|]. now apply IH.
Qed.

(** X21. With a key that is not empty, [encrypt_decrypt] is the XOR with
    the key repeated: the result is as long as the text, and its
    character at index [i] is that of the text combined with the key's
    character at index [i] modulo the length of the key. *)
Theorem encrypt_decrypt_repeats_the_key (text key : str) (i : nat) (c : ascii) :
  key <> [] ->
  text !! i = Some c ->
  length (encrypt_decrypt text key) = length text
  /\ exists k, key !! (i mod length key) = Some k
               /\ encrypt_decrypt text key !! i = Some (xor_char c k).
Proof.
  intros Hkey Hc.
  assert (Hk : 0 < length key) by (destruct key; [congruence|cbn; lia]).
  split; [now apply encrypt_decrypt_length|].
  assert (Hi : i < length text) by (apply lookup_lt_is_Some; eauto).
  destruct (lookup_lt_is_Some_2 key (i mod length key)) as [k Ek];
    [apply Nat.mod_upper_bound; lia|].
  exists k. split; [exact Ek|].
  unfold encrypt_decrypt. rewrite list_lookup_fmap.
  erewrite zip_lookup; [reflexivity|exact Hc|].
  rewrite str_mul_lookup; [exact Ek|].
  pose proof (keystream_covers text key Hk) as Hcov.
  rewrite str_mul_length in Hcov. lia.
Qed.

Module RiskFacts.
Import Metrics.
Local Open Scope Z_scope.

(** * The risk level from the counts *)

Lemma locals_counts (found e : Z) :
  0 <= found -> 0 <= e ->
  l_tp (locals found (Some e)) = Z.min found e
  /\ l_fp (locals found (Some e)) = Z.max 0 (found - e)
  /\ l_fn (locals found (Some e)) = Z.max 0 (e - found).
Proof.
  intros Hf He. cbn [locals l_tp l_fp l_fn].
  now rewrite MetricsFacts.py_min_spec, !MetricsFacts.py_max_spec.
Qed.

(** X22. With an expected count, true and false positives add up to the
    count found, and true positives and false negatives to the expected
    count; and the risk level is read off the two counts in three cases
    out of four: nothing found is Critical (also when nothing was
    expected), something found and no more than expected is Low (however
    few), something found when nothing was expected is Critical; only
    when more is found than a positive expected count does the precision
    decide, and then the level is not Low. *)
Theorem risk_from_counts (found e : Z) :
  0 <= found -> 0 <= e ->
  let l := locals found (Some e) in
  l_tp l + l_fp l = found
  /\ l_tp l + l_fn l = e
  /\ (found = 0 -> l_risk_level l = lit "Critical")
  /\ (0 < found <= e -> l_risk_level l = lit "Low")
  /\ (e = 0 -> 0 < found -> l_risk_level l = lit "Critical")
  /\ (0 < e < found -> l_risk_level l <> lit "Low").
Proof.
  intros Hf He l.
  destruct (locals_counts found e Hf He) as (Htp & Hfp & Hfn).
  fold l in Htp, Hfp, Hfn.
  assert (Hrisk : l_risk_level l = risk_of (Some e) (l_tp l) (l_fp l) (l_precision l))
    by reflexivity.
  assert (Hprec : l_tp l + l_fp l = 0 -> l_precision l = f0).
  { intros H0. subst l. cbn [locals l_precision l_tp l_fp] in *.
    destruct (0 <? _) eqn:E; [apply Z.ltb_lt in E; lia|reflexivity]. }
  repeat split.
  - lia.
  - lia.
  - intros ->. rewrite Hrisk, Hprec by lia.
    replace (l_tp l) with 0 by lia. replace (l_fp l) with 0 by lia.
    vm_compute. reflexivity.
  - intros [H1 H2]. rewrite Hrisk. unfold risk_of.
    replace (l_fp l) with 0 by lia.
    replace (l_tp l =? 0) with false by (symmetry; apply Z.eqb_neq; lia).
    replace (0 <? l_tp l) with true by (symmetry; apply Z.ltb_lt; lia).
    reflexivity.
  - intros -> H1. rewrite Hrisk. unfold risk_of.
    replace (l_tp l) with 0 by lia.
    replace (0 <? l_fp l) with true by (symmetry; apply Z.ltb_lt; lia).
    reflexivity.
  - intros [H1 H2]. rewrite Hrisk. unfold risk_of.
    replace (l_tp l =? 0) with false by (symmetry; apply Z.eqb_neq; lia).
    replace (l_fp l =? 0) with false by (symmetry; apply Z.eqb_neq; lia).
    rewrite andb_false_l, andb_false_r.
    destruct (fge _ f08); [intros E; vm_compute in E; discriminate E|].
    destruct (fge _ f05); intros E; vm_compute in E; discriminate E.
Qed.

End RiskFacts.

(** * Uploaded file names *)

Lemma contains_app (c : ascii) (s t : str) :
  contains c (s ++ t) = contains c s || contains c t.
Proof. unfold contains. apply existsb_app. Qed.

Lemma rsplit1_last (sep : ascii) (before after : str) :
  contains sep after = false ->
  rsplit1 sep (before ++ sep :: after) = Some (before, after).
Proof.
  intros Hafter.
  assert (Hnone : rsplit1 sep after = None).
  { destruct (rsplit1 sep after) as [[b a]|] eqn:E; [|reflexivity].
    apply rsplit1_some in E as [-> _].
    rewrite contains_app in Hafter. cbn [contains existsb] in Hafter.
    rewrite Ascii.eqb_refl, orb_true_r in Hafter. discriminate Hafter. }
  induction before as [|c before IH]; cbn [app rsplit1].
  - now rewrite Hnone, Ascii.eqb_refl.
  - now rewrite IH.
Qed.

(** X23. [allowed_file] accepts exactly the names whose part after the last
    dot is csv, txt or pdf in any mix of cases; what comes before the last
    dot is free, and may be empty. *)
Theorem allowed_file_accepts (filename : str) :
  allowed_file filename = true
  <-> exists stem ext,
        filename = stem ++ lit "." ++ ext
        /\ contains "." ext = false
        /\ str_lower ext ∈ ALLOWED_EXTENSIONS.
Proof.
  unfold allowed_file. split.
  - intros H. apply andb_true_iff in H as [Hdot H].
    destruct (rsplit1 "." filename) as [[stem ext]|] eqn:E; [|discriminate H].
    apply rsplit1_some in E as [-> Hext]. exists stem, ext.
    repeat split; [exact Hext|]. now apply bool_decide_eq_true in H.
  - intros (stem & ext & -> & Hext & Hin). cbn [lit list_ascii_of_string app].
    rewrite contains_app. cbn [contains existsb]. rewrite Ascii.eqb_refl.
    rewrite orb_true_r, andb_true_l.
    rewrite (rsplit1_last "." stem ext Hext). now apply bool_decide_eq_true.
Qed.

(** * Expected counts *)

Lemma decimal_value_snoc (ds : list nat) (d : nat) :
  decimal_value (ds ++ [d]) = (10 * decimal_value ds + N.of_nat d)%N.
Proof. unfold decimal_value. now rewrite foldl_app. Qed.

Lemma decimal_value_app (ds es : list nat) :
  decimal_value (ds ++ es)
  = (decimal_value ds * 10 ^ N.of_nat (length es) + decimal_value es)%N.
Proof.
  induction es as [|e es IH] using rev_ind.
  - rewrite app_nil_r. cbn. lia.
  - rewrite app_assoc, !decimal_value_snoc, IH, length_app. cbn [length].
    replace (N.of_nat (length es + 1)) with (N.succ (N.of_nat (length es))) by lia.
    rewrite N.pow_succ_r'. lia.
Qed.

Lemma pretty_N_char_value (x : N) :
  (x < 10)%N -> digits_of [pretty_N_char x] = [N.to_nat x].
Proof.
  intros H. destruct x as [|p]; [reflexivity|].
  do 4 (destruct p as [p|p|]; try reflexivity; try lia).
Qed.

(** The digits [pretty_N_go] puts in front of [s] write [x]. *)
Lemma pretty_N_go_value (k : nat) :
  forall (x : N) (s : string),
    (x < 10 ^ N.of_nat k)%N ->
    exists front,
      lit (pretty_N_go x s) = front ++ lit s
      /\ Forall (fun c => is_decimal c = true) front
      /\ length front <= k
      /\ decimal_value (digits_of front) = x.
Proof.
  induction k as [|k IH]; intros x s Hx.
  - replace x with 0%N by (cbn in Hx; lia). rewrite pretty_N_go_0.
    exists []. repeat split; [constructor|reflexivity].
  - destruct (decide (x = 0%N)) as [->|Hne].
    + rewrite pretty_N_go_0. exists []. repeat split; [constructor|cbn; lia].
    + rewrite pretty_N_go_step by lia.
      destruct (IH (x `div` 10)%N (String (pretty_N_char (x `mod` 10)) s))
        as (front & E & Hd & Hl & Hv).
      { apply N.Div0.div_lt_upper_bound.
        rewrite Nat2N.inj_succ, N.pow_succ_r' in Hx. exact Hx. }
      exists (front ++ [pretty_N_char (x `mod` 10)%N]).
      assert (Hm : (x `mod` 10 < 10)%N) by (apply N.mod_upper_bound; lia).
      repeat split.
      * rewrite E. unfold lit. cbn [list_ascii_of_string].
        now rewrite <- app_assoc.
      * apply Forall_app. split; [exact Hd|]. repeat constructor.
        apply pretty_N_char_decimal.
      * rewrite length_app. cbn [length]. lia.
      * rewrite digits_of_app, decimal_value_app, Hv, pretty_N_char_value by exact Hm.
        cbn [length decimal_value foldl].
        pose proof (N.div_mod x 10). lia.
Qed.

Lemma pretty_N_digits (n : N) (k : nat) :
  0 < k -> (n < 10 ^ N.of_nat k)%N ->
  lit (pretty n) <> []
  /\ Forall (fun c => is_decimal c = true) (lit (pretty n))
  /\ length (lit (pretty n)) <= k
  /\ decimal_value (digits_of (lit (pretty n))) = n.
Proof.
  intros Hk Hn. unfold pretty, pretty_N. destruct (decide (n = 0%N)) as [->|Hne].
  - repeat split; [discriminate|repeat constructor|cbn; lia].
  - destruct (pretty_N_go_value k n "" Hn) as (front & E & Hd & Hl & Hv).
    rewrite E. change (lit "") with (@nil ascii). rewrite app_nil_r.
    repeat split; try assumption.
    intros ->. cbn in Hv. lia.
Qed.

Lemma forallb_decimal_isdigit (s : str) :
  forallb is_decimal s = true -> forallb isdigit s = true.
Proof.
  rewrite !forallb_forall. intros H c Hc. unfold isdigit. now rewrite (H c Hc).
Qed.

(** X24. The expected count typed in a field.  A text that is empty or has
    a character that is no digit gives no expected count; the decimal
    rendering of a number of at most 4300 digits gives that number back;
    and a text made of digit characters of which one is not decimal (a
    superscript two, say) makes the conversion raise. *)
Theorem expected_count_of_text :
  (forall text,
      text = [] \/ Exists (fun c => isdigit c = false) text ->
      expected_count_of text = Some None)
  /\ (forall n : N,
        (n < 10 ^ 4300)%N ->
        expected_count_of (lit (pretty n)) = Some (Some n))
  /\ (forall text,
        text <> [] -> Forall (fun c => isdigit c = true) text ->
        Exists (fun c => is_decimal c = false) text ->
        expected_count_of text = None).
Proof.
  repeat split.
  - intros text [->|Hex]; [reflexivity|]. unfold expected_count_of, str_isdigit.
    destruct text as [|c text]; [reflexivity|].
    replace (forallb isdigit (c :: text)) with false; [reflexivity|].
    symmetry. apply not_true_is_false. rewrite forallb_forall. intros H.
    apply Exists_exists in Hex as (x & Hin & Hx). apply list_elem_of_In in Hin.
    rewrite (H x Hin) in Hx. discriminate Hx.
  - intros n Hn.
    destruct (pretty_N_digits n 4300) as (Hne & Hd & Hl & Hv); [lia|exact Hn|].
    assert (Hall : forallb is_decimal (lit (pretty n)) = true).
    { apply forallb_forall. intros c Hc. rewrite Forall_forall in Hd.
      apply Hd. now apply list_elem_of_In. }
    unfold expected_count_of, str_isdigit, int_of_digits.
    destruct (lit (pretty n)) as [|c s] eqn:E; [congruence|].
    rewrite (forallb_decimal_isdigit _ Hall), Hall.
    replace (length (c :: s) <=? 4300) with true
      by (symmetry; apply Nat.leb_le; exact Hl).
    cbv beta iota. now rewrite Hv.
  - intros text Hne Hall Hex. unfold expected_count_of, str_isdigit, int_of_digits.
    destruct text as [|c text]; [congruence|].
    replace (forallb isdigit (c :: text)) with true.
    + replace (forallb is_decimal (c :: text)) with false; [reflexivity|].
      symmetry. apply not_true_is_false. rewrite forallb_forall. intros H.
      apply Exists_exists in Hex as (x & Hin & Hx). apply list_elem_of_In in Hin.
      rewrite (H x Hin) in Hx. discriminate Hx.
    + symmetry. apply forallb_forall. intros x Hin. rewrite Forall_forall in Hall.
      apply Hall. now apply list_elem_of_In.
Qed.

(** * Worked cases of the statements with hypotheses *)


Lemma full_strategy_keeps_length_witness :
  let mask_configs := Some Cases.dates_full in
  let w := Examples.world_of Examples.seeded_context in
  (forall key cfg, config_of mask_configs key = Some cfg ->
                   enabled cfg = true ->
                   strategy cfg = lit "full" /\ length (char cfg) = 1)
  /\ exists out counts,
       process_text Examples.no_sha256 Cases.birthday None mask_configs w
       = Some ((out, counts), w)
       /\ length out = length Cases.birthday.
Proof.
  intros mask_configs w.
  assert (H : forall key cfg, config_of mask_configs key = Some cfg ->
                              enabled cfg = true ->
                              strategy cfg = lit "full" /\ length (char cfg) = 1).
  { intros key cfg Hc _. unfold config_of, mask_configs in Hc. cbn [from_option id] in Hc.
    unfold Cases.dates_hashed, Cases.dates_full in Hc.
    apply lookup_singleton_Some in Hc as [_ <-].
    split; reflexivity. }
  split; [exact H|].
  exact (full_strategy_keeps_length Examples.no_sha256 Cases.birthday None
           mask_configs w H).
Defined.

Lemma unknown_strategy_changes_nothing_witness :
  let sha := Examples.no_sha256 in
  let w := Examples.world_of Examples.fresh_context in
  ((lit "dob", mask_dob sha) ∈ PII_HANDLERS sha)
  /\ (get_strategy Cases.mask_kwargs
        ∉ [lit "partial"; lit "full"; lit "hash"; lit "encrypt"; lit "redact"])
  /\ exists n,
       mask_dob sha Cases.birthday (Some DOB_PATTERN) Cases.mask_kwargs w
       = Some ((Cases.birthday, n), w)
       /\ (consuming_reps DOB_PATTERN = true ->
           lit "dob" <> lit "aadhaar" -> lit "dob" <> lit "credit_card" ->
           n = length (finditer DOB_PATTERN Cases.birthday)).
Proof.
  intros sha w.
  assert (H1 : (lit "dob", mask_dob sha) ∈ PII_HANDLERS sha).
  { unfold PII_HANDLERS. do 9 apply list_elem_of_further. apply list_elem_of_here. }
  assert (H2 : get_strategy Cases.mask_kwargs
               ∉ [lit "partial"; lit "full"; lit "hash"; lit "encrypt"; lit "redact"]).
  { refine (proj1 (bool_decide_eq_false _) _). vm_compute. reflexivity. }
  split; [exact H1|]. split; [exact H2|].
  exact (unknown_strategy_changes_nothing sha (lit "dob") (mask_dob sha)
           Cases.birthday DOB_PATTERN Cases.mask_kwargs w H1 H2).
Defined.

Lemma mask_dob_partial_is_full_witness :
  let sha := Examples.no_sha256 in
  let w := Examples.world_of Examples.fresh_context in
  get_strategy Examples.partial_kwargs = lit "partial"
  /\ get_strategy Cases.full_kwargs = lit "full"
  /\ get_char Examples.partial_kwargs = get_char Cases.full_kwargs
  /\ mask_dob sha Cases.birthday None Examples.partial_kwargs w
     = mask_dob sha Cases.birthday None Cases.full_kwargs w.
Proof.
  intros sha w. do 3 (split; [reflexivity|]).
  apply (mask_dob_partial_is_full sha Cases.birthday None Examples.partial_kwargs
           Cases.full_kwargs w); reflexivity.
Defined.

Lemma mask_passport_raises_on_empty_match_witness :
  let sha := Examples.no_sha256 in
  let w := Examples.world_of Examples.fresh_context in
  let pattern := Some Cases.digits_or_nothing in
  let ms := finditer (default PASSPORT_PATTERN pattern) Cases.passport in
  get_strategy Examples.partial_kwargs = lit "partial"
  /\ consuming_reps (default PASSPORT_PATTERN pattern) = true
  /\ ((mask_passport sha Cases.passport pattern Examples.partial_kwargs w = None
       <-> Exists (fun m => m_start m = m_end m) ms)
      /\ (Forall (fun m => m_start m <> m_end m) ms ->
          mask_passport sha Cases.passport pattern Examples.partial_kwargs w
          = Some ((splice (initial_kept (get_char Examples.partial_kwargs))
                     Cases.passport ms, length ms), w)))
  /\ mask_passport sha Cases.passport pattern Examples.partial_kwargs w = None.
Proof.
  intros sha w pattern ms.
  assert (H1 : get_strategy Examples.partial_kwargs = lit "partial") by reflexivity.
  assert (H2 : consuming_reps (default PASSPORT_PATTERN pattern) = true)
    by reflexivity.
  pose proof (mask_passport_raises_on_empty_match sha Cases.passport pattern
                Examples.partial_kwargs w H1 H2) as H.
  split; [exact H1|]. split; [exact H2|]. split; [exact H|].
  apply (proj2 (proj1 H)). apply Exists_cons_hd. reflexivity.
Defined.

Lemma mask_driving_license_partial_witness :
  let sha := Examples.no_sha256 in
  let w := Examples.world_of Examples.fresh_context in
  let ms := finditer DRIVING_LICENSE_PATTERN Cases.licence in
  get_strategy Examples.partial_kwargs = lit "partial"
  /\ mask_driving_license sha Cases.licence None Examples.partial_kwargs w
     = Some ((splice (fun m => take 2 (group0 m)
                               ++ str_mul (get_char Examples.partial_kwargs) 14)
                Cases.licence ms, length ms), w)
  /\ Forall (fun m => length (group0 m) = 15 \/ length (group0 m) = 16) ms.
Proof.
  intros sha w ms. split; [reflexivity|].
  apply (mask_driving_license_partial sha Cases.licence Examples.partial_kwargs w).
  reflexivity.
Defined.

Lemma unusable_context_is_never_written_witness :
  let w := Examples.world_of Examples.fresh_context in
  usable_dict (context w) = None
  /\ match detect_and_deidentify_record Examples.no_sha256
             [Some Examples.cell; None] None (Some Examples.all_enabled) w with
     | Some (_, w') => context w' = context w
     | None => True
     end.
Proof.
  intros w. split; [reflexivity|].
  apply (unusable_context_is_never_written Examples.no_sha256
           [Some Examples.cell; None] None (Some Examples.all_enabled) w).
  reflexivity.
Defined.


Lemma apply_deidentification_unknown_type_witness :
  let sha := Examples.no_sha256 in
  let w := Examples.world_of Examples.fresh_context in
  (lit "Aadhaar" ∉ (PII_HANDLERS sha).*1)
  /\ apply_deidentification sha Examples.good_aadhaar (lit "full") (lit "Aadhaar")
       None false w
     = Some (Examples.good_aadhaar, w).
Proof.
  intros sha w.
  assert (H : lit "Aadhaar" ∉ (PII_HANDLERS sha).*1).
  { refine (proj1 (bool_decide_eq_false _) _). vm_compute. reflexivity. }
  split; [exact H|].
  exact (apply_deidentification_unknown_type sha Examples.good_aadhaar (lit "full")
           (lit "Aadhaar") None false w H).
Defined.

Lemma apply_deidentification_is_one_handler_witness :
  let sha := Examples.no_sha256 in
  let w := Examples.world_of CtxNone in
  ((lit "aadhaar", mask_aadhaar sha) ∈ PII_HANDLERS sha)
  /\ apply_deidentification sha Examples.good_aadhaar (lit "full") (lit "aadhaar")
       None false w
     = match mask_aadhaar sha Examples.good_aadhaar None
               {| kw_strategy := Some (lit "full");
                  kw_char := Some (default (lit "*") None) |}
               (set_context (CtxDict ∅) w) with
       | Some ((out, _), w') => Some (out, set_context (context w) w')
       | None => None
       end.
Proof.
  intros sha w.
  assert (H : (lit "aadhaar", mask_aadhaar sha) ∈ PII_HANDLERS sha).
  { unfold PII_HANDLERS. apply list_elem_of_here. }
  split; [exact H|].
  exact (apply_deidentification_is_one_handler sha (lit "aadhaar") (mask_aadhaar sha)
           Examples.good_aadhaar (lit "full") None false w H).
Defined.

Lemma aadhaar_verhoeff_detects_substitution_witness :
  is_decimal "6" = true /\ is_decimal "7" = true /\ "6"%char <> "7"%char
  /\ Verhoeff.aadhaar_verhoeff (lit "23412341234" ++ ["6"%char] ++ []) = true
  /\ Verhoeff.aadhaar_verhoeff (lit "23412341234" ++ ["7"%char] ++ []) = false.
Proof.
  assert (H : "6"%char <> "7"%char) by discriminate.
  assert (Hv : Verhoeff.aadhaar_verhoeff (lit "23412341234" ++ ["6"%char] ++ []) = true)
    by (vm_compute; reflexivity).
  do 2 (split; [reflexivity|]). split; [exact H|]. split; [exact Hv|].
  apply (aadhaar_verhoeff_detects_substitution (lit "23412341234") [] "6" "7");
    [reflexivity|reflexivity|exact H|exact Hv].
Defined.

Lemma aadhaar_verhoeff_transposition_witness :
  int_of_char "0" = Some 0 /\ int_of_char "7" = Some 7 /\ 0 <> 7
  /\ Verhoeff.aadhaar_verhoeff (lit "2345" ++ ["0"; "7"]%char ++ lit "123457") = true
  /\ (Verhoeff.aadhaar_verhoeff (lit "2345" ++ ["7"; "0"]%char ++ lit "123457") = true
      <-> length (digits_of (lit "123457")) mod 8 = 6 /\ (0, 7) ∈ unseen_swaps).
Proof.
  assert (H : 0 <> 7) by discriminate.
  assert (Hv : Verhoeff.aadhaar_verhoeff
                 (lit "2345" ++ ["0"; "7"]%char ++ lit "123457") = true)
    by (vm_compute; reflexivity).
  do 2 (split; [reflexivity|]). split; [exact H|]. split; [exact Hv|].
  apply (aadhaar_verhoeff_transposition (lit "2345") (lit "123457") "0" "7" 0 7);
    [reflexivity|reflexivity|exact H|exact Hv].
Defined.


Lemma luhn_detects_substitution_witness :
  is_decimal "1" = true /\ is_decimal "2" = true /\ "1"%char <> "2"%char
  /\ Luhn.luhn_checksum_ok (lit "411111111111111" ++ ["1"%char] ++ []) = Some true
  /\ Luhn.luhn_checksum_ok (lit "411111111111111" ++ ["2"%char] ++ []) = Some false.
Proof.
  assert (H : "1"%char <> "2"%char) by discriminate.
  assert (Hv : Luhn.luhn_checksum_ok (lit "411111111111111" ++ ["1"%char] ++ [])
               = Some true) by (vm_compute; reflexivity).
  do 2 (split; [reflexivity|]). split; [exact H|]. split; [exact Hv|].
  apply (luhn_detects_substitution (lit "411111111111111") [] "1" "2");
    [reflexivity|reflexivity|exact H|exact Hv].
Defined.

Lemma luhn_transposition_witness :
  int_of_char "0" = Some 0 /\ int_of_char "9" = Some 9 /\ 0 <> 9
  /\ Luhn.luhn_checksum_ok (lit "4111" ++ ["0"; "9"]%char ++ lit "1111111115")
     = Some true
  /\ (Luhn.luhn_checksum_ok (lit "4111" ++ ["9"; "0"]%char ++ lit "1111111115")
      = Some true
      <-> (0 = 0 /\ 9 = 9) \/ (0 = 9 /\ 9 = 0)).
Proof.
  assert (H : 0 <> 9) by discriminate.
  assert (Hv : Luhn.luhn_checksum_ok (lit "4111" ++ ["0"; "9"]%char ++ lit "1111111115")
               = Some true) by (vm_compute; reflexivity).
  do 2 (split; [reflexivity|]). split; [exact H|]. split; [exact Hv|].
  apply (luhn_transposition (lit "4111") (lit "1111111115") "0" "9" 0 9);
    [reflexivity|reflexivity|exact H|exact Hv].
Defined.

Lemma encrypt_decrypt_repeats_the_key_witness :
  let text := lit "a@x.com, seen with the key repeated more than once" in
  XOR_KEY <> []
  /\ text !! 30 = Some "e"%char
  /\ length (encrypt_decrypt text XOR_KEY) = length text
  /\ exists k, XOR_KEY !! (30 mod length XOR_KEY) = Some k
               /\ encrypt_decrypt text XOR_KEY !! 30 = Some (xor_char "e" k).
Proof.
  intros text.
  assert (H1 : XOR_KEY <> []) by discriminate.
  assert (H2 : text !! 30 = Some "e"%char) by reflexivity.
  split; [exact H1|]. split; [exact H2|].
  exact (encrypt_decrypt_repeats_the_key text XOR_KEY 30 "e" H1 H2).
Defined.

Lemma risk_from_counts_witness :
  let l := Metrics.locals 3%Z (Some 5%Z) in
  (0 <= 3)%Z /\ (0 <= 5)%Z
  /\ (Metrics.l_tp l + Metrics.l_fp l = 3)%Z
  /\ (Metrics.l_tp l + Metrics.l_fn l = 5)%Z
  /\ ((3 = 0)%Z -> Metrics.l_risk_level l = lit "Critical")
  /\ ((0 < 3 <= 5)%Z -> Metrics.l_risk_level l = lit "Low")
  /\ ((5 = 0)%Z -> (0 < 3)%Z -> Metrics.l_risk_level l = lit "Critical")
  /\ ((0 < 5 < 3)%Z -> Metrics.l_risk_level l <> lit "Low").
Proof.
  intros l.
  assert (H1 : (0 <= 3)%Z) by lia. assert (H2 : (0 <= 5)%Z) by lia.
  split; [exact H1|]. split; [exact H2|].
  exact (RiskFacts.risk_from_counts 3%Z 5%Z H1 H2).
Defined.

(** * Worked examples of the callers *)

Lemma allowed_file_examples :
  allowed_file (lit "report.final.CSV") = true
  /\ allowed_file (lit ".pdf") = true
  /\ allowed_file (lit "csv") = false
  /\ allowed_file (lit "data.csv.bak") = false
  /\ allowed_file (lit "notes.") = false.
Proof. repeat split; vm_compute; reflexivity. Qed.

Lemma expected_count_examples :
  expected_count_of (lit "42") = Some (Some 42%N)
  /\ expected_count_of (lit "007") = Some (Some 7%N)
  /\ expected_count_of (lit "") = Some None
  /\ expected_count_of (lit "-1") = Some None
  /\ expected_count_of [chr 178] = None.
Proof. repeat split; vm_compute; reflexivity. Qed.

Lemma apply_deidentification_examples :
  let run strategy pii_type :=
    fst <$> apply_deidentification Examples.no_sha256 Examples.good_aadhaar
              (lit strategy) (lit pii_type) None false (Examples.world_of CtxNone) in
  run "full"%string "aadhaar"%string = Some (lit "id **************")
  /\ run "redact"%string "aadhaar"%string = Some (lit "id [AADHAAR_REDACTED]")
  /\ run "full"%string "Aadhaar"%string = Some Examples.good_aadhaar
  /\ run "mask"%string "aadhaar"%string = Some Examples.good_aadhaar.
Proof. intros run. repeat split; vm_compute; reflexivity. Qed.

Lemma licence_example :
  text_of (mask_driving_license Examples.no_sha256 Cases.licence None
             Examples.partial_kwargs (Examples.world_of CtxNone))
  = Some (lit "DL MH************** and KA**************").
Proof. vm_compute. reflexivity. Qed.

Lemma passport_example :
  text_of (mask_passport Examples.no_sha256 Cases.passport None
             Examples.partial_kwargs (Examples.world_of CtxNone))
  = Some (lit "passport K******* seen")
  /\ mask_passport Examples.no_sha256 Cases.passport
       (Some Cases.digits_or_nothing) Examples.partial_kwargs
       (Examples.world_of CtxNone) = None
  /\ map (fun m => (m_start m, m_end m))
         (finditer Cases.digits_or_nothing (lit "K1"))
     = [(0, 0); (1, 2); (2, 2)].
Proof. repeat split; vm_compute; reflexivity. Qed.

(** The numbers that differ by the exchange of the fifth and the sixth
    digit both pass the Aadhaar check. *)
Lemma aadhaar_unseen_swap_example :
  Verhoeff.aadhaar_verhoeff (lit "234507123457") = true
  /\ Verhoeff.aadhaar_verhoeff (lit "234570123457") = true.
Proof. split; vm_compute; reflexivity. Qed.
